(** * Coupling utilities (couplingutils.py): a shallow embedding

    The module is a flat collection of closed-form coupling formulas applied
    to arrays produced by an external quantum-chemistry solver, plus one
    trajectory-extraction routine that stores coordinates in csv files.

    Conventions of the embedding.
    - Python and numpy floating-point scalars are read as real numbers:
      the development is about which formula each function evaluates, not
      about rounding.
    - Python exceptions are values of [exn]; a function that may raise
      returns [result A].
    - numpy arrays that a function updates in place live in a [heap]
      addressed by locations, so that two arguments may be the same array;
      further on, an array is a view of a buffer of the heap, so that two
      arrays may share memory without being one array.
    - The external solver (integral engine, SCF driver) and the trajectory
      library are Section parameters: nothing is assumed about what they
      compute.

    Embedded: jk_ints_eff, V_Coulomb, V_multipole, V_pdipole, V_CT,
    transfer_sym, do_dft and Process_MD; further on td_chrg_lowdin,
    dimer_dft, do_tddft and transfer_CT, whose calls into the solver are
    parameters and whose loops, indexing and array products are written
    out. Printing to the standard output is left out. *)

From Stdlib Require Import Reals Lra Lia ZArith List Ascii String Sorted.
From stdpp Require Import base option list gmap strings fin_maps pretty.

Open Scope R_scope.

(** ** Exceptions and results *)

Inductive exn : Type :=
  | AssertionError
  | AttributeError
  | IndexError
  | ValueError
  | TypeError
  | UnboundLocalError
  | FileNotFoundError.

Definition result (A : Type) : Type := exn + A.

Definition raise {A : Type} (e : exn) : result A := inl e.

#[global] Instance result_ret : MRet result := fun _ x => inr x.
#[global] Instance result_bind : MBind result := fun _ _ f m =>
  match m with
  | inl e => inl e
  | inr x => f x
  end.

(** ** Numeric helpers of numpy *)

(** [np.sum] over a flat sequence. *)
Fixpoint np_sum (xs : list R) : R :=
  match xs with
  | [] => 0
  | x :: xs' => x + np_sum xs'
  end.

(** [np.linalg.norm] of a one-dimensional array: the Euclidean norm. *)
Definition norm (v : list R) : R := sqrt (np_sum (map (fun x => x * x) v)).

(** Angstrom to atomic units (Bohr), the literal used throughout the module. *)
Definition ang2au : R := 1.8897259886.

(** ** Mean-field objects

    The attributes the module reads: orbital energies, occupation numbers
    and orbital coefficients (one column per orbital). *)

Record ndarray : Type := NdArray {
  shape : list nat;
  data : list R
}.

Record meanfield : Type := MeanField {
  mo_energy : list R;
  mo_occ : list R;
  mo_coeff : ndarray
}.

(** [a[mask]] for a boolean mask: numpy raises IndexError when the mask and
    the array differ in length. *)
Fixpoint mask_select (a : list R) (mask : list bool) : result (list R) :=
  match a, mask with
  | [], [] => mret []
  | x :: a', b :: mask' =>
      r ← mask_select a' mask';
      mret (if b then x :: r else r)
  | _, _ => raise IndexError
  end.

Definition eq0 (x : R) : bool := if Req_dec_T x 0 then true else false.
Definition ne0 (x : R) : bool := negb (eq0 x).

(** [a[0]] and [a[-1]]. *)
Definition first (a : list R) : result R :=
  match a with
  | [] => raise IndexError
  | x :: _ => mret x
  end.

Definition last_elt (a : list R) : result R :=
  match rev a with
  | [] => raise IndexError
  | x :: _ => mret x
  end.

(** [a[1]] and [a[-2]]. *)
Definition second (a : list R) : result R :=
  match a with
  | _ :: x :: _ => mret x
  | _ => raise IndexError
  end.

Definition last_but_one (a : list R) : result R :=
  match rev a with
  | _ :: x :: _ => mret x
  | _ => raise IndexError
  end.

(** ** V_CT *)

Definition V_CT (te th : R) (rab : list R)
    (mfAB : option meanfield) (Egap : option R) : result (R * R * R) :=
  let RAB := norm rab * ang2au in
  U ← match Egap with
      | None => mret (0.7 * 0.0367493)
      | Some Eopt =>
          match mfAB with
          | None => raise AttributeError
          | Some mf =>
              virt ← mask_select (mo_energy mf) (map eq0 (mo_occ mf));
              EL ← first virt;
              occ ← mask_select (mo_energy mf) (map ne0 (mo_occ mf));
              EH ← last_elt occ;
              let Eg := EL - EH in
              mret (Eg - Eopt)
          end
      end;
  let perm := 1 in
  let er := 77.16600 in
  let elect := 1 in
  let V := elect ^ 2 / (perm * er * RAB) in
  let domega := U - V in
  mret (-2 * te * th / domega, domega, norm rab).

(** ** transfer_sym *)

Definition transfer_sym (mf : meanfield) : result (R * R) :=
  let mo_en := mo_energy mf in
  E_v ← mask_select mo_en (map eq0 (mo_occ mf));
  E_o ← mask_select mo_en (map ne0 (mo_occ mf));
  EH ← last_elt E_o;
  EHm1 ← last_but_one E_o;
  EL ← first E_v;
  ELp1 ← second E_v;
  let th := (EH - EHm1) / 2 in
  let te := (EL - ELp1) / 2 in
  mret (te, th).

(** ** Two-dimensional numpy arrays

    An [ndarray] is its shape and its elements in row-major order. *)

(** Element [(i, j)] of a two-dimensional array seen through numpy's
    broadcasting: an axis of length 1 is read at index 0 whatever the
    index asked for. *)
Definition get2 (x : ndarray) (i j : nat) : R :=
  match shape x with
  | [r; c] =>
      let i' := if decide (r = 1%nat) then 0%nat else i in
      let j' := if decide (c = 1%nat) then 0%nat else j in
      nth (i' * c + j') (data x) 0
  | _ => 0
  end.

(** Broadcasting of one axis: equal lengths, or one of them 1. *)
Definition bdim (d1 d2 : nat) : result nat :=
  if decide (d1 = d2) then mret d1
  else if decide (d1 = 1%nat) then mret d2
  else if decide (d2 = 1%nat) then mret d1
  else raise ValueError.

(** Row-major listing of [f i j] for [i < r], [j < c]. *)
Definition tabulate2 (r c : nat) (f : nat -> nat -> R) : list R :=
  flat_map (fun i => map (f i) (seq 0 c)) (seq 0 r).

(** [x / y] on two-dimensional arrays. *)
Definition divide (x y : ndarray) : result ndarray :=
  match shape x, shape y with
  | [r1; c1], [r2; c2] =>
      r ← bdim r1 r2;
      c ← bdim c1 c2;
      mret (NdArray [r; c] (tabulate2 r c (fun i j => get2 x i j / get2 y i j)))
  | _, _ => raise ValueError
  end.

(** [np.einsum('ia,ia->', x, y)]. *)
Definition einsum_ia_ia (x y : ndarray) : result R :=
  match shape x, shape y with
  | [r1; c1], [r2; c2] =>
      r ← bdim r1 r2;
      c ← bdim c1 c2;
      mret (np_sum (tabulate2 r c (fun i j => get2 x i j * get2 y i j)))
  | _, _ => raise ValueError
  end.

(** [np.outer(u, v)] of two one-dimensional arrays. *)
Definition outer (u v : list R) : ndarray :=
  NdArray [length u; length v]
          (flat_map (fun x => map (fun y => x * y) v) u).

(** Points of three-dimensional space, the rows of [atom_coords()]. *)
Definition point : Type := R * R * R.

Definition euclidean (a b : point) : R :=
  let '(ax, ay, az) := a in
  let '(bx, by_, bz) := b in
  sqrt ((ax - bx) * (ax - bx) + (ay - by_) * (ay - by_) + (az - bz) * (az - bz)).

(** [scipy.spatial.distance.cdist(XA, XB)] with the default metric. *)
Definition cdist (XA XB : list point) : ndarray :=
  NdArray [length XA; length XB]
          (flat_map (fun a => map (euclidean a) XB) XA).

(** ** Molecules

    The attributes of a PySCF molecule that the module reads. *)

Record mol : Type := Mol {
  atom_coords : list point;
  nao : nat;
  nbas : nat;
  verbose : Z
}.

(** ** V_multipole *)

Definition V_multipole (molA molB : mol) (chrgA chrgB : list R) : result R :=
  let mol_dist := cdist (atom_coords molA) (atom_coords molB) in
  q ← divide (outer chrgA chrgB) mol_dist;
  let Vij := np_sum (data q) in
  mret Vij.

(** ** V_pdipole

    The three arguments are numpy arrays held by the caller: they are
    locations of a heap, and [rAB *= 1.8897259886] updates the array at
    [rAB] in place. Each location is an array with memory of its own: two
    arguments share memory only when they are one location. Arrays that
    are views of one buffer are taken up in [V_pdipole_mem]. *)

Definition loc : Type := positive.

Abbreviation heap := (gmap positive (list R)).

Definition deref (h : heap) (l : loc) : result (list R) :=
  match h !! l with
  | Some v => mret v
  | None => raise TypeError
  end.

(** [np.dot] of two one-dimensional arrays. *)
Fixpoint dot (u v : list R) : result R :=
  match u, v with
  | [], [] => mret 0
  | x :: u', y :: v' => s ← dot u' v'; mret (x * y + s)
  | _, _ => raise ValueError
  end.

Definition scale (k : R) (v : list R) : list R := map (fun x => x * k) v.

Definition V_pdipole (tdA tdB rAB : loc) (h : heap) : result (R * heap) :=
  let const := 1 in
  r0 ← deref h rAB;
  let h := <[rAB := scale 1.8897259886 r0]> h in
  a ← deref h tdA;
  let miuAnorm := Rabs (norm a) in
  b ← deref h tdB;
  let miuBnorm := Rabs (norm b) in
  r ← deref h rAB;
  let RABnorm := norm r in
  dab ← dot a b;
  dar ← dot a r;
  dbr ← dot b r;
  let num := dab - 3 * dar * dbr in
  let Vij := (miuAnorm * miuBnorm / const) * num / RABnorm ^ 3 in
  mret (Vij, h).

(** ** The external solver

    PySCF's molecule builder, SCF driver and integral engine. *)

Section Solver.

(** [gto.M(atom=..., basis=..., charge=..., spin=...)]. *)
Variable gto_M : string -> string -> Z -> Z -> result mol.

(** [solvent.ddCOSMO(mf).run()] for [mf = scf.RKS(mol)] with [mf.xc] set. *)
Variable ddCOSMO_RKS_run : mol -> string -> result meanfield.

(** [molA + molB]. *)
Variable mol_add : mol -> mol -> mol.

(** The [_vhf.VHFOpt] object after [set_dm], and [scipy.linalg.block_diag]. *)
Variable vhfopt : Type.
Variable VHFOpt_set_dm : mol -> ndarray -> vhfopt.
Variable block_diag : ndarray -> ndarray -> ndarray.

(** [jk.get_jk(mol, dm, script, shls_slice, vhfopt, aosym, hermi)] run
    with the given prescreening function installed. *)
Variable get_jk :
  mol -> ndarray -> string -> list nat -> vhfopt -> string -> Z -> string -> ndarray.

(** *** jk_ints_eff *)

Definition jk_ints_eff (molA molB : mol) (tdmA tdmB : ndarray) (calcK : bool)
    : result (R * R) :=
  let naoA := nao molA in
  let naoB := nao molB in
  if decide (shape tdmA = [naoA; naoA]) then
    if decide (shape tdmB = [naoB; naoB]) then
      let molAB := mol_add molA molB in
      let dmAB := block_diag tdmA tdmB in
      let opt := VHFOpt_set_dm molAB dmAB in
      let shls_slice := [0; nbas molA; 0; nbas molA;
                         nbas molA; nbas molAB; nbas molA; nbas molAB]%nat in
      let vJ := get_jk molAB tdmB "ijkl,lk->s2ij" shls_slice opt "s4" 1
                       "CVHFnrs8_vj_prescreen" in
      cJ ← einsum_ia_ia vJ tdmA;
      if calcK then
        let shls_slice := [0; nbas molA; nbas molA; nbas molAB;
                           nbas molA; nbas molAB; 0; nbas molA]%nat in
        let vK := get_jk molAB tdmB "ijkl,jk->il" shls_slice opt "s1" 0
                         "CVHFnrs8_vk_prescreen" in
        cK ← einsum_ia_ia vK tdmA;
        mret (cJ, cK)
      else
        mret (cJ, 0)
    else raise AssertionError
  else raise AssertionError.

(** *** V_Coulomb *)

Definition V_Coulomb (molA molB : mol) (tdmA tdmB : ndarray) (calcK : bool)
    : result R :=
  '(cJ, cK) ← jk_ints_eff molA molB tdmA tdmB false;
  mret (2 * cJ - cK).

(** *** do_dft *)

(** [s[1:-1]] on a string. *)
Definition slice_1_m1 (s : string) : string :=
  substring 1 (String.length s - 2) s.

(** Columns of a two-dimensional array picked by a boolean mask,
    [mo[:, mask]]. *)
Fixpoint mask_indices (i : nat) (mask : list bool) : list nat :=
  match mask with
  | [] => []
  | b :: mask' =>
      if b then i :: mask_indices (S i) mask' else mask_indices (S i) mask'
  end.

Definition select_columns (m : ndarray) (mask : list bool) : result ndarray :=
  match shape m with
  | [r; c] =>
      if decide (length mask = c) then
        let cols := mask_indices 0 mask in
        mret (NdArray [r; length cols]
                (flat_map (fun i => map (fun j => nth (i * c + j) (data m) 0) cols)
                          (seq 0 r)))
      else raise IndexError
  | _ => raise IndexError
  end.

Definition set_verbose (m : mol) (verb : Z) : mol :=
  Mol (atom_coords m) (nao m) (nbas m) verb.

Definition do_dft (coord basis xc_f : string) (mol_ch spin verb : Z)
    : result (mol * meanfield * ndarray * ndarray) :=
  m ← gto_M (slice_1_m1 coord) basis mol_ch 0;
  let m := set_verbose m verb in
  mf ← ddCOSMO_RKS_run m xc_f;
  let mo := mo_coeff mf in
  occ ← select_columns mo (map ne0 (mo_occ mf));
  virt ← select_columns mo (map eq0 (mo_occ mf));
  mret (m, mf, occ, virt).

End Solver.

(** ** Process_MD

    The trajectory is read through MDAnalysis, whose selection language,
    centre-of-mass routine and numpy's text rendering of floats are
    parameters. Files are a finite map from path to content. *)

Record atom : Type := Atom {
  resid : Z;
  name : string;
  position : point;
  mass : R
}.

Record universe : Type := Universe {
  frame : Z;
  atoms : list atom
}.

Abbreviation files := (gmap string string).

(** [s.replace(old, new)] for a non-empty [old]: occurrences are replaced
    from left to right without overlap. [skip] counts the characters of an
    occurrence still to be dropped. *)
Fixpoint replace_from (old new : string) (skip : nat) (s : string) : string :=
  match s with
  | EmptyString => EmptyString
  | String c s' =>
      match skip with
      | S k => replace_from old new k s'
      | O =>
          if String.prefix old s
          then new +:+ replace_from old new (String.length old - 1) s'
          else String c (replace_from old new 0 s')
      end
  end.

Definition replace (old new s : string) : string := replace_from old new 0 s.

(** [np.nonzero(names == x)[0][0]]: the first index holding [x]. *)
Fixpoint index_of (x : string) (names : list string) : result nat :=
  match names with
  | [] => raise IndexError
  | n :: names' =>
      if decide (n = x) then mret 0%nat
      else i ← index_of x names'; mret (S i)
  end.

(** [np.delete(a, idx, 0)] for indices within bounds: the rows whose index
    is listed are dropped. [i] is the index of the head of [a]. *)
Fixpoint delete_from {A : Type} (i : nat) (idx : list nat) (a : list A) : list A :=
  match a with
  | [] => []
  | x :: a' =>
      if existsb (Nat.eqb i) idx then delete_from (S i) idx a'
      else x :: delete_from (S i) idx a'
  end.

Definition np_delete {A : Type} (a : list A) (idx : list nat) : list A :=
  delete_from 0 idx a.

Definition shift (d : R) (p : point) : point :=
  let '(x, y, z) := p in (x + d, y + d, z + d).

Definition psub (p q : point) : point :=
  let '(x, y, z) := p in
  let '(x', y', z') := q in (x - x', y - y', z - z').

Section MD.

Variable select_atoms : universe -> string -> list atom.
Variable center_of_mass : list atom -> point.
(** [np.array2string(row, precision=6, separator=sep)] on a coordinate row
    and on a row of strings. *)
Variable array2string : point -> string -> string.
Variable array2string_str : list string -> string -> string.
(** [csv.reader] over the lines of a file. *)
Variable csv_reader : string -> list (list string).

Definition add_H (u : universe) (xyz : list point) (names : list string)
    (sel : string) : result (list string * list point) :=
  op1 ← index_of "OP1" names;
  op2 ← index_of "OP2" names;
  p ← index_of "P" names;
  let xyz_new := np_delete xyz [op1; op2; p] in
  let names_new := np_delete names [op1; op2; p] in
  let O3 := select_atoms u ("resid " +:+ sel +:+ " and name O3*") in
  let O5 := select_atoms u ("resid " +:+ sel +:+ " and name O5*") in
  let O3_coord := map (fun a => shift 0.6 (position a)) O3 in
  let O5_coord := map (fun a => shift 0.6 (position a)) O5 in
  let xyz_add := xyz_new ++ O3_coord in
  let xyz_add := xyz_add ++ O5_coord in
  let names_add := names_new ++ ["H"; "H"] in
  mret (names_add, xyz_add).

(** One cell of the csv line: atom name, a blank, the coordinates. *)
Definition cell (n : string) (x : point) : string :=
  replace "OP2" "O^2"
    (replace "OP1" "O^1"
      (replace "O3'" "O3*"
        (replace "O5'" "O5*"
          (n +:+ " " +:+ replace "]" "" (replace "[" "" (array2string x "i")))))).

(** The comprehension over [range(len(names))]; [xyz[i]] raises when
    [xyz] is the shorter. *)
Fixpoint text_rows (names : list string) (xyz : list point)
    : result (list string) :=
  match names with
  | [] => mret []
  | n :: names' =>
      match xyz with
      | [] => raise IndexError
      | x :: xyz' => t ← text_rows names' xyz'; mret (cell n x :: t)
      end
  end.

(** [np.savetxt(f, [text], delimiter=';', fmt='%s')]: one line. *)
Definition savetxt (text : list string) : string :=
  String.concat ";" text +:+ String "010"%char EmptyString.

Definition coord_file (coord_path : string) (resN frameN : Z) : string :=
  coord_path +:+ pretty resN +:+ pretty frameN +:+ ".csv".

(** The loop over the rows read back: [xyz_i] is what the last row left. *)
Definition last_row (rows : list (list string)) : result string :=
  match rev rows with
  | [] => raise UnboundLocalError
  | row :: _ =>
      mret (replace "[" "" (replace "]" "" (replace "i" ","
              (array2string_str row ","))))
  end.

Definition coord_save (coord_path : string) (frameN resN : Z)
    (xyz : list point) (names : list string) (fs : files)
    : result string * files :=
  match text_rows names xyz with
  | inl e => (inl e, fs)
  | inr text =>
      let fs := <[coord_file coord_path resN frameN := savetxt text]> fs in
      match fs !! coord_file coord_path resN frameN with
      | None => (raise FileNotFoundError, fs)
      | Some read_obj => (last_row (csv_reader read_obj), fs)
      end
  end.

Definition Process_MD (u : universe) (sel_1 sel_2 coord_path : string)
    (fs : files) : result (string * string * point) * files :=
  let frameN := frame u in
  let agA := select_atoms u ("resid " +:+ sel_1) in
  let agB := select_atoms u ("resid " +:+ sel_2) in
  match agA, agB with
  | a0 :: _, b0 :: _ =>
      let resA := resid a0 in
      let xyzA := map position agA in
      let namesA := map name agA in
      let CofMA := center_of_mass agA in
      let resB := resid b0 in
      let xyzB := map position agB in
      let namesB := map name agB in
      let CofMB := center_of_mass agB in
      match add_H u xyzA namesA sel_1 with
      | inl e => (inl e, fs)
      | inr (namesA_H, xyzA_H) =>
          match add_H u xyzB namesB sel_2 with
          | inl e => (inl e, fs)
          | inr (namesB_H, xyzB_H) =>
              match coord_save coord_path frameN resA xyzA_H namesA_H fs with
              | (inl e, fs) => (inl e, fs)
              | (inr coordA, fs) =>
                  match coord_save coord_path frameN resB xyzB_H namesB_H fs with
                  | (inl e, fs) => (inl e, fs)
                  | (inr coordB, fs) =>
                      let Rab := psub CofMA CofMB in
                      (inr (coordA, coordB, Rab), fs)
                  end
              end
          end
      end
  | _, _ => (raise IndexError, fs)
  end.

End MD.

(** * Vocabulary of the specification *)

(** ** Frontier orbitals and the binding energy *)

(** E_LUMO: the energy of the first orbital with zero occupation. *)
Definition E_LUMO (mf : meanfield) : option R :=
  fst <$> List.find (fun eo => eq0 (snd eo)) (combine (mo_energy mf) (mo_occ mf)).

(** E_HOMO: the energy of the last orbital with non-zero occupation. *)
Definition E_HOMO (mf : meanfield) : option R :=
  fst <$> List.find (fun eo => ne0 (snd eo)) (rev (combine (mo_energy mf) (mo_occ mf))).

(** The Coulomb binding energy of the electron-hole pair in water, for a
    centre-of-mass distance vector given in Angstrom. *)
Definition distance_au (rab : list R) : R := norm rab * 1.8897259886.
Definition V_binding (rab : list R) : R := 1 / (77.16600 * distance_au rab).

(** ** The point-dipole formula *)

Fixpoint vdot (u v : list R) : R :=
  match u, v with
  | x :: u', y :: v' => x * y + vdot u' v'
  | _, _ => 0
  end.

Definition vnorm (v : list R) : R := sqrt (vdot v v).

(** A vector given in Angstrom, converted to atomic units. *)
Definition to_au (v : list R) : list R := map (fun x => 1.8897259886 * x) v.

Definition point_dipole (tdA tdB rAB : list R) : R :=
  let r := to_au rAB in
  vnorm tdA * vnorm tdB * (vdot tdA tdB - 3 * (vdot tdA r) * (vdot tdB r))
  / vnorm r ^ 3.

(** The same expression for a distance vector already in atomic units. *)
Definition dipole_expr (tdA tdB r : list R) : R :=
  vnorm tdA * vnorm tdB * (vdot tdA tdB - 3 * (vdot tdA r) * (vdot tdB r))
  / vnorm r ^ 3.

(** What is read at [l] once the array at [r], holding [vr], has been
    scaled: the scaled array when [l] is [r], and [vl] otherwise. *)
Definition read_after (r l : loc) (vr vl : list R) : list R :=
  if decide (l = r) then to_au vr else vl.

(** The value a call returns, without the heap it leaves. *)
Definition returned {A S : Type} (r : result (A * S)) : result A :=
  match r with
  | inl e => inl e
  | inr (x, _) => inr x
  end.

(** ** The transition-monopole sum *)

(** The sum of [f i] over [i < n]. *)
Definition big_sum (n : nat) (f : nat -> R) : R := np_sum (map f (seq 0 n)).

Definition origin : point := (0, 0, 0).

(** The double sum over atoms f of A and g of B of
    chrgA[f]*chrgB[g] / |rA[f] - rB[g]|. *)
Definition monopole_sum (rA rB : list point) (chrgA chrgB : list R) : R :=
  big_sum (length rA) (fun f =>
    big_sum (length rB) (fun g =>
      nth f chrgA 0 * nth g chrgB 0 / euclidean (nth f rA origin) (nth g rB origin))).

(** * Example inputs *)

(** ** Orbitals, arrays and molecules *)

(** A closed-shell dimer with one occupied and one virtual orbital. *)
Definition mf_two_level : meanfield :=
  MeanField [-0.5; 0.1] [2; 0] (NdArray [2%nat; 2%nat] [1; 0; 0; 1]).

(** Three arrays of a caller: two dipoles and a distance vector. *)
Definition heap_three : heap :=
  <[1%positive := [1; 0; 0]]> (<[2%positive := [0; 1; 0]]>
    (<[3%positive := [0; 0; 2]]> ∅)).

(** Three arrays holding the unit vector along x. *)
Definition heap_parallel : heap :=
  <[1%positive := [1; 0; 0]]> (<[2%positive := [1; 0; 0]]>
    (<[3%positive := [1; 0; 0]]> ∅)).

(** One atom against two. *)
Definition mol_one : mol := Mol [(0, 0, 0)] 1 1 0.
Definition mol_pair : mol := Mol [(1, 0, 0); (0, 2, 0)] 2 2 0.

(** ** A small trajectory and stand-ins for the external routines *)

(** Selections of the two forms Process_MD builds: "resid N" and
    "resid N and name P*". *)
Definition demo_select (u : universe) (q : string) : list atom :=
  List.filter (fun a =>
      let by_resid := "resid " +:+ pretty (resid a) in
      String.eqb q by_resid
      || (String.eqb q (by_resid +:+ " and name O3*") && String.prefix "O3" (name a))
      || (String.eqb q (by_resid +:+ " and name O5*") && String.prefix "O5" (name a)))
    (atoms u).

Definition demo_center_of_mass (ag : list atom) : point :=
  let M := np_sum (map mass ag) in
  let mx := np_sum (map (fun a => mass a * fst (fst (position a))) ag) in
  let my := np_sum (map (fun a => mass a * snd (fst (position a))) ag) in
  let mz := np_sum (map (fun a => mass a * snd (position a)) ag) in
  (mx / M, my / M, mz / M).

(** A rendering that writes the same digits for every coordinate. *)
Definition demo_array2string (p : point) (sep : string) : string :=
  "[0." +:+ sep +:+ "0." +:+ sep +:+ "0.]".

Definition demo_array2string_str (row : list string) (sep : string) : string :=
  "[" +:+ String.concat sep (map (fun s => "'" +:+ s +:+ "'") row) +:+ "]".

(** A reader for files of one line without commas: one row of one field,
    the line without its end. *)
Definition demo_csv_reader (content : string) : list (list string) :=
  [[substring 0 (String.length content - 1) content]].

Definition demo_residue (r : Z) : list atom :=
  [Atom r "P" (0, 0, 0) 31; Atom r "OP1" (1, 0, 0) 16; Atom r "OP2" (0, 1, 0) 16;
   Atom r "O5'" (0, 0, 1) 16; Atom r "C1'" (1, 1, 0) 12; Atom r "O3'" (1, 1, 1) 16].

Definition demo_universe : universe :=
  Universe 0 (demo_residue 1 ++ demo_residue 2).

Definition demo_Process_MD :=
  Process_MD demo_select demo_center_of_mass demo_array2string
             demo_array2string_str demo_csv_reader.

Definition demo_path : string := "/coord_files/MD_atoms".

Definition demo_cells : list string :=
  ["O5* 0.i0.i0."; "C1' 0.i0.i0."; "O3* 0.i0.i0."; "H 0.i0.i0."; "H 0.i0.i0."].

(** * Further vocabulary *)

(** The numbers of occupied and of virtual orbitals of a mean-field object. *)
Definition n_occ (mf : meanfield) : nat := length (List.filter ne0 (mo_occ mf)).
Definition n_virt (mf : meanfield) : nat := length (List.filter eq0 (mo_occ mf)).

(** Two axis lengths numpy can broadcast against each other. *)
Definition broadcastable (d1 d2 : nat) : Prop := d1 = d2 \/ d1 = 1%nat \/ d2 = 1%nat.

(** A molecule moved by the vector [t]. *)
Definition padd (t p : point) : point :=
  let '(tx, ty, tz) := t in
  let '(x, y, z) := p in (x + tx, y + ty, z + tz).

Definition translate (t : point) (m : mol) : mol :=
  Mol (map (padd t) (atom_coords m)) (nao m) (nbas m) (verbose m).

(** A result with its value mapped. *)
Definition result_map {A B : Type} (f : A -> B) (r : result A) : result B :=
  match r with
  | inl e => inl e
  | inr x => inr (f x)
  end.

(** The energies of the virtual and of the occupied orbitals, in the order
    of the orbitals. *)
Definition virt_energies (mf : meanfield) : list R :=
  map fst (List.filter (fun eo => eq0 (snd eo)) (combine (mo_energy mf) (mo_occ mf))).

Definition occ_energies (mf : meanfield) : list R :=
  map fst (List.filter (fun eo => ne0 (snd eo)) (combine (mo_energy mf) (mo_occ mf))).

(** A dimer with two occupied and two virtual orbitals. *)
Definition mf_four_level : meanfield :=
  MeanField [-0.6; -0.5; 0.1; 0.3] [2; 2; 0; 0]
            (NdArray [2%nat; 4%nat] [1; 0; 0; 1; 0; 1; 1; 0]).

(** ** V_pdipole with the heap of the exceptional outcome

    The same function once more, returning the heap also when the call
    raises: the update of rAB comes first and is not undone. *)
Definition V_pdipole_outcome (tdA tdB rAB : loc) (h : heap) : result R * heap :=
  let const := 1 in
  match deref h rAB with
  | inl e => (inl e, h)
  | inr r0 =>
      let h := <[rAB := scale 1.8897259886 r0]> h in
      (a ← deref h tdA;
       let miuAnorm := Rabs (norm a) in
       b ← deref h tdB;
       let miuBnorm := Rabs (norm b) in
       r ← deref h rAB;
       let RABnorm := norm r in
       dab ← dot a b;
       dar ← dot a r;
       dbr ← dot b r;
       let num := dab - 3 * dar * dbr in
       let Vij := (miuAnorm * miuBnorm / const) * num / RABnorm ^ 3 in
       mret Vij, h)
  end.

(** Two dipoles of different dimension and a distance vector. *)
Definition heap_mismatch : heap :=
  <[1%positive := [1; 0; 0]]> (<[2%positive := [0; 1]]>
    (<[3%positive := [0; 0; 2]]> ∅)).

(** * Further functions of the module *)

(** ** dimer_dft *)

Section Dimer.

Variable ddCOSMO_RKS_run : mol -> string -> result meanfield.
Variable mol_add : mol -> mol -> mol.

Definition dimer_dft (molA molB : mol) (xc_f : string) (verb : Z)
    : result (mol * meanfield * ndarray * ndarray) :=
  let m := mol_add molA molB in
  let m := set_verbose m verb in
  mf ← ddCOSMO_RKS_run m xc_f;
  let mo := mo_coeff mf in
  occ ← select_columns mo (map ne0 (mo_occ mf));
  virt ← select_columns mo (map eq0 (mo_occ mf));
  mret (m, mf, occ, virt).

End Dimer.

(** ** td_chrg_lowdin

    The overlap matrix, its square root through numpy's SVD and the
    contraction [einsum('ij,jk,ki->i', S_half, dm, S_half)] are the
    library's: [lowdin_pop] stands for them. The loop that adds the orbital
    populations up per atom is the module's. The two [print] loops write to
    the standard output only and are left out. *)

(** An entry of [mol.ao_labels(fmt=None)]: the index of the atom, its
    symbol, the shell and the orientation of the orbital. *)
Record ao_label : Type := AoLabel {
  ao_atom : nat;
  ao_symbol : string;
  ao_shell : string;
  ao_m : string
}.

Definition natm (m : mol) : nat := length (atom_coords m).

(** [for i, s in enumerate(labels): chg[s[0]] += pop[i]], from index [i]. *)
Fixpoint add_populations (i : nat) (labels : list ao_label) (pop chg : list R)
    : result (list R) :=
  match labels with
  | [] => mret chg
  | s :: labels' =>
      match chg !! ao_atom s, pop !! i with
      | Some c, Some p =>
          add_populations (S i) labels' pop (<[ao_atom s := c + p]> chg)
      | _, _ => raise IndexError
      end
  end.

Section Lowdin.

Variable lowdin_pop : mol -> ndarray -> result (list R).
Variable ao_labels : mol -> list ao_label.

Definition td_chrg_lowdin (m : mol) (dm : ndarray) : result (list R * list R) :=
  pop ← lowdin_pop m dm;
  let chg := repeat 0 (natm m) in
  chg ← add_populations 0 (ao_labels m) pop chg;
  mret (pop, chg).

End Lowdin.

(** The population of the orbitals of atom [a] among the labels, counted
    from orbital [i]. *)
Fixpoint atom_population (a i : nat) (labels : list ao_label) (pop : list R) : R :=
  match labels with
  | [] => 0
  | s :: labels' =>
      (if decide (ao_atom s = a) then nth i pop 0 else 0)
      + atom_population a (S i) labels' pop
  end.

(** Water in a minimal basis: five orbitals on the oxygen, one on each
    hydrogen. *)
Definition water : mol :=
  Mol [(0, 0, 0); (0, 1.43, 1.1); (0, -1.43, 1.1)] 7 5 0.

Definition water_labels : list ao_label :=
  [AoLabel 0 "O" "1s" ""; AoLabel 0 "O" "2s" ""; AoLabel 0 "O" "2p" "x";
   AoLabel 0 "O" "2p" "y"; AoLabel 0 "O" "2p" "z";
   AoLabel 1 "H" "1s" ""; AoLabel 2 "H" "1s" ""].

(** A population analysis of water, for the examples. *)
Definition water_populations : list R := [2; 1.8; 1.1; 1.5; 2; 0.8; 0.8].

Definition water_pop (m : mol) (dm : ndarray) : result (list R) :=
  inr water_populations.

(** ** Stand-ins for the solver, on molecules of one orbital *)

Definition demo_mol_add (a b : mol) : mol :=
  Mol (atom_coords a ++ atom_coords b) (nao a + nao b) (nbas a + nbas b)
      (verbose a).

Definition demo_block_diag (a b : ndarray) : ndarray :=
  match shape a, shape b with
  | [ra; ca], [rb; cb] =>
      NdArray [ra + rb; ca + cb]%nat
        (tabulate2 (ra + rb) (ca + cb) (fun i j =>
           if (i <? ra)%nat && (j <? ca)%nat then get2 a i j
           else if (ra <=? i)%nat && (ca <=? j)%nat then get2 b (i - ra) (j - ca)
           else 0))
  | _, _ => a
  end.

(** An integral engine whose potential is the density it is given. *)
Definition demo_get_jk (m : mol) (dm : ndarray) (script : string)
    (shls_slice : list nat) (opt : unit) (aosym : string) (hermi : Z)
    (prescreen : string) : ndarray := dm.

Definition demo_jk_ints_eff :=
  jk_ints_eff demo_mol_add unit (fun _ _ => tt) demo_block_diag demo_get_jk.

Definition demo_V_Coulomb :=
  V_Coulomb demo_mol_add unit (fun _ _ => tt) demo_block_diag demo_get_jk.

(** A molecule builder that refuses an empty geometry and a mean-field
    driver with the orbitals of [mf_four_level]. *)
Definition demo_gto_M (atoms basis : string) (charge spin : Z) : result mol :=
  if String.eqb atoms EmptyString then raise ValueError
  else inr (Mol [(0, 0, 0); (0, 0, 1)] 2 2 0).

Definition demo_run (m : mol) (xc_f : string) : result meanfield :=
  inr mf_four_level.

(** ** More of the trajectory *)

(** The opposite of a vector. *)
Definition popp (p : point) : point :=
  let '(x, y, z) := p in (- x, - y, - z).

(** A trajectory whose second residue has lost its O3' atom. *)
Definition demo_universe_cut : universe :=
  Universe 0 (demo_residue 1 ++ removelast (demo_residue 2)).

(** The names and coordinates of the first residue after add_H. *)
Definition demo_capped_names : list string := ["O5'"; "C1'"; "O3'"; "H"; "H"].

Definition demo_capped_xyz : list point :=
  [(0, 0, 1); (1, 1, 0); (1, 1, 1); shift 0.6 (1, 1, 1); shift 0.6 (0, 0, 1)].

(** ** do_tddft

    The TDA solver is PySCF's: [TDA_run mf n] stands for
    [mf.TDA().run(nstates=n)]. Indexing, the products of two-dimensional
    arrays and the transposition are numpy's and written out; the products
    with operands of another rank go through [np_dot_other], the
    transposition of arrays of rank above two through [T_other]. A
    [state_id] is taken to be an int or a list of ints, the two forms the
    function documents. *)

(** What the solver leaves: [td.e], the rows of [td.transition_dipole()]
    and the pairs of [td.xy]. *)
Record tda : Type := Tda {
  tda_e : list R;
  tda_dipole : list (list R);
  tda_xy : list (ndarray * ndarray)
}.

Inductive state_sel : Type :=
| StateInt (i : Z)
| StateList (ids : list Z).

(** A float or a list of them, as Tenergy is; the same for Tdipole. *)
Inductive one_or_list (A : Type) : Type :=
| One (x : A)
| Many (xs : list A).

Arguments One {A} x.
Arguments Many {A} xs.

(** [l[i]] for an int [i]: a negative index counts from the end. *)
Definition py_index {A : Type} (l : list A) (i : Z) : result A :=
  let n := Z.of_nat (length l) in
  let j := if (i <? 0)%Z then (i + n)%Z else i in
  if (j <? 0)%Z then raise IndexError
  else match l !! Z.to_nat j with
       | Some x => mret x
       | None => raise IndexError
       end.

(** [[l[i] for i in ids]]. *)
Fixpoint py_index_all {A : Type} (l : list A) (ids : list Z) : result (list A) :=
  match ids with
  | [] => mret []
  | i :: ids' =>
      x ← py_index l i;
      xs ← py_index_all l ids';
      mret (x :: xs)
  end.

(** [nstates = 1 if isinstance(state_id, int) else len(state_id)]. *)
Definition nstates_of (state_id : state_sel) : nat :=
  match state_id with
  | StateInt _ => 1%nat
  | StateList ids => length ids
  end.

(** The entry of a two-dimensional array at a position within bounds. *)
Definition item2 (x : ndarray) (i j : nat) : R :=
  match shape x with
  | [r; c] => nth (i * c + j) (data x) 0
  | _ => 0
  end.

(** [s * x] for a scalar [s]. *)
Definition scalar_mul (s : R) (x : ndarray) : ndarray :=
  NdArray (shape x) (map (fun v => s * v) (data x)).

Section TDDFT.

Variable TDA_run : meanfield -> nat -> result tda.
Variable np_dot_other : ndarray -> ndarray -> result ndarray.
Variable T_other : ndarray -> ndarray.

(** [a.dot(b)]. *)
Definition np_dot (a b : ndarray) : result ndarray :=
  match shape a, shape b with
  | [n; k], [k'; m] =>
      if decide (k = k') then
        mret (NdArray [n; m]
                (tabulate2 n m (fun i j =>
                   big_sum k (fun l => item2 a i l * item2 b l j))))
      else raise ValueError
  | _, _ => np_dot_other a b
  end.

(** [a.T]. *)
Definition transpose (a : ndarray) : ndarray :=
  match shape a with
  | [] | [_] => a
  | [r; c] => NdArray [c; r] (tabulate2 c r (fun i j => item2 a j i))
  | _ => T_other a
  end.

Definition do_tddft (mf : meanfield) (o_A v_A : ndarray) (state_id : state_sel)
    : result (one_or_list R * one_or_list (list R) * ndarray) :=
  let nstates := nstates_of state_id in
  td ← TDA_run mf nstates;
  '(Tenergy, Tdipole, cis_A) ←
    match state_id with
    | StateList ids =>
        Tenergy ← py_index_all (tda_e td) ids;
        Tdipole ← py_index_all (tda_dipole td) ids;
        i0 ← py_index ids 0;
        xy ← py_index (tda_xy td) i0;
        mret (Many Tenergy, Many Tdipole, fst xy)
    | StateInt i =>
        Tdipole ← py_index (tda_dipole td) i;
        Tenergy ← py_index (tda_e td) i;
        xy ← py_index (tda_xy td) i;
        mret (One Tenergy, One Tdipole, fst xy)
    end;
  oc ← np_dot o_A cis_A;
  tdm ← np_dot oc (transpose v_A);
  mret (Tenergy, Tdipole, scalar_mul (sqrt 2) tdm).

End TDDFT.

(** A solver that returns as many states as asked for, all alike. *)
Definition demo_TDA_run (mf : meanfield) (n : nat) : result tda :=
  inr (Tda (repeat 0.1 n) (repeat [1; 0; 0] n)
           (repeat (NdArray [2; 2]%nat [1; 0; 0; 1],
                    NdArray [2; 2]%nat [0; 0; 0; 0]) n)).

Definition demo_do_tddft :=
  do_tddft demo_TDA_run (fun _ _ => raise ValueError) (fun a => a).

(** ** transfer_CT

    [gto.intor_cross] is the library's. [lib.einsum] is written out for
    matrices whose dimensions fit the subscripts; every other call of the
    function is left to [transfer_CT_other]. The three [print] calls write
    to the standard output only and are left out: the entries they read
    exist whenever te and th were read. *)

(** An index into an axis of length [n], counted from the end when
    negative. *)
Definition wrap (n : nat) (i : Z) : result nat :=
  let j := if (i <? 0)%Z then (i + Z.of_nat n)%Z else i in
  if ((j <? 0) || (Z.of_nat n <=? j))%Z then raise IndexError
  else mret (Z.to_nat j).

(** [x[i][j]] on a matrix of [rows] by [cols] entries [f]. *)
Definition matrix_entry (rows cols : nat) (f : nat -> nat -> R) (i j : Z)
    : result R :=
  r ← wrap rows i;
  c ← wrap cols j;
  mret (f r c).

(** The entries of [lib.einsum('pq,pa,qb->ab', s, x, y)] for [s] of shape
    (p, q). *)
Definition einsum_pq_pa_qb (p q : nat) (s x y : ndarray) (a b : nat) : R :=
  big_sum p (fun k => big_sum q (fun l =>
    item2 s k l * item2 x k a * item2 y l b)).

Section TransferCT.

Variable intor_cross : string -> mol -> mol -> ndarray.
Variable transfer_CT_other :
  mol -> mol -> ndarray -> ndarray -> ndarray -> ndarray -> result (R * R).

Definition transfer_CT (molA molB : mol) (o_A o_B v_A v_B : ndarray)
    : result (R * R) :=
  let eri_AB := intor_cross "int1e_ovlp" molA molB in
  match shape eri_AB, shape v_A, shape v_B, shape o_A, shape o_B with
  | [p; q], [pv; a], [qv; b], [po; i], [qo; j] =>
      if decide (pv = p /\ qv = q /\ po = p /\ qo = q) then
        let eri_ab := einsum_pq_pa_qb p q eri_AB v_A v_B in
        let eri_ij := einsum_pq_pa_qb p q eri_AB o_A o_B in
        te ← matrix_entry a b eri_ab 0 0;
        th ← matrix_entry i j eri_ij (-1) (-1);
        mret (te, - th)
      else transfer_CT_other molA molB o_A o_B v_A v_B
  | _, _, _, _, _ => transfer_CT_other molA molB o_A o_B v_A v_B
  end.

End TransferCT.

(** An overlap between two molecules of two orbitals each, and its
    transpose for the molecules in the other order. *)
Definition demo_intor_cross (intor : string) (molA molB : mol) : ndarray :=
  if decide (natm molA = 1%nat)
  then NdArray [2; 2]%nat [0.5; 0.1; 0.2; 0.4]
  else NdArray [2; 2]%nat [0.5; 0.2; 0.1; 0.4].

Definition demo_transfer_CT :=
  transfer_CT demo_intor_cross (fun _ _ _ _ _ _ => raise ValueError).

(** * Columns picked by a mask *)

(** The number of entries that satisfy [f] among the first [j]: the column
    of [mo[:, mask]] that holds column [j] of [mo], when entry [j]
    satisfies [f]. *)
Definition count_before (f : R -> bool) (o : list R) (j : nat) : nat :=
  length (List.filter f (take j o)).

(** * Arrays that share memory

    A numpy array is a view of a buffer: [x], [x[:]], a row [R[k]] of a
    matrix and the matrix [R] itself are array objects on one memory, and
    an update in place of one of them shows through the others. A [view]
    is a one-dimensional array as numpy lays it out: the buffer it looks
    into and the positions in that buffer of its elements, in order. For
    a slice these positions are [strided start step n]. The heap holds the
    buffers, of floats. *)

Record view : Type := View {
  buffer : loc;
  cells : list nat
}.

(** The positions of [x[start : start + n*step : step]]. *)
Definition strided (start step n : nat) : list nat :=
  map (fun i => (start + i * step)%nat) (seq 0 n).

(** The elements of a buffer at the given positions. *)
Fixpoint gather (buf : list R) (ps : list nat) : option (list R) :=
  match ps with
  | [] => Some []
  | p :: ps' =>
      match buf !! p, gather buf ps' with
      | Some x, Some xs => Some (x :: xs)
      | _, _ => None
      end
  end.

(** Reading an array. A view that does not lie within a buffer of the
    heap is not an array. *)
Definition read (m : heap) (a : view) : result (list R) :=
  match m !! buffer a with
  | Some buf =>
      match gather buf (cells a) with
      | Some v => mret v
      | None => raise TypeError
      end
  | None => raise TypeError
  end.

(** The buffer after [a *= k] for an array on the positions [ps]: each of
    these positions is multiplied, once, and the others are left. *)
Definition scale_cells (k : R) (ps : list nat) (buf : list R) : list R :=
  imap (fun p x => if decide (p ∈ ps) then x * k else x) buf.

(** [a *= k]. *)
Definition imul (k : R) (a : view) (m : heap) : result heap :=
  match m !! buffer a with
  | Some buf =>
      match gather buf (cells a) with
      | Some _ => mret (<[buffer a := scale_cells k (cells a) buf]> m)
      | None => raise TypeError
      end
  | None => raise TypeError
  end.

(** [np.shares_memory(a, b)]: the two arrays have an element at the same
    position of the same buffer. *)
Definition shares_memory (a b : view) : bool :=
  bool_decide (buffer a = buffer b)
  && existsb (fun p => bool_decide (p ∈ cells b)) (cells a).

(** For each element of [a], whether it lies in the memory of [r]. *)
Definition marks (r a : view) : list bool :=
  map (fun p => bool_decide (buffer a = buffer r) && bool_decide (p ∈ cells r))
      (cells a).

(** The values [v] with the marked elements multiplied by [k]. *)
Fixpoint scale_marked (k : R) (bs : list bool) (v : list R) : list R :=
  match bs, v with
  | b :: bs', x :: v' => (if b then x * k else x) :: scale_marked k bs' v'
  | _, _ => v
  end.

(** ** V_pdipole on arrays that may share memory

    The function of lines 160-184 once more, with its arguments as numpy
    passes them, by reference. The outcome is the value returned or the
    exception raised, together with the memory the call leaves in either
    case: [rAB *= 1.8897259886] comes first and is not undone. *)
Definition V_pdipole_mem (tdA tdB rAB : view) (m : heap) : result R * heap :=
  let const := 1 in
  match imul 1.8897259886 rAB m with
  | inl e => (inl e, m)
  | inr m =>
      (a ← read m tdA;
       let miuAnorm := Rabs (norm a) in
       b ← read m tdB;
       let miuBnorm := Rabs (norm b) in
       r ← read m rAB;
       let RABnorm := norm r in
       dab ← dot a b;
       dar ← dot a r;
       dbr ← dot b r;
       let num := dab - 3 * dar * dbr in
       let Vij := (miuAnorm * miuBnorm / const) * num / RABnorm ^ 3 in
       mret Vij, m)
  end.

(** What V_pdipole computes from the values it reads, once rAB has been
    scaled. *)
Definition pdipole_value (a b r : list R) : result R :=
  dab ← dot a b;
  dar ← dot a r;
  dbr ← dot b r;
  mret ((Rabs (norm a) * Rabs (norm b) / 1) * (dab - 3 * dar * dbr)
        / norm r ^ 3).

(** ** The other closed-form formulas, on arrays passed by reference

    V_multipole, V_CT and transfer_sym read their array arguments and
    update none: a call reads the arrays from the memory and leaves the
    memory as it found it. A mean-field object holds its orbital energies
    and occupations as arrays. *)

Record meanfield_ref : Type := MeanFieldRef {
  mo_energy_ref : view;
  mo_occ_ref : view;
  mo_coeff_val : ndarray
}.

(** The attributes of a mean-field object, read from the memory. *)
Definition load_mf (m : heap) (mf : meanfield_ref) : result meanfield :=
  e ← read m (mo_energy_ref mf);
  o ← read m (mo_occ_ref mf);
  mret (MeanField e o (mo_coeff_val mf)).

Definition V_multipole_mem (molA molB : mol) (chrgA chrgB : view) (m : heap)
    : result R * heap :=
  (qA ← read m chrgA;
   qB ← read m chrgB;
   V_multipole molA molB qA qB, m).

Definition V_CT_mem (te th : R) (rab : view) (mfAB : option meanfield_ref)
    (Egap : option R) (m : heap) : result (R * R * R) * heap :=
  (r ← read m rab;
   match Egap, mfAB with
   | Some _, Some mf => f ← load_mf m mf; V_CT te th r (Some f) Egap
   | _, _ => V_CT te th r None Egap
   end, m).

Definition transfer_sym_mem (mf : meanfield_ref) (m : heap)
    : result (R * R) * heap :=
  (f ← load_mf m mf; transfer_sym f, m).

(** * The module as a whole

    A call of any of the twelve functions of the module, run in a world
    made of the memory of the caller's arrays and of the file system. Each
    call goes through the embedding of its function; apart from the
    library routines, which are parameters and return values only, what a
    call does to the world is what that embedding does. *)




Section Calls.

Variable gto_M : string -> string -> Z -> Z -> result mol.
Variable ddCOSMO_RKS_run : mol -> string -> result meanfield.
Variable mol_add : mol -> mol -> mol.
Variable vhfopt : Type.
Variable VHFOpt_set_dm : mol -> ndarray -> vhfopt.
Variable block_diag : ndarray -> ndarray -> ndarray.
Variable get_jk :
  mol -> ndarray -> string -> list nat -> vhfopt -> string -> Z -> string -> ndarray.
Variable lowdin_pop : mol -> ndarray -> result (list R).
Variable ao_labels : mol -> list ao_label.
Variable intor_cross : string -> mol -> mol -> ndarray.
Variable transfer_CT_other :
  mol -> mol -> ndarray -> ndarray -> ndarray -> ndarray -> result (R * R).
Variable TDA_run : meanfield -> nat -> result tda.
Variable np_dot_other : ndarray -> ndarray -> result ndarray.
Variable T_other : ndarray -> ndarray.
Variable select_atoms : universe -> string -> list atom.
Variable center_of_mass : list atom -> point.
Variable array2string : point -> string -> string.
Variable array2string_str : list string -> string -> string.
Variable csv_reader : string -> list (list string).


End Calls.

(** ** Example arrays *)

(** A matrix of three rows, held in one buffer: two dipoles and a distance
    vector as its rows. *)
Definition mem_rows : heap :=
  <[1%positive := [1; 0; 0; 1; 1; 0; 1; 0; 2]]> ∅.

Definition row (k : nat) : view := View 1%positive (strided (3 * k) 1 3).

(** Three arrays of their own holding the unit vector along x, and views
    of the first: [x[:]] has the cells of [x]. *)
Definition mem_parallel : heap :=
  <[1%positive := [1; 0; 0]]> (<[2%positive := [1; 0; 0]]>
    (<[3%positive := [1; 0; 0]]> ∅)).

Definition whole (l : loc) (n : nat) : view := View l (strided 0 1 n).

(** The orbital energies and occupations of [mf_four_level] as arrays. *)
Definition mem_orbitals : heap :=
  <[1%positive := [-0.6; -0.5; 0.1; 0.3]]> (<[2%positive := [2; 2; 0; 0]]>
    (<[3%positive := [0; 0; 3]]> ∅)).

Definition mf_four_level_ref : meanfield_ref :=
  MeanFieldRef (whole 1%positive 4) (whole 2%positive 4)
               (NdArray [2%nat; 4%nat] [1; 0; 0; 1; 0; 1; 1; 0]).

(** The rows of [mem_rows] as three arrays of their own. *)
Definition mem_three : heap :=
  <[1%positive := [1; 0; 0]]> (<[2%positive := [1; 1; 0]]>
    (<[3%positive := [1; 0; 2]]> ∅)).

(** The same orbital energies and occupations, laid out one after the
    other in a single buffer. *)
Definition mem_orbitals_packed : heap :=
  <[5%positive := [-0.6; -0.5; 0.1; 0.3; 2; 2; 0; 0]]> ∅.

Definition mf_four_level_packed : meanfield_ref :=
  MeanFieldRef (View 5%positive (strided 0 1 4)) (View 5%positive (strided 4 1 4))
               (NdArray [0%nat; 0%nat] []).


(** * Properties *)

(** Unfolds the sequencing of [result] so that a call reads as nested
    matches on the results of its steps. *)
Ltac unfold_result :=
  unfold mbind, result_bind, mret, result_ret; cbv beta iota zeta.

(** ** The embedding on small inputs *)

Example replace_all_occurrences : replace "OP1" "O^1" "OP1 and OP1" = "O^1 and O^1".
Proof. reflexivity. Qed.

Example replace_leaves_other_text : replace "O5'" "O5*" "C5' 1.i2.i3." = "C5' 1.i2.i3.".
Proof. reflexivity. Qed.

Example replace_does_not_overlap : replace "aa" "b" "aaa" = "ba".
Proof. reflexivity. Qed.

Example slice_strips_both_ends : slice_1_m1 "'C 0,0,0'" = "C 0,0,0".
Proof. reflexivity. Qed.

Example slice_of_short_string : slice_1_m1 "x" = "".
Proof. reflexivity. Qed.

Example index_of_phosphorus : index_of "P" ["C1'"; "OP1"; "P"] = inr 2%nat.
Proof. reflexivity. Qed.

Example index_of_missing : index_of "P" ["C1'"; "OP1"] = inl IndexError.
Proof. reflexivity. Qed.

Example np_delete_three_rows :
  np_delete ["P"; "OP1"; "OP2"; "O5'"; "C1'"] [1; 2; 0]%nat = ["O5'"; "C1'"].
Proof. reflexivity. Qed.

Example coord_file_name : coord_file "/coord_files/MD_atoms" 12 3 = "/coord_files/MD_atoms123.csv".
Proof. reflexivity. Qed.

Example savetxt_one_line :
  savetxt ["a 1"; "b 2"] = "a 1;b 2" +:+ String "010"%char EmptyString.
Proof. reflexivity. Qed.

Example mask_select_length_mismatch : mask_select [1; 2] [true] = inl IndexError.
Proof. reflexivity. Qed.

Example mask_indices_of_mask : mask_indices 0 [true; false; true] = [0; 2]%nat.
Proof. reflexivity. Qed.

Example bdim_broadcasts_one : bdim 1 4 = inr 4%nat /\ bdim 3 4 = inl ValueError.
Proof. split; reflexivity. Qed.

Example dot_length_mismatch : dot [1; 2] [1] = inl ValueError.
Proof. reflexivity. Qed.

(** ** Sums and row-major tables *)

Lemma np_sum_app (xs ys : list R) : np_sum (xs ++ ys) = np_sum xs + np_sum ys.
Proof. induction xs as [|x xs IH]; simpl; [lra|]. rewrite IH. lra. Qed.

Lemma np_sum_flat_map {A : Type} (f : A -> list R) (l : list A) :
  np_sum (flat_map f l) = np_sum (map (fun x => np_sum (f x)) l).
Proof.
  induction l as [|x l IH]; simpl; [reflexivity|].
  rewrite np_sum_app, IH. reflexivity.
Qed.

Lemma np_sum_tabulate2 (r c : nat) (F : nat -> nat -> R) :
  np_sum (tabulate2 r c F) = big_sum r (fun i => big_sum c (F i)).
Proof. unfold tabulate2, big_sum. apply np_sum_flat_map. Qed.

Lemma big_sum_ext (n : nat) (f g : nat -> R) :
  (forall i : nat, (i < n)%nat -> f i = g i) -> big_sum n f = big_sum n g.
Proof.
  intros Hfg. unfold big_sum. f_equal. apply map_ext_in.
  intros i Hi. apply Hfg. apply in_seq in Hi. lia.
Qed.

(** Row [i], column [j] of a row-major listing whose rows all have length [c]. *)
Lemma nth_flat_map_rows {A : Type} (f : A -> list R) (l : list A)
    (c i j : nat) (d : A) :
  (forall x : A, length (f x) = c) -> (i < length l)%nat -> (j < c)%nat ->
  nth (i * c + j) (flat_map f l) 0 = nth j (f (nth i l d)) 0.
Proof.
  intros Hc. revert i. induction l as [|x l IH]; intros i Hi Hj; simpl in Hi.
  - lia.
  - simpl flat_map. destruct i as [|i].
    + simpl. apply app_nth1. rewrite Hc. exact Hj.
    + rewrite app_nth2 by (rewrite Hc; simpl; lia).
      rewrite Hc. replace (S i * c + j - c)%nat with (i * c + j)%nat by (simpl; lia).
      simpl nth. apply IH; [lia|exact Hj].
Qed.

Lemma nth_map_default {A : Type} (g : A -> R) (l : list A) (j : nat) (d : A) :
  (j < length l)%nat -> nth j (map g l) 0 = g (nth j l d).
Proof.
  intros Hj. rewrite (nth_indep _ 0 (g d)) by (rewrite length_map; exact Hj).
  apply map_nth.
Qed.

(** Within bounds, broadcasting reads the element asked for. *)
Lemma get2_in_bounds (r c : nat) (xs : list R) (i j : nat) :
  (i < r)%nat -> (j < c)%nat ->
  get2 (NdArray [r; c] xs) i j = nth (i * c + j) xs 0.
Proof.
  intros Hi Hj. unfold get2. simpl.
  repeat case_decide; subst; f_equal; lia.
Qed.

Lemma bdim_same (d : nat) : bdim d d = inr d.
Proof. unfold bdim. rewrite decide_True by reflexivity. reflexivity. Qed.

(** ** Norms, dot products and bounds *)

Lemma np_sum_squares (v : list R) : np_sum (map (fun x => x * x) v) = vdot v v.
Proof. induction v as [|x v IH]; simpl; [reflexivity|]. rewrite IH. reflexivity. Qed.

Lemma norm_vnorm (v : list R) : norm v = vnorm v.
Proof. unfold norm, vnorm. rewrite np_sum_squares. reflexivity. Qed.

Lemma Rabs_norm (v : list R) : Rabs (norm v) = norm v.
Proof. apply Rabs_pos_eq. unfold norm. apply sqrt_pos. Qed.

Lemma norm_unit_x : norm [1; 0; 0] = 1.
Proof.
  unfold norm. simpl.
  replace (1 * 1 + (0 * 0 + (0 * 0 + 0))) with 1 by lra. exact sqrt_1.
Qed.

Lemma dot_vdot (u v : list R) :
  length u = length v -> dot u v = inr (vdot u v).
Proof.
  revert v. induction u as [|x u IH]; intros [|y v] Hlen; simpl in *;
    try discriminate; [reflexivity|].
  rewrite IH by lia. reflexivity.
Qed.

Lemma vdot_self_nonneg (v : list R) : 0 <= vdot v v.
Proof. induction v as [|x v IH]; simpl; [lra|]. nra. Qed.

Lemma vdot_self_pos (v : list R) : Exists (fun x => x <> 0) v -> 0 < vdot v v.
Proof.
  induction 1 as [x v Hx|x v _ IH]; simpl.
  - pose proof (vdot_self_nonneg v). nra.
  - nra.
Qed.

Lemma vnorm_nonzero (v : list R) : Exists (fun x => x <> 0) v -> vnorm v <> 0.
Proof.
  intros Hv. unfold vnorm.
  pose proof (sqrt_lt_R0 _ (vdot_self_pos v Hv)). lra.
Qed.

Lemma vnorm_axis (x y z : R) : y = 0 -> z = 0 -> 0 <= x -> vnorm [x; y; z] = x.
Proof.
  intros -> -> Hx. unfold vnorm. simpl.
  replace (x * x + (0 * 0 + (0 * 0 + 0))) with (x * x) by lra.
  apply sqrt_square. exact Hx.
Qed.

Lemma scale_to_au (v : list R) : scale 1.8897259886 v = to_au v.
Proof. unfold scale, to_au. apply map_ext. intros x. apply Rmult_comm. Qed.

Lemma length_to_au (v : list R) : length (to_au v) = length v.
Proof. unfold to_au. apply length_map. Qed.

Lemma to_au_nonzero (v : list R) :
  Exists (fun x => x <> 0) v -> Exists (fun x => x <> 0) (to_au v).
Proof.
  unfold to_au. induction 1 as [x v Hx|x v _ IH]; simpl.
  - apply Exists_cons_hd. nra.
  - apply Exists_cons_tl. exact IH.
Qed.

Lemma square_is_one : 1 ^ 2 = 1.
Proof. lra. Qed.

Lemma div_lt_bound (n d k : R) : 0 < d -> n < k * d -> n / d < k.
Proof.
  intros Hd Hn. apply (Rmult_lt_reg_r d); [exact Hd|].
  unfold Rdiv. rewrite Rmult_assoc, Rinv_l by lra. lra.
Qed.

Lemma div_gt_bound (n d k : R) : 0 < d -> k * d < n -> k < n / d.
Proof.
  intros Hd Hn. apply (Rmult_lt_reg_r d); [exact Hd|].
  unfold Rdiv. rewrite Rmult_assoc, Rinv_l by lra. lra.
Qed.

Lemma eq0_zero : eq0 0 = true.
Proof. unfold eq0. destruct (Req_dec_T 0 0); [reflexivity|contradiction]. Qed.

Lemma eq0_nonzero (x : R) : x <> 0 -> eq0 x = false.
Proof. intros H. unfold eq0. destruct (Req_dec_T x 0); [contradiction|reflexivity]. Qed.

(** ** V_CT *)

Lemma mask_select_filter (f : R -> bool) (a o : list R) :
  length o = length a ->
  mask_select a (map f o) =
  inr (map fst (List.filter (fun eo => f (snd eo)) (combine a o))).
Proof.
  revert o. induction a as [|x a IH]; intros [|y o] Hlen; simpl in *;
    try discriminate; [reflexivity|].
  rewrite IH by lia. simpl. destruct (f y); reflexivity.
Qed.

Lemma find_hd_filter {A : Type} (p : A -> bool) (l : list A) :
  List.find p l = hd_error (List.filter p l).
Proof.
  induction l as [|x l IH]; simpl; [reflexivity|].
  destruct (p x); [reflexivity|exact IH].
Qed.

Lemma first_map_filter (p : R * R -> bool) (l : list (R * R)) (x : R) :
  fst <$> List.find p l = Some x ->
  first (map fst (List.filter p l)) = inr x.
Proof.
  rewrite find_hd_filter. destruct (List.filter p l) as [|y l']; simpl;
    intros H; inversion H; reflexivity.
Qed.

Lemma last_elt_map_filter (p : R * R -> bool) (l : list (R * R)) (x : R) :
  fst <$> List.find p (rev l) = Some x ->
  last_elt (map fst (List.filter p l)) = inr x.
Proof.
  unfold last_elt. rewrite <- map_rev, <- List.filter_rev, find_hd_filter.
  destruct (List.filter p (rev l)) as [|y l']; simpl;
    intros H; inversion H; reflexivity.
Qed.

Lemma V_binding_eq (rab : list R) :
  1 ^ 2 / (1 * 77.16600 * (norm rab * ang2au)) = V_binding rab.
Proof.
  unfold V_binding, distance_au, ang2au. rewrite square_is_one, Rmult_1_l.
  reflexivity.
Qed.

Lemma V_CT_without_gap (te th : R) (rab : list R) (mfAB : option meanfield) :
  let U := 0.7 * 0.0367493 in
  V_CT te th rab mfAB None =
  inr (-2 * te * th / (U - V_binding rab), U - V_binding rab, norm rab).
Proof.
  intros U. unfold V_CT, mbind, result_bind, mret, result_ret.
  cbv beta iota zeta. rewrite V_binding_eq. reflexivity.
Qed.

Lemma V_CT_with_gap (te th : R) (rab : list R) (mf : meanfield)
    (Egap EL EH : R) :
  length (mo_occ mf) = length (mo_energy mf) ->
  E_LUMO mf = Some EL ->
  E_HOMO mf = Some EH ->
  let U := (EL - EH) - Egap in
  V_CT te th rab (Some mf) (Some Egap) =
  inr (-2 * te * th / (U - V_binding rab), U - V_binding rab, norm rab).
Proof.
  intros Hlen HL HH U. unfold V_CT.
  rewrite !mask_select_filter by exact Hlen.
  unfold mbind, result_bind, mret, result_ret.
  rewrite (first_map_filter _ _ EL HL).
  rewrite (last_elt_map_filter _ _ EH HH).
  cbv beta iota zeta. rewrite V_binding_eq. reflexivity.
Qed.

(** C3. V_CT returns -2*te*th/(U - V) as its first component, where
    V = 1/(77.166 * R) for R the length of rab converted to atomic units;
    without Egap, U is the constant 0.7*0.0367493 and the mean-field
    argument is not read (it may be None); with Egap, U is
    (E_LUMO - E_HOMO) - Egap read from the mean-field orbital energies. *)
Theorem V_CT_formula (te th : R) (rab : list R) :
  (forall mfAB : option meanfield,
     let U := 0.7 * 0.0367493 in
     V_CT te th rab mfAB None =
     inr (-2 * te * th / (U - V_binding rab), U - V_binding rab, norm rab)) /\
  (forall (mf : meanfield) (Egap EL EH : R),
     length (mo_occ mf) = length (mo_energy mf) ->
     E_LUMO mf = Some EL ->
     E_HOMO mf = Some EH ->
     let U := (EL - EH) - Egap in
     V_CT te th rab (Some mf) (Some Egap) =
     inr (-2 * te * th / (U - V_binding rab), U - V_binding rab, norm rab)).
Proof.
  split.
  - apply V_CT_without_gap.
  - apply V_CT_with_gap.
Qed.

Lemma V_CT_formula_witness :
  V_CT 1 1 [1; 0; 0] (Some mf_two_level) (Some 0.2) =
  inr (-2 * 1 * 1 / ((0.1 - -0.5 - 0.2) - V_binding [1; 0; 0]),
       (0.1 - -0.5 - 0.2) - V_binding [1; 0; 0], norm [1; 0; 0]).
Proof.
  apply (proj2 (V_CT_formula 1 1 [1; 0; 0]) mf_two_level 0.2 0.1 (-0.5)).
  - reflexivity.
  - unfold E_LUMO. simpl. rewrite eq0_nonzero by lra. rewrite eq0_zero. reflexivity.
  - unfold E_HOMO, ne0. simpl. rewrite eq0_zero. simpl.
    rewrite eq0_nonzero by lra. reflexivity.
Defined.

(** C6, as stated, fails: for rab = (1, 0, 0) Angstrom the third component
    is 1, the length in Angstrom, and not 1.8897259886, the length in atomic
    units. *)
Lemma V_CT_distance_not_atomic_units :
  exists c d r : R,
    V_CT 1 1 [1; 0; 0] None None = inr (c, d, r) /\
    r = 1 /\ r <> distance_au [1; 0; 0].
Proof.
  eexists _, _, _. split; [exact (V_CT_without_gap 1 1 [1; 0; 0] None)|].
  split; [exact norm_unit_x|].
  unfold distance_au. rewrite norm_unit_x. lra.
Qed.

(** ** jk_ints_eff, V_Coulomb and do_dft *)

Section SolverProperties.

Variable gto_M : string -> string -> Z -> Z -> result mol.
Variable ddCOSMO_RKS_run : mol -> string -> result meanfield.
Variable mol_add : mol -> mol -> mol.
Variable vhfopt : Type.
Variable VHFOpt_set_dm : mol -> ndarray -> vhfopt.
Variable block_diag : ndarray -> ndarray -> ndarray.
Variable get_jk :
  mol -> ndarray -> string -> list nat -> vhfopt -> string -> Z -> string -> ndarray.

Let jk := jk_ints_eff mol_add vhfopt VHFOpt_set_dm block_diag get_jk.
Let VC := V_Coulomb mol_add vhfopt VHFOpt_set_dm block_diag get_jk.

Lemma einsum_not_assertion (x y : ndarray) :
  einsum_ia_ia x y <> inl AssertionError.
Proof.
  unfold einsum_ia_ia, bdim, mbind, result_bind, mret, result_ret, raise.
  destruct (shape x) as [|r1 [|c1 [|? ?]]]; try discriminate.
  destruct (shape y) as [|r2 [|c2 [|? ?]]]; try discriminate.
  repeat case_decide; discriminate.
Qed.

(** Without the exchange term the second component is the literal 0. *)
Lemma jk_ints_eff_no_exchange (molA molB : mol) (tdmA tdmB : ndarray) (cJ cK : R) :
  jk molA molB tdmA tdmB false = inr (cJ, cK) -> cK = 0.
Proof.
  unfold jk, jk_ints_eff, mbind, result_bind, mret, result_ret, raise.
  repeat case_decide; try discriminate.
  destruct (einsum_ia_ia _ tdmA); [discriminate|].
  intros Heq. inversion Heq. reflexivity.
Qed.

(** C1. V_Coulomb ignores calcK: whatever its value, the result is 2*cJ
    for (cJ, 0) the pair jk_ints_eff returns with calcK=False (and the
    exception of that call when it raises). *)
Theorem V_Coulomb_ignores_calcK (molA molB : mol) (tdmA tdmB : ndarray)
    (calcK : bool) :
  match jk molA molB tdmA tdmB false with
  | inl e => VC molA molB tdmA tdmB calcK = inl e
  | inr (cJ, cK) => cK = 0 /\ VC molA molB tdmA tdmB calcK = inr (2 * cJ)
  end.
Proof.
  destruct (jk molA molB tdmA tdmB false) as [e|[cJ cK]] eqn:Hjk.
  - unfold VC, V_Coulomb. fold jk. rewrite Hjk. reflexivity.
  - pose proof (jk_ints_eff_no_exchange _ _ _ _ _ _ Hjk) as ->.
    split; [reflexivity|].
    unfold VC, V_Coulomb. fold jk. rewrite Hjk.
    unfold mbind, result_bind, mret, result_ret. f_equal. lra.
Qed.

(** C5. jk_ints_eff raises AssertionError exactly when tdmA is not of
    shape (naoA, naoA) or tdmB is not of shape (naoB, naoB); with both
    shapes right the assertions pass. *)
Theorem jk_ints_eff_assertion (molA molB : mol) (tdmA tdmB : ndarray)
    (calcK : bool) :
  jk molA molB tdmA tdmB calcK = inl AssertionError <->
  ~ (shape tdmA = [nao molA; nao molA] /\ shape tdmB = [nao molB; nao molB]).
Proof.
  unfold jk, jk_ints_eff, mbind, result_bind, mret, result_ret, raise.
  repeat case_decide.
  - split; [|tauto]. intros Hjk. exfalso.
    match type of Hjk with
    | match ?u with inl _ => _ | inr _ => _ end = _ =>
        destruct u as [e|cJ] eqn:HJ
    end.
    + eapply einsum_not_assertion. rewrite HJ. congruence.
    + destruct calcK; [|discriminate].
      match type of Hjk with
      | match ?u with inl _ => _ | inr _ => _ end = _ =>
          destruct u as [e|cK] eqn:HK
      end; [|discriminate].
      eapply einsum_not_assertion. rewrite HK. congruence.
  - split; [tauto|reflexivity].
  - split; [tauto|reflexivity].
Qed.

(** C10. do_dft does not depend on its spin argument: the molecule is
    built with spin 0 whatever is passed. *)
Theorem do_dft_spin_independent (coord basis xc_f : string)
    (mol_ch verb s1 s2 : Z) :
  do_dft gto_M ddCOSMO_RKS_run coord basis xc_f mol_ch s1 verb =
  do_dft gto_M ddCOSMO_RKS_run coord basis xc_f mol_ch s2 verb /\
  do_dft gto_M ddCOSMO_RKS_run coord basis xc_f mol_ch s1 verb =
  do_dft (fun atom bas ch _ => gto_M atom bas ch 0%Z) ddCOSMO_RKS_run
         coord basis xc_f mol_ch s2 verb.
Proof. split; reflexivity. Qed.

End SolverProperties.

(** ** V_multipole *)

Lemma get2_outer (u v : list R) (i j : nat) :
  (i < length u)%nat -> (j < length v)%nat ->
  get2 (outer u v) i j = nth i u 0 * nth j v 0.
Proof.
  intros Hi Hj. unfold outer. rewrite get2_in_bounds by assumption.
  rewrite (nth_flat_map_rows _ u (length v) i j 0); try assumption.
  - apply nth_map_default. exact Hj.
  - intros x. apply length_map.
Qed.

Lemma get2_cdist (XA XB : list point) (i j : nat) :
  (i < length XA)%nat -> (j < length XB)%nat ->
  get2 (cdist XA XB) i j = euclidean (nth i XA origin) (nth j XB origin).
Proof.
  intros Hi Hj. unfold cdist. rewrite get2_in_bounds by assumption.
  rewrite (nth_flat_map_rows _ XA (length XB) i j origin); try assumption.
  - apply nth_map_default. exact Hj.
  - intros x. apply length_map.
Qed.

Lemma cdist_nonzero (XA XB : list point) :
  (forall a b : point, In a XA -> In b XB -> euclidean a b <> 0) ->
  Forall (fun d => d <> 0) (data (cdist XA XB)).
Proof.
  intros Hnz. apply Forall_forall. intros d Hd. simpl in Hd.
  apply list_elem_of_In in Hd.
  apply in_flat_map in Hd. destruct Hd as (a & Ha & Hd).
  apply in_map_iff in Hd. destruct Hd as (b & <- & Hb).
  apply Hnz; assumption.
Qed.

(** C2. With one charge per atom and no two atoms of A and B at the same
    place, V_multipole returns the double sum over atoms f of A and g of B
    of chrgA[f]*chrgB[g] / |rA[f] - rB[g]|, and no divisor is zero. *)
Theorem V_multipole_double_sum (molA molB : mol) (chrgA chrgB : list R) :
  length chrgA = length (atom_coords molA) ->
  length chrgB = length (atom_coords molB) ->
  (forall a b : point,
     In a (atom_coords molA) -> In b (atom_coords molB) -> euclidean a b <> 0) ->
  Forall (fun d => d <> 0) (data (cdist (atom_coords molA) (atom_coords molB))) /\
  V_multipole molA molB chrgA chrgB =
  inr (monopole_sum (atom_coords molA) (atom_coords molB) chrgA chrgB).
Proof.
  intros HA HB Hnz. split; [apply cdist_nonzero, Hnz|].
  unfold V_multipole, divide. simpl shape. rewrite HA, HB, !bdim_same.
  unfold_result. simpl data.
  f_equal. rewrite np_sum_tabulate2. unfold monopole_sum.
  apply big_sum_ext. intros i Hi. apply big_sum_ext. intros j Hj.
  rewrite get2_outer by lia. rewrite get2_cdist by assumption. reflexivity.
Qed.

Lemma V_multipole_double_sum_witness :
  Forall (fun d => d <> 0)
         (data (cdist (atom_coords mol_one) (atom_coords mol_pair))) /\
  V_multipole mol_one mol_pair [1] [1; -1] =
  inr (monopole_sum (atom_coords mol_one) (atom_coords mol_pair) [1] [1; -1]).
Proof.
  apply (V_multipole_double_sum mol_one mol_pair [1] [1; -1]).
  - reflexivity.
  - reflexivity.
  - intros a b [<-|[]] [<-|[<-|[]]]; unfold euclidean;
      apply Rgt_not_eq, sqrt_lt_R0; lra.
Defined.

(** ** V_pdipole: the value returned *)

Lemma point_dipole_expr (tdA tdB rAB : list R) :
  point_dipole tdA tdB rAB = dipole_expr tdA tdB (to_au rAB).
Proof. reflexivity. Qed.

Lemma lookup_after_scale (h : heap) (r l : loc) (vr vl : list R) :
  h !! l = Some vl ->
  (<[r := to_au vr]> h) !! l = Some (read_after r l vr vl).
Proof.
  intros Hl. unfold read_after. destruct (decide (l = r)) as [->|Hne].
  - apply lookup_insert_eq.
  - rewrite lookup_insert_ne by congruence. exact Hl.
Qed.

(** What a call computes, whatever arrays coincide: the dipoles are read
    after the array at rAB has been scaled. *)
Lemma V_pdipole_run (h : heap) (tdA tdB rAB : loc) (va vb vr : list R) :
  h !! tdA = Some va -> h !! tdB = Some vb -> h !! rAB = Some vr ->
  length va = length vr -> length vb = length vr ->
  V_pdipole tdA tdB rAB h =
  inr (dipole_expr (read_after rAB tdA vr va) (read_after rAB tdB vr vb) (to_au vr),
       <[rAB := to_au vr]> h).
Proof.
  intros Ha Hb Hr La Lb.
  assert (La' : length (read_after rAB tdA vr va) = length (to_au vr)).
  { unfold read_after. case_decide; [reflexivity|]. rewrite length_to_au. exact La. }
  assert (Lb' : length (read_after rAB tdB vr vb) = length (to_au vr)).
  { unfold read_after. case_decide; [reflexivity|]. rewrite length_to_au. exact Lb. }
  unfold V_pdipole, deref. rewrite Hr.
  unfold_result.
  rewrite scale_to_au.
  rewrite (lookup_after_scale h rAB tdA vr va Ha).
  rewrite (lookup_after_scale h rAB tdB vr vb Hb).
  rewrite lookup_insert_eq.
  rewrite (dot_vdot _ _ (eq_trans La' (eq_sym Lb'))).
  rewrite (dot_vdot _ _ La'), (dot_vdot _ _ Lb').
  rewrite !Rabs_norm, !norm_vnorm. unfold dipole_expr.
  f_equal. f_equal. unfold Rdiv. rewrite Rinv_1, Rmult_1_r. reflexivity.
Qed.

(** What V_pdipole does when the three arrays exist and the dipoles are not
    the array of the distance vector. *)
Lemma V_pdipole_distinct (h : heap) (tdA tdB rAB : loc) (va vb vr : list R) :
  h !! tdA = Some va -> h !! tdB = Some vb -> h !! rAB = Some vr ->
  tdA <> rAB -> tdB <> rAB ->
  length va = length vr -> length vb = length vr ->
  V_pdipole tdA tdB rAB h =
  inr (point_dipole va vb vr, <[rAB := to_au vr]> h).
Proof.
  intros Ha Hb Hr Har Hbr La Lb.
  rewrite (V_pdipole_run h tdA tdB rAB va vb vr) by assumption.
  unfold read_after. rewrite !decide_False by assumption. reflexivity.
Qed.

Lemma dipole_expr_axis (a a2 a3 b b2 b3 r r2 r3 : R) :
  a2 = 0 -> a3 = 0 -> b2 = 0 -> b3 = 0 -> r2 = 0 -> r3 = 0 ->
  0 <= a -> 0 <= b -> 0 <= r ->
  dipole_expr [a; a2; a3] [b; b2; b3] [r; r2; r3] =
  a * b * (a * b - 3 * (a * r) * (b * r)) / r ^ 3.
Proof.
  intros -> -> -> -> -> -> Ha Hb Hr. unfold dipole_expr.
  rewrite !vnorm_axis by (assumption || reflexivity). simpl vdot.
  f_equal. f_equal. lra.
Qed.

(** The value the formula of the specification gives for three unit
    vectors along x. *)
Lemma point_dipole_parallel :
  -2 < point_dipole [1; 0; 0] [1; 0; 0] [1; 0; 0] < -1.
Proof.
  rewrite point_dipole_expr. simpl to_au. rewrite dipole_expr_axis by lra.
  split.
  - apply div_gt_bound; lra.
  - apply div_lt_bound; lra.
Qed.

(** ** V_pdipole: the arrays it leaves *)

(** The heap a returning call leaves: the array at rAB scaled, nothing else. *)
Lemma V_pdipole_heap (tdA tdB rAB : loc) (h h' : heap) (v : R) :
  V_pdipole tdA tdB rAB h = inr (v, h') ->
  exists r0 : list R, h !! rAB = Some r0 /\ h' = <[rAB := to_au r0]> h.
Proof.
  unfold V_pdipole, deref. destruct (h !! rAB) as [r0|]; [|discriminate].
  unfold_result.
  rewrite scale_to_au. intros Hrun. exists r0. split; [reflexivity|].
  repeat match type of Hrun with
  | match ?u with _ => _ end = _ => destruct u; try discriminate
  end.
  inversion Hrun. reflexivity.
Qed.

(** ** What the formulas read *)

Lemma V_multipole_reads_coords (molA molA' molB molB' : mol) (chrgA chrgB : list R) :
  atom_coords molA = atom_coords molA' ->
  atom_coords molB = atom_coords molB' ->
  V_multipole molA molB chrgA chrgB = V_multipole molA' molB' chrgA chrgB.
Proof. intros HA HB. unfold V_multipole. rewrite HA, HB. reflexivity. Qed.

Lemma V_CT_reads_orbitals (te th : R) (rab : list R) (mf mf' : meanfield)
    (Egap : option R) :
  mo_energy mf = mo_energy mf' -> mo_occ mf = mo_occ mf' ->
  V_CT te th rab (Some mf) Egap = V_CT te th rab (Some mf') Egap.
Proof. intros HE HO. unfold V_CT. rewrite HE, HO. reflexivity. Qed.

Lemma transfer_sym_reads_orbitals (mf mf' : meanfield) :
  mo_energy mf = mo_energy mf' -> mo_occ mf = mo_occ mf' ->
  transfer_sym mf = transfer_sym mf'.
Proof. intros HE HO. unfold transfer_sym. rewrite HE, HO. reflexivity. Qed.

(** ** Process_MD *)

Lemma demo_Process_MD_returns :
  exists out : string * string * point,
    demo_Process_MD demo_universe "1" "2" demo_path ∅ =
    (inr out, <[demo_path +:+ "20.csv" := savetxt demo_cells]>
                (<[demo_path +:+ "10.csv" := savetxt demo_cells]> ∅)).
Proof. eexists. reflexivity. Qed.


(** * Further properties *)

(** ** Masks *)

Lemma mask_select_mismatch (f : R -> bool) (a o : list R) :
  length o <> length a -> mask_select a (map f o) = inl IndexError.
Proof.
  revert o. induction a as [|x a IH]; intros [|y o] Hlen; simpl in *;
    try reflexivity; try congruence.
  rewrite IH by congruence. reflexivity.
Qed.

Lemma length_mask_filter (f : R -> bool) (a o : list R) :
  length o = length a ->
  length (map fst (List.filter (fun eo => f (snd eo)) (combine a o))) =
  length (List.filter f o).
Proof.
  revert o. induction a as [|x a IH]; intros [|y o] Hlen; simpl in *;
    try discriminate; [reflexivity|].
  destruct (f y); simpl; rewrite IH by lia; reflexivity.
Qed.

Lemma mask_select_incl (a : list R) (m : list bool) (r : list R) :
  mask_select a m = inr r -> forall y : R, In y r -> In y a.
Proof.
  revert m r. induction a as [|x a IH]; intros [|b m] r; simpl; try discriminate.
  - intros Hr. inversion Hr. intros y [].
  - destruct (mask_select a m) as [e|r'] eqn:Hsel; simpl; [discriminate|].
    intros Hr. inversion Hr; subst. intros y Hy.
    destruct b; [destruct Hy as [->|Hy]|]; eauto.
Qed.

Lemma mask_select_sorted (a : list R) (m : list bool) (r : list R) :
  StronglySorted Rle a -> mask_select a m = inr r -> StronglySorted Rle r.
Proof.
  intros Hs. revert m r. induction Hs as [|x a Hs IH Hx]; intros [|b m] r; simpl;
    try discriminate.
  - intros Hr. inversion Hr. constructor.
  - destruct (mask_select a m) as [e|r'] eqn:Hsel; simpl; [discriminate|].
    intros Hr. inversion Hr; subst.
    pose proof (IH _ _ Hsel) as Hr'.
    destruct b; [|exact Hr'].
    constructor; [exact Hr'|].
    apply Forall_forall. intros y Hy. apply list_elem_of_In in Hy.
    rewrite Forall_forall in Hx. apply Hx. apply list_elem_of_In.
    eapply mask_select_incl; eauto.
Qed.

Lemma sorted_last_two (l : list R) (y x : R) :
  StronglySorted Rle (l ++ [y; x]) -> y <= x.
Proof.
  induction l as [|z l IH]; simpl; intros Hs.
  - inversion Hs as [|? ? _ Hall]; subst. inversion Hall; subst. assumption.
  - inversion Hs; subst. auto.
Qed.

(** ** transfer_sym *)

Lemma transfer_sym_masks (mf : meanfield) :
  length (mo_occ mf) = length (mo_energy mf) ->
  mask_select (mo_energy mf) (map eq0 (mo_occ mf)) = inr (virt_energies mf) /\
  mask_select (mo_energy mf) (map ne0 (mo_occ mf)) = inr (occ_energies mf) /\
  length (virt_energies mf) = n_virt mf /\
  length (occ_energies mf) = n_occ mf.
Proof.
  intros Hlen. unfold virt_energies, occ_energies, n_virt, n_occ.
  rewrite !mask_select_filter by exact Hlen.
  rewrite !length_mask_filter by exact Hlen. repeat split.
Qed.

(** X1. transfer_sym returns exactly when the occupation array is as long as
    the energy array and the dimer has at least two occupied and two virtual
    orbitals; any other call raises IndexError. *)
Theorem transfer_sym_returns_iff (mf : meanfield) :
  ((exists te th : R, transfer_sym mf = inr (te, th)) <->
   length (mo_occ mf) = length (mo_energy mf) /\
   (2 <= n_occ mf)%nat /\ (2 <= n_virt mf)%nat) /\
  (forall e : exn, transfer_sym mf = inl e -> e = IndexError).
Proof.
  destruct (decide (length (mo_occ mf) = length (mo_energy mf))) as [Hlen|Hlen].
  - destruct (transfer_sym_masks mf Hlen) as (Hv & Ho & Lv & Lo).
    unfold transfer_sym. rewrite Hv, Ho. unfold_result.
    rewrite <- Lv, <- Lo. unfold last_elt, last_but_one, first, second.
    rewrite <- (length_rev (occ_energies mf)).
    destruct (rev (occ_energies mf)) as [|x [|y t]];
      destruct (virt_energies mf) as [|x' [|y' t']]; simpl;
      (split; [split; [intros (te & th & Heq); try discriminate Heq;
                       repeat split; try assumption; lia
                      |intros (_ & H1 & H2); try lia; eauto]
              |intros e Heq; inversion Heq; reflexivity]).
  - unfold transfer_sym. rewrite (mask_select_mismatch eq0) by exact Hlen.
    split; [split|].
    + intros (te & th & Heq). discriminate Heq.
    + intros (Heq & _). contradiction.
    + intros e Heq. inversion Heq. reflexivity.
Qed.

(** X2. When the orbital energies are in ascending order, the integrals
    transfer_sym returns have fixed signs: te <= 0 and th >= 0. *)
Theorem transfer_sym_signs (mf : meanfield) (te th : R) :
  StronglySorted Rle (mo_energy mf) ->
  transfer_sym mf = inr (te, th) ->
  te <= 0 /\ 0 <= th.
Proof.
  intros Hs. unfold transfer_sym.
  destruct (mask_select (mo_energy mf) (map eq0 (mo_occ mf))) as [e|Ev] eqn:Hv;
    [discriminate|].
  destruct (mask_select (mo_energy mf) (map ne0 (mo_occ mf))) as [e|Eo] eqn:Ho;
    [discriminate|].
  pose proof (mask_select_sorted _ _ _ Hs Hv) as HsV.
  pose proof (mask_select_sorted _ _ _ Hs Ho) as HsO.
  unfold_result. unfold last_elt, last_but_one, first, second.
  destruct (rev Eo) as [|EH [|EHm1 t]] eqn:Hrev; try discriminate.
  destruct Ev as [|EL [|ELp1 t']]; try discriminate.
  simpl. intros Heq. inversion Heq; subst. clear Heq.
  assert (HEo : Eo = rev t ++ [EHm1; EH]).
  { rewrite <- (rev_involutive Eo), Hrev. simpl. rewrite <- app_assoc. reflexivity. }
  rewrite HEo in HsO. apply sorted_last_two in HsO.
  inversion HsV as [|? ? _ Hall]; subst. inversion Hall; subst.
  split; lra.
Qed.

Lemma transfer_sym_signs_witness :
  transfer_sym mf_four_level = inr (-0.1, 0.05) /\ -0.1 <= 0 /\ 0 <= 0.05.
Proof.
  assert (Hs : StronglySorted Rle (mo_energy mf_four_level)).
  { simpl. repeat (constructor; [|repeat (constructor; try lra)]). constructor. }
  assert (Hrun : transfer_sym mf_four_level = inr (-0.1, 0.05)).
  { unfold transfer_sym, mf_four_level, ne0. simpl.
    rewrite !eq0_zero, !(eq0_nonzero 2) by lra. simpl.
    unfold_result. f_equal. f_equal; lra. }
  split; [exact Hrun|].
  exact (transfer_sym_signs mf_four_level (-0.1) 0.05 Hs Hrun).
Defined.

(** ** V_CT *)

Lemma norm_opp (v : list R) : norm (map Ropp v) = norm v.
Proof.
  unfold norm. f_equal. rewrite map_map. f_equal. apply map_ext.
  intros x. lra.
Qed.

(** X3. V_CT returns whenever Egap is None. With an Egap it raises
    AttributeError when no mean-field object is given, and otherwise returns
    exactly when the occupation array is as long as the energy array and
    there is at least one virtual and one occupied orbital, raising
    IndexError if not. *)
Theorem V_CT_returns_iff (te th : R) (rab : list R)
    (mfAB : option meanfield) (Egap : option R) :
  match Egap, mfAB with
  | None, _ => exists v : R * R * R, V_CT te th rab mfAB Egap = inr v
  | Some _, None => V_CT te th rab mfAB Egap = inl AttributeError
  | Some _, Some mf =>
      ((exists v : R * R * R, V_CT te th rab mfAB Egap = inr v) <->
       length (mo_occ mf) = length (mo_energy mf) /\
       (1 <= n_virt mf)%nat /\ (1 <= n_occ mf)%nat) /\
      (forall e : exn, V_CT te th rab mfAB Egap = inl e -> e = IndexError)
  end.
Proof.
  destruct Egap as [Eopt|]; [destruct mfAB as [mf|]|].
  - destruct (decide (length (mo_occ mf) = length (mo_energy mf))) as [Hlen|Hlen].
    + destruct (transfer_sym_masks mf Hlen) as (Hv & Ho & Lv & Lo).
      unfold V_CT. rewrite Hv, Ho. unfold_result.
      rewrite <- Lv, <- Lo. unfold last_elt, first.
      rewrite <- (length_rev (occ_energies mf)).
      destruct (virt_energies mf) as [|EL t]; simpl;
        [|destruct (rev (occ_energies mf)) as [|EH t']; simpl].
      * split; [split|].
        -- intros (v & Heq). discriminate Heq.
        -- intros (_ & H1 & _). lia.
        -- intros e Heq. inversion Heq. reflexivity.
      * split; [split|].
        -- intros (v & Heq). discriminate Heq.
        -- intros (_ & _ & H1). lia.
        -- intros e Heq. inversion Heq. reflexivity.
      * split; [split|].
        -- intros _. repeat split; [assumption|lia|lia].
        -- intros _. eauto.
        -- intros e Heq. discriminate Heq.
    + unfold V_CT. rewrite (mask_select_mismatch eq0) by exact Hlen.
      split; [split|].
      * intros (v & Heq). discriminate Heq.
      * intros (Heq & _). contradiction.
      * intros e Heq. inversion Heq. reflexivity.
  - reflexivity.
  - eexists. apply V_CT_without_gap.
Qed.

(** X4. The result of V_CT does not change when te and th are exchanged,
    nor when the distance vector rab is reversed. *)
Theorem V_CT_symmetries (te th : R) (rab : list R)
    (mfAB : option meanfield) (Egap : option R) :
  V_CT th te rab mfAB Egap = V_CT te th rab mfAB Egap /\
  V_CT te th (map Ropp rab) mfAB Egap = V_CT te th rab mfAB Egap.
Proof.
  split.
  - unfold V_CT.
    match goal with
    | |- mbind _ ?u = _ => destruct u as [e|U]; [reflexivity|]
    end.
    unfold_result. f_equal. f_equal. f_equal. unfold Rdiv. ring.
  - unfold V_CT. rewrite norm_opp. reflexivity.
Qed.

(** ** V_multipole *)

Lemma bdim_returns_iff (d1 d2 : nat) :
  ((exists r : nat, bdim d1 d2 = inr r) <-> broadcastable d1 d2) /\
  (forall e : exn, bdim d1 d2 = inl e -> e = ValueError).
Proof.
  unfold bdim, broadcastable, mret, result_ret, raise.
  repeat case_decide; (split; [split|]);
    try (intros _; eauto; tauto);
    try (intros (r & Hr); discriminate Hr);
    try (intros e He; inversion He; reflexivity);
    try (intros e He; discriminate He);
    try (intros [?|[?|?]]; congruence).
Qed.

Lemma bdim_one_l (d : nat) : bdim 1 d = inr d.
Proof.
  unfold bdim. case_decide; [subst; reflexivity|].
  rewrite decide_True by reflexivity. reflexivity.
Qed.

(** V_multipole with one charge per atom, as a lemma to build on. *)
Lemma V_multipole_matched (molA molB : mol) (chrgA chrgB : list R) :
  length chrgA = length (atom_coords molA) ->
  length chrgB = length (atom_coords molB) ->
  V_multipole molA molB chrgA chrgB =
  inr (monopole_sum (atom_coords molA) (atom_coords molB) chrgA chrgB).
Proof.
  intros HA HB.
  unfold V_multipole, divide. simpl shape. rewrite HA, HB, !bdim_same.
  unfold_result. simpl data.
  f_equal. rewrite np_sum_tabulate2. unfold monopole_sum.
  apply big_sum_ext. intros i Hi. apply big_sum_ext. intros j Hj.
  rewrite get2_outer by lia. rewrite get2_cdist by assumption. reflexivity.
Qed.

(** X5. V_multipole returns exactly when the number of charges of each
    molecule can be broadcast against its number of atoms (they are equal,
    or one of the two is 1); any other call raises ValueError. *)
Theorem V_multipole_returns_iff (molA molB : mol) (chrgA chrgB : list R) :
  ((exists v : R, V_multipole molA molB chrgA chrgB = inr v) <->
   broadcastable (length chrgA) (length (atom_coords molA)) /\
   broadcastable (length chrgB) (length (atom_coords molB))) /\
  (forall e : exn, V_multipole molA molB chrgA chrgB = inl e -> e = ValueError).
Proof.
  unfold V_multipole, divide. simpl shape.
  destruct (bdim_returns_iff (length chrgA) (length (atom_coords molA)))
    as (HA & EA).
  destruct (bdim_returns_iff (length chrgB) (length (atom_coords molB)))
    as (HB & EB).
  destruct (bdim (length chrgA) (length (atom_coords molA))) as [e|r];
    [|destruct (bdim (length chrgB) (length (atom_coords molB))) as [e|c]];
    unfold_result.
  - split; [split|].
    + intros (v & Hv). discriminate Hv.
    + intros (H1 & _). apply HA in H1. destruct H1 as (r & Hr). discriminate Hr.
    + intros e' He. inversion He; subst. apply EA. reflexivity.
  - split; [split|].
    + intros (v & Hv). discriminate Hv.
    + intros (_ & H1). apply HB in H1. destruct H1 as (c & Hc). discriminate Hc.
    + intros e' He. inversion He; subst. apply EB. reflexivity.
  - split; [split|].
    + intros _. split; [apply HA|apply HB]; eauto.
    + intros _. eauto.
    + intros e' He. discriminate He.
Qed.

Lemma get2_outer_single (q : R) (v : list R) (i j : nat) :
  (j < length v)%nat -> get2 (outer [q] v) i j = q * nth j v 0.
Proof.
  intros Hj. unfold get2, outer. cbn [shape data length flat_map app].
  rewrite decide_True by reflexivity.
  rewrite app_nil_r. simpl Nat.mul. simpl Nat.add.
  case_decide as Hc.
  - assert (j = 0%nat) by lia. subst j.
    apply (nth_map_default (fun y => q * y) v 0%nat 0). lia.
  - apply (nth_map_default (fun y => q * y) v j 0). exact Hj.
Qed.

Lemma nth_repeat_lt (q : R) (n i : nat) : (i < n)%nat -> nth i (repeat q n) 0 = q.
Proof.
  revert i. induction n as [|n IH]; intros i Hi; [lia|].
  destruct i as [|i]; simpl; [reflexivity|]. apply IH. lia.
Qed.

(** X6. A single charge for molecule A is not refused: numpy broadcasts it,
    and V_multipole returns the value it would return with that charge on
    every atom of A. *)
Theorem V_multipole_single_charge (molA molB : mol) (q : R) (chrgB : list R) :
  length chrgB = length (atom_coords molB) ->
  V_multipole molA molB [q] chrgB =
  V_multipole molA molB (repeat q (length (atom_coords molA))) chrgB.
Proof.
  intros HB.
  rewrite (V_multipole_matched molA molB (repeat q _) chrgB)
    by (try apply repeat_length; exact HB).
  unfold V_multipole, divide. simpl shape.
  cbv beta iota. rewrite bdim_one_l, HB, bdim_same.
  unfold_result. simpl data.
  f_equal. rewrite np_sum_tabulate2. unfold monopole_sum.
  apply big_sum_ext. intros i Hi. apply big_sum_ext. intros j Hj.
  rewrite get2_outer_single by lia. rewrite get2_cdist by assumption.
  rewrite nth_repeat_lt by exact Hi. reflexivity.
Qed.

Lemma V_multipole_single_charge_witness :
  V_multipole mol_pair mol_one [2] [1] =
  V_multipole mol_pair mol_one (repeat 2 (length (atom_coords mol_pair))) [1].
Proof.
  apply (V_multipole_single_charge mol_pair mol_one 2 [1]). reflexivity.
Defined.

Lemma big_sum_S (n : nat) (f : nat -> R) : big_sum (S n) f = big_sum n f + f n.
Proof.
  unfold big_sum. rewrite seq_S, map_app, np_sum_app. simpl. lra.
Qed.

Lemma big_sum_plus (n : nat) (f g : nat -> R) :
  big_sum n (fun i => f i + g i) = big_sum n f + big_sum n g.
Proof.
  induction n as [|n IH]; [unfold big_sum; simpl; lra|].
  rewrite !big_sum_S, IH. lra.
Qed.

Lemma big_sum_exchange (n m : nat) (F : nat -> nat -> R) :
  big_sum n (fun i => big_sum m (fun j => F i j)) =
  big_sum m (fun j => big_sum n (fun i => F i j)).
Proof.
  induction n as [|n IH].
  - change (big_sum 0 (fun i => big_sum m (fun j => F i j))) with 0.
    induction m as [|m IHm]; [reflexivity|].
    rewrite big_sum_S, <- IHm. change (big_sum 0 (fun i => F i m)) with 0. lra.
  - rewrite big_sum_S, IH, <- big_sum_plus.
    apply big_sum_ext. intros j _. rewrite big_sum_S. reflexivity.
Qed.

Lemma euclidean_sym (a b : point) : euclidean a b = euclidean b a.
Proof.
  destruct a as [[ax ay] az], b as [[bx by_] bz]. unfold euclidean.
  f_equal. ring.
Qed.

Lemma euclidean_padd (t a b : point) :
  euclidean (padd t a) (padd t b) = euclidean a b.
Proof.
  destruct t as [[tx ty] tz], a as [[ax ay] az], b as [[bx by_] bz].
  unfold euclidean, padd. f_equal. ring.
Qed.

(** X7. With one charge per atom, V_multipole is symmetric under the
    exchange of the two molecules together with their charges. *)
Theorem V_multipole_exchange (molA molB : mol) (chrgA chrgB : list R) :
  length chrgA = length (atom_coords molA) ->
  length chrgB = length (atom_coords molB) ->
  V_multipole molB molA chrgB chrgA = V_multipole molA molB chrgA chrgB.
Proof.
  intros HA HB. rewrite !V_multipole_matched by assumption.
  f_equal. unfold monopole_sum. rewrite big_sum_exchange.
  apply big_sum_ext. intros i _. apply big_sum_ext. intros j _.
  rewrite euclidean_sym. unfold Rdiv. ring.
Qed.

Lemma V_multipole_exchange_witness :
  V_multipole mol_pair mol_one [1; -1] [1] =
  V_multipole mol_one mol_pair [1] [1; -1].
Proof.
  apply (V_multipole_exchange mol_one mol_pair [1] [1; -1]); reflexivity.
Defined.

Lemma cdist_translate (t : point) (XA XB : list point) :
  cdist (map (padd t) XA) (map (padd t) XB) = cdist XA XB.
Proof.
  unfold cdist. rewrite !length_map. f_equal.
  induction XA as [|a XA IH]; simpl; [reflexivity|].
  rewrite IH. f_equal. rewrite map_map. apply map_ext.
  intros b. apply euclidean_padd.
Qed.

(** X8. V_multipole depends on the relative position of the two molecules
    only: moving both by the same vector changes neither the value nor the
    exception. *)
Theorem V_multipole_translation (t : point) (molA molB : mol)
    (chrgA chrgB : list R) :
  V_multipole (translate t molA) (translate t molB) chrgA chrgB =
  V_multipole molA molB chrgA chrgB.
Proof.
  unfold V_multipole, translate. simpl atom_coords.
  rewrite cdist_translate. reflexivity.
Qed.

(** ** V_pdipole *)

(** X9. A second call of V_pdipole on the same arrays does not repeat the
    first: rAB was left scaled, so the second call evaluates the formula at
    1.8897259886 times the distance of the first and leaves rAB scaled
    twice. *)
Theorem V_pdipole_twice (h h1 : heap) (tdA tdB rAB : loc)
    (va vb vr : list R) (v1 : R) :
  h !! tdA = Some va -> h !! tdB = Some vb -> h !! rAB = Some vr ->
  tdA <> rAB -> tdB <> rAB ->
  length va = length vr -> length vb = length vr ->
  V_pdipole tdA tdB rAB h = inr (v1, h1) ->
  v1 = point_dipole va vb vr /\
  V_pdipole tdA tdB rAB h1 =
  inr (point_dipole va vb (to_au vr), <[rAB := to_au (to_au vr)]> h).
Proof.
  intros Ha Hb Hr Har Hbr La Lb Hrun.
  rewrite (V_pdipole_distinct h tdA tdB rAB va vb vr) in Hrun by assumption.
  inversion Hrun; subst. split; [reflexivity|].
  rewrite (V_pdipole_distinct _ tdA tdB rAB va vb (to_au vr));
    try (rewrite lookup_insert_ne by congruence; assumption);
    try (rewrite length_to_au; assumption);
    try assumption.
  - rewrite insert_insert_eq. reflexivity.
  - apply lookup_insert_eq.
Qed.

Lemma V_pdipole_twice_witness :
  point_dipole [1; 0; 0] [1; 0; 0] [1; 0; 0] =
  point_dipole [1; 0; 0] [1; 0; 0] [1; 0; 0] /\
  V_pdipole 1%positive 2%positive 3%positive
            (<[3%positive := to_au [1; 0; 0]]> heap_parallel) =
  inr (point_dipole [1; 0; 0] [1; 0; 0] (to_au [1; 0; 0]),
       <[3%positive := to_au (to_au [1; 0; 0])]> heap_parallel).
Proof.
  apply (V_pdipole_twice heap_parallel _ 1%positive 2%positive 3%positive
           [1; 0; 0] [1; 0; 0] [1; 0; 0]);
    try reflexivity; try discriminate.
  apply V_pdipole_distinct; try reflexivity; discriminate.
Defined.

Lemma dot_comm (u v : list R) : dot u v = dot v u.
Proof.
  revert v. induction u as [|x u IH]; intros [|y v]; simpl; try reflexivity.
  rewrite IH. destruct (dot v u); unfold_result; [reflexivity|].
  f_equal. lra.
Qed.

Lemma dot_error (u v : list R) (e : exn) : dot u v = inl e -> e = ValueError.
Proof.
  revert v. induction u as [|x u IH]; intros [|y v]; simpl; try discriminate;
    try (intros He; inversion He; reflexivity).
  destruct (dot u v) as [e'|s] eqn:Hd; unfold_result; [|discriminate].
  intros He. inversion He; subst. eapply IH. exact Hd.
Qed.

(** X10. The value (or exception) of V_pdipole is the same when the two
    dipoles are exchanged, whatever arrays are passed. *)
Theorem V_pdipole_exchange (tdA tdB rAB : loc) (h : heap) :
  returned (V_pdipole tdB tdA rAB h) = returned (V_pdipole tdA tdB rAB h).
Proof.
  unfold V_pdipole, deref. destruct (h !! rAB) as [r0|]; [|reflexivity].
  unfold_result.
  destruct (_ !! tdA) as [a|], (_ !! tdB) as [b|]; try reflexivity.
  rewrite lookup_insert_eq. rewrite (dot_comm b a).
  destruct (dot a b) as [e|dab]; [reflexivity|].
  destruct (dot a _) as [e|dar] eqn:Hda, (dot b _) as [e'|dbr] eqn:Hdb;
    try reflexivity.
  - apply dot_error in Hda, Hdb. subst. reflexivity.
  - simpl. f_equal. unfold Rdiv. ring.
Qed.

Lemma scale_opp (k : R) (v : list R) : scale k (map Ropp v) = map Ropp (scale k v).
Proof. unfold scale. rewrite !map_map. apply map_ext. intros x. lra. Qed.

Lemma dot_opp_r (u v : list R) : dot u (map Ropp v) = result_map Ropp (dot u v).
Proof.
  revert v. induction u as [|x u IH]; intros [|y v]; simpl; try reflexivity.
  - f_equal. lra.
  - rewrite IH. destruct (dot u v); unfold_result; simpl; [reflexivity|].
    f_equal. lra.
Qed.

(** X11. Reversing the distance vector changes nothing: with rAB holding -r
    instead of r, in an array that is neither dipole's, V_pdipole returns
    the same value or raises the same exception. *)
Theorem V_pdipole_reversal (h : heap) (tdA tdB rAB : loc) (vr : list R) :
  h !! rAB = Some vr -> tdA <> rAB -> tdB <> rAB ->
  returned (V_pdipole tdA tdB rAB (<[rAB := map Ropp vr]> h)) =
  returned (V_pdipole tdA tdB rAB h).
Proof.
  intros Hr Har Hbr. unfold V_pdipole, deref.
  rewrite lookup_insert_eq, Hr. unfold_result.
  rewrite !lookup_insert_eq, !insert_insert_eq.
  rewrite !(lookup_insert_ne _ rAB tdA), !(lookup_insert_ne _ rAB tdB) by congruence.
  destruct (h !! tdA) as [a|]; [|reflexivity].
  destruct (h !! tdB) as [b|]; [|reflexivity].
  destruct (dot a b) as [e|dab]; [reflexivity|].
  rewrite scale_opp, !dot_opp_r, norm_opp.
  destruct (dot a _) as [e|dar]; [reflexivity|].
  destruct (dot b _) as [e|dbr]; [reflexivity|].
  simpl. f_equal. unfold Rdiv. ring.
Qed.

Lemma V_pdipole_reversal_witness :
  returned (V_pdipole 1%positive 2%positive 3%positive
              (<[3%positive := map Ropp [0; 0; 2]]> heap_three)) =
  returned (V_pdipole 1%positive 2%positive 3%positive heap_three).
Proof.
  apply (V_pdipole_reversal heap_three 1%positive 2%positive 3%positive [0; 0; 2]);
    [reflexivity|discriminate|discriminate].
Defined.

Lemma dot_mismatch (u v : list R) :
  length u <> length v -> dot u v = inl ValueError.
Proof.
  revert v. induction u as [|x u IH]; intros [|y v] Hlen; simpl in *;
    try reflexivity; try congruence.
  rewrite IH by congruence. reflexivity.
Qed.

(** The two embeddings of V_pdipole agree. *)
Lemma V_pdipole_outcome_agrees (tdA tdB rAB : loc) (h : heap) :
  V_pdipole tdA tdB rAB h =
  match V_pdipole_outcome tdA tdB rAB h with
  | (inl e, _) => inl e
  | (inr v, h') => inr (v, h')
  end.
Proof.
  unfold V_pdipole, V_pdipole_outcome.
  destruct (deref h rAB) as [e|r0]; [reflexivity|]. unfold_result.
  repeat match goal with
  | |- context [match ?u with inl _ => _ | inr _ => _ end] =>
      destruct u; try reflexivity
  end.
Qed.

(** X12. V_pdipole is not exception-safe: when it raises ValueError because
    the three vectors do not have one dimension, the caller's rAB array has
    already been scaled. *)
Theorem V_pdipole_raises_after_update (h : heap) (tdA tdB rAB : loc)
    (va vb vr : list R) :
  h !! tdA = Some va -> h !! tdB = Some vb -> h !! rAB = Some vr ->
  tdA <> rAB -> tdB <> rAB ->
  ~ (length va = length vr /\ length vb = length vr) ->
  V_pdipole tdA tdB rAB h = inl ValueError /\
  V_pdipole_outcome tdA tdB rAB h = (inl ValueError, <[rAB := to_au vr]> h).
Proof.
  intros Ha Hb Hr Har Hbr Hlen.
  assert (Hout : V_pdipole_outcome tdA tdB rAB h =
                 (inl ValueError, <[rAB := to_au vr]> h)).
  { unfold V_pdipole_outcome, deref. rewrite Hr. unfold_result.
    rewrite scale_to_au.
    rewrite !(lookup_insert_ne _ rAB tdA), !(lookup_insert_ne _ rAB tdB) by congruence.
    rewrite Ha, Hb, lookup_insert_eq. f_equal.
    destruct (decide (length va = length vb)) as [Eab|Nab].
    - rewrite (dot_vdot va vb Eab).
      rewrite (dot_mismatch va (to_au vr)); [reflexivity|].
      rewrite length_to_au. intros Ear. apply Hlen. split; congruence.
    - rewrite (dot_mismatch va vb Nab). reflexivity. }
  split; [|exact Hout].
  rewrite V_pdipole_outcome_agrees, Hout. reflexivity.
Qed.

Lemma V_pdipole_raises_after_update_witness :
  V_pdipole 1%positive 2%positive 3%positive heap_mismatch = inl ValueError /\
  V_pdipole_outcome 1%positive 2%positive 3%positive heap_mismatch =
  (inl ValueError, <[3%positive := to_au [0; 0; 2]]> heap_mismatch).
Proof.
  apply (V_pdipole_raises_after_update heap_mismatch 1%positive 2%positive
           3%positive [1; 0; 0] [0; 1] [0; 0; 2]);
    try reflexivity; try discriminate.
  intros [_ Hlen]. discriminate Hlen.
Defined.

Lemma np_sum_squares_to_au (v : list R) :
  np_sum (map (fun x => x * x) (to_au v)) =
  (1.8897259886 * 1.8897259886) * np_sum (map (fun x => x * x) v).
Proof.
  unfold to_au. induction v as [|x v IH]; simpl; [lra|]. rewrite IH. lra.
Qed.

Lemma norm_to_au (v : list R) : norm (to_au v) = distance_au v.
Proof.
  unfold norm, distance_au. rewrite np_sum_squares_to_au.
  rewrite sqrt_mult_alt by lra. rewrite sqrt_square by lra. apply Rmult_comm.
Qed.

(** X13. V_CT called with the array a call of V_pdipole has scaled converts
    the distance a second time: the length it returns as third component is
    already the one in atomic units, and the distance entering the Coulomb
    term is 1.8897259886 times that. *)
Theorem V_CT_after_V_pdipole (h h' : heap) (tdA tdB rAB : loc)
    (vr : list R) (v te th : R) (mfAB : option meanfield) :
  h !! rAB = Some vr ->
  V_pdipole tdA tdB rAB h = inr (v, h') ->
  exists vr' : list R,
    h' !! rAB = Some vr' /\
    distance_au vr' = 1.8897259886 * distance_au vr /\
    let U := 0.7 * 0.0367493 in
    V_CT te th vr' mfAB None =
    inr (-2 * te * th / (U - V_binding vr'), U - V_binding vr', distance_au vr).
Proof.
  intros Hr Hrun. destruct (V_pdipole_heap _ _ _ _ _ _ Hrun) as (r0 & Hr0 & ->).
  rewrite Hr in Hr0. inversion Hr0; subst r0.
  exists (to_au vr). split; [apply lookup_insert_eq|]. split.
  - unfold distance_au at 1. rewrite norm_to_au. apply Rmult_comm.
  - intros U. rewrite V_CT_without_gap. rewrite norm_to_au. reflexivity.
Qed.

Lemma V_CT_after_V_pdipole_witness :
  exists vr' : list R,
    (<[3%positive := to_au [0; 0; 2]]> heap_three) !! 3%positive = Some vr' /\
    distance_au vr' = 1.8897259886 * distance_au [0; 0; 2] /\
    let U := 0.7 * 0.0367493 in
    V_CT 1 1 vr' None None =
    inr (-2 * 1 * 1 / (U - V_binding vr'), U - V_binding vr',
         distance_au [0; 0; 2]).
Proof.
  apply (V_CT_after_V_pdipole heap_three _ 1%positive 2%positive 3%positive
           [0; 0; 2] (point_dipole [1; 0; 0] [0; 1; 0] [0; 0; 2]) 1 1 None).
  - reflexivity.
  - apply V_pdipole_distinct; try reflexivity; discriminate.
Defined.

(** ** td_chrg_lowdin *)

Lemma np_sum_insert (chg : list R) (a : nat) (c x : R) :
  chg !! a = Some c -> np_sum (<[a := x]> chg) = np_sum chg + (x - c).
Proof.
  revert a. induction chg as [|y chg IH]; intros [|a]; simpl; try discriminate.
  - intros Heq. inversion Heq; subst. lra.
  - intros Heq. rewrite (IH a Heq). lra.
Qed.

Lemma add_populations_spec (labels : list ao_label) :
  forall (i : nat) (pop chg chg' : list R),
    add_populations i labels pop chg = inr chg' ->
    length chg' = length chg /\
    (length labels <= length pop - i)%nat /\
    Forall (fun s => (ao_atom s < length chg)%nat) labels /\
    np_sum chg' = np_sum chg + np_sum (take (length labels) (drop i pop)) /\
    (forall a : nat, nth a chg' 0 = nth a chg 0 + atom_population a i labels pop).
Proof.
  induction labels as [|s labels IH]; intros i pop chg chg'; simpl.
  - intros Heq. inversion Heq; subst.
    split; [reflexivity|]. split; [lia|]. split; [constructor|].
    split; [simpl; lra|]. intros a. lra.
  - destruct (chg !! ao_atom s) as [c|] eqn:Hc; [|discriminate].
    destruct (pop !! i) as [p|] eqn:Hp; [|discriminate].
    intros Hrun. destruct (IH _ _ _ _ Hrun) as (Hlen & Hb & Hall & Hsum & Hat).
    rewrite length_insert in Hlen, Hall.
    pose proof (lookup_lt_Some _ _ _ Hc) as Hlt.
    pose proof (lookup_lt_Some _ _ _ Hp) as Hlti.
    split; [exact Hlen|]. split; [lia|]. split; [constructor; assumption|].
    split.
    + rewrite Hsum, (np_sum_insert chg _ c _ Hc).
      rewrite (drop_S pop p i Hp). simpl. lra.
    + intros a. rewrite Hat.
      rewrite (nth_lookup_Some pop i 0 p Hp).
      destruct (decide (ao_atom s = a)) as [<-|Hne].
      * rewrite (nth_lookup_Some (<[ao_atom s := c + p]> chg) (ao_atom s) 0 (c + p))
          by (apply list_lookup_insert_eq; exact Hlt).
        rewrite (nth_lookup_Some chg (ao_atom s) 0 c Hc). lra.
      * assert (Hnth : nth a (<[ao_atom s := c + p]> chg) 0 = nth a chg 0).
        { rewrite !nth_lookup. rewrite list_lookup_insert_ne by exact Hne.
          reflexivity. }
        rewrite Hnth. lra.
Qed.

Lemma add_populations_returns (labels : list ao_label) :
  forall (i : nat) (pop chg : list R),
    Forall (fun s => (ao_atom s < length chg)%nat) labels ->
    (length labels <= length pop - i)%nat ->
    exists chg' : list R, add_populations i labels pop chg = inr chg'.
Proof.
  induction labels as [|s labels IH]; intros i pop chg Hall Hlen; simpl.
  - eauto.
  - inversion Hall as [|? ? Hs Hall']; subst. simpl in Hlen.
    destruct (lookup_lt_is_Some_2 chg (ao_atom s) Hs) as [c Hc].
    destruct (lookup_lt_is_Some_2 pop i ltac:(lia)) as [p Hp].
    rewrite Hc, Hp. apply IH.
    + rewrite length_insert. exact Hall'.
    + lia.
Qed.

Lemma add_populations_error (labels : list ao_label) :
  forall (i : nat) (pop chg : list R) (e : exn),
    add_populations i labels pop chg = inl e -> e = IndexError.
Proof.
  induction labels as [|s labels IH]; intros i pop chg e; simpl.
  - discriminate.
  - destruct (chg !! ao_atom s) as [c|];
      [destruct (pop !! i) as [p|]|];
      try (intros He; inversion He; reflexivity).
    apply IH.
Qed.

Section LowdinProperties.

Variable lowdin_pop : mol -> ndarray -> result (list R).
Variable ao_labels : mol -> list ao_label.

Let lowdin := td_chrg_lowdin lowdin_pop ao_labels.

Lemma td_chrg_lowdin_loop (m : mol) (dm : ndarray) (pop chg : list R) :
  lowdin m dm = inr (pop, chg) ->
  lowdin_pop m dm = inr pop /\
  add_populations 0 (ao_labels m) pop (repeat 0 (natm m)) = inr chg.
Proof.
  unfold lowdin, td_chrg_lowdin.
  destruct (lowdin_pop m dm) as [e|pop']; [discriminate|]. unfold_result.
  destruct (add_populations _ _ _ _) as [e|chg'] eqn:Hloop; [discriminate|].
  intros Heq. inversion Heq; subst. split; [reflexivity|exact Hloop].
Qed.

Lemma np_sum_repeat_zero (n : nat) : np_sum (repeat 0 n) = 0.
Proof. induction n as [|n IH]; simpl; [reflexivity|]. rewrite IH. lra. Qed.

(** X14. Lowdin charges conserve the population: when td_chrg_lowdin
    returns, there is one charge per atom and the charges add up to the sum
    of the populations of the labelled orbitals, which is the whole
    population when every orbital has a label. *)
Theorem td_chrg_lowdin_conserves (m : mol) (dm : ndarray) (pop chg : list R) :
  lowdin m dm = inr (pop, chg) ->
  length chg = natm m /\
  np_sum chg = np_sum (take (length (ao_labels m)) pop) /\
  (length (ao_labels m) = length pop -> np_sum chg = np_sum pop).
Proof.
  intros Hrun. destruct (td_chrg_lowdin_loop _ _ _ _ Hrun) as (_ & Hloop).
  destruct (add_populations_spec _ _ _ _ _ Hloop) as (Hlen & _ & _ & Hsum & _).
  rewrite repeat_length in Hlen. rewrite np_sum_repeat_zero in Hsum.
  rewrite drop_0 in Hsum.
  split; [exact Hlen|]. split; [lra|].
  intros Hall. rewrite Hall, firstn_all in Hsum. lra.
Qed.

(** X15. The charge td_chrg_lowdin gives an atom is the sum of the
    populations of the orbitals labelled with that atom. *)
Theorem td_chrg_lowdin_per_atom (m : mol) (dm : ndarray) (pop chg : list R)
    (a : nat) :
  lowdin m dm = inr (pop, chg) ->
  nth a chg 0 = atom_population a 0 (ao_labels m) pop.
Proof.
  intros Hrun. destruct (td_chrg_lowdin_loop _ _ _ _ Hrun) as (_ & Hloop).
  destruct (add_populations_spec _ _ _ _ _ Hloop) as (_ & _ & _ & _ & Hat).
  rewrite Hat. rewrite nth_repeat. lra.
Qed.

(** X16. Once the populations are computed, td_chrg_lowdin returns exactly
    when every label names an atom of the molecule and every label has a
    population; otherwise it raises IndexError. *)
Theorem td_chrg_lowdin_returns_iff (m : mol) (dm : ndarray) (pop : list R) :
  lowdin_pop m dm = inr pop ->
  ((exists chg : list R, lowdin m dm = inr (pop, chg)) <->
   Forall (fun s => (ao_atom s < natm m)%nat) (ao_labels m) /\
   (length (ao_labels m) <= length pop)%nat) /\
  (forall e : exn, lowdin m dm = inl e -> e = IndexError).
Proof.
  intros Hpop. split; [split|].
  - intros (chg & Hrun). destruct (td_chrg_lowdin_loop _ _ _ _ Hrun) as (_ & Hloop).
    destruct (add_populations_spec _ _ _ _ _ Hloop) as (_ & Hb & Hall & _).
    rewrite repeat_length in Hall. split; [exact Hall|lia].
  - intros (Hall & Hb).
    destruct (add_populations_returns (ao_labels m) 0 pop (repeat 0 (natm m)))
      as (chg & Hloop).
    + rewrite repeat_length. exact Hall.
    + lia.
    + exists chg. unfold lowdin, td_chrg_lowdin. rewrite Hpop. unfold_result.
      rewrite Hloop. reflexivity.
  - intros e. unfold lowdin, td_chrg_lowdin. rewrite Hpop. unfold_result.
    destruct (add_populations _ _ _ _) as [e'|chg] eqn:Hloop; [|discriminate].
    intros He. inversion He; subst. eapply add_populations_error. exact Hloop.
Qed.

End LowdinProperties.

Lemma water_lowdin_run :
  td_chrg_lowdin water_pop (fun _ => water_labels) water (NdArray [7; 7]%nat []) =
  inr (water_populations,
       [0 + 2 + 1.8 + 1.1 + 1.5 + 2; 0 + 0.8; 0 + 0.8]).
Proof. reflexivity. Qed.

Lemma td_chrg_lowdin_conserves_witness :
  length [0 + 2 + 1.8 + 1.1 + 1.5 + 2; 0 + 0.8; 0 + 0.8] = natm water /\
  np_sum [0 + 2 + 1.8 + 1.1 + 1.5 + 2; 0 + 0.8; 0 + 0.8] =
  np_sum (take (length water_labels) water_populations) /\
  (length water_labels = length water_populations ->
   np_sum [0 + 2 + 1.8 + 1.1 + 1.5 + 2; 0 + 0.8; 0 + 0.8] =
   np_sum water_populations).
Proof.
  exact (td_chrg_lowdin_conserves water_pop (fun _ => water_labels) water
           (NdArray [7; 7]%nat []) _ _ water_lowdin_run).
Defined.

Lemma td_chrg_lowdin_per_atom_witness :
  nth 0 [0 + 2 + 1.8 + 1.1 + 1.5 + 2; 0 + 0.8; 0 + 0.8] 0 =
  atom_population 0 0 water_labels water_populations.
Proof.
  exact (td_chrg_lowdin_per_atom water_pop (fun _ => water_labels) water
           (NdArray [7; 7]%nat []) _ _ 0%nat water_lowdin_run).
Defined.

Lemma td_chrg_lowdin_returns_iff_witness :
  ((exists chg : list R,
      td_chrg_lowdin water_pop (fun _ => water_labels) water
                     (NdArray [7; 7]%nat []) =
      inr (water_populations, chg)) <->
   Forall (fun s => (ao_atom s < natm water)%nat) water_labels /\
   (length water_labels <= length water_populations)%nat) /\
  (forall e : exn,
     td_chrg_lowdin water_pop (fun _ => water_labels) water
                    (NdArray [7; 7]%nat []) = inl e -> e = IndexError).
Proof.
  exact (td_chrg_lowdin_returns_iff water_pop (fun _ => water_labels) water
           (NdArray [7; 7]%nat []) _ eq_refl).
Defined.

(** ** jk_ints_eff, do_dft and dimer_dft *)

Lemma length_mask_indices (f : R -> bool) (o : list R) (i : nat) :
  length (mask_indices i (map f o)) = length (List.filter f o).
Proof.
  revert i. induction o as [|x o IH]; intros i; simpl; [reflexivity|].
  destruct (f x); simpl; rewrite IH; reflexivity.
Qed.

Lemma occ_virt_partition (mf : meanfield) :
  (n_occ mf + n_virt mf = length (mo_occ mf))%nat.
Proof.
  unfold n_occ, n_virt. rewrite Nat.add_comm.
  apply (List.filter_length eq0 (mo_occ mf)).
Qed.

Lemma select_columns_shape (m x : ndarray) (mask : list bool) :
  select_columns m mask = inr x ->
  exists r : nat,
    shape m = [r; length mask] /\
    shape x = [r; length (mask_indices 0 mask)].
Proof.
  unfold select_columns.
  destruct (shape m) as [|r [|c [|? ?]]]; try discriminate.
  case_decide as Hc; [|discriminate].
  intros Heq. inversion Heq; subst. exists r. split; reflexivity.
Qed.

Lemma orbitals_shapes (mf : meanfield) (occ virt : ndarray) :
  select_columns (mo_coeff mf) (map ne0 (mo_occ mf)) = inr occ ->
  select_columns (mo_coeff mf) (map eq0 (mo_occ mf)) = inr virt ->
  exists r : nat,
    shape (mo_coeff mf) = [r; length (mo_occ mf)] /\
    shape occ = [r; n_occ mf] /\
    shape virt = [r; n_virt mf] /\
    (n_occ mf + n_virt mf = length (mo_occ mf))%nat.
Proof.
  intros Ho Hv.
  destruct (select_columns_shape _ _ _ Ho) as (r & Hm & Hocc).
  destruct (select_columns_shape _ _ _ Hv) as (r' & Hm' & Hvirt).
  rewrite length_map in Hm, Hm'. rewrite length_mask_indices in Hocc, Hvirt.
  rewrite Hm in Hm'. inversion Hm'; subst r'.
  exists r. repeat split; try assumption. apply occ_virt_partition.
Qed.

Section MoreSolverProperties.

Variable gto_M : string -> string -> Z -> Z -> result mol.
Variable ddCOSMO_RKS_run : mol -> string -> result meanfield.
Variable mol_add : mol -> mol -> mol.
Variable vhfopt : Type.
Variable VHFOpt_set_dm : mol -> ndarray -> vhfopt.
Variable block_diag : ndarray -> ndarray -> ndarray.
Variable get_jk :
  mol -> ndarray -> string -> list nat -> vhfopt -> string -> Z -> string -> ndarray.

Let jk' := jk_ints_eff mol_add vhfopt VHFOpt_set_dm block_diag get_jk.
Let VC' := V_Coulomb mol_add vhfopt VHFOpt_set_dm block_diag get_jk.

(** X17. Asking jk_ints_eff for the exchange term does not change the
    Coulomb term: when a call with calcK=True returns (cJ, cK), the call
    with calcK=False returns (cJ, 0), and V_Coulomb returns 2*cJ whatever
    calcK it is given: the exchange term never enters it. *)
Theorem jk_ints_eff_coulomb_term (molA molB : mol) (tdmA tdmB : ndarray)
    (cJ cK : R) :
  jk' molA molB tdmA tdmB true = inr (cJ, cK) ->
  jk' molA molB tdmA tdmB false = inr (cJ, 0) /\
  forall calcK : bool, VC' molA molB tdmA tdmB calcK = inr (2 * cJ).
Proof.
  unfold VC', V_Coulomb. fold jk'. unfold jk', jk_ints_eff.
  repeat case_decide; try discriminate.
  unfold_result.
  match goal with
  | |- match ?u with inl _ => _ | inr _ => _ end = _ -> _ =>
      destruct u as [e|cJ']; [discriminate|]
  end.
  match goal with
  | |- match ?u with inl _ => _ | inr _ => _ end = _ -> _ =>
      destruct u as [e|cK']; [discriminate|]
  end.
  intros Heq. inversion Heq; subst.
  split; [reflexivity|]. intros _. f_equal. lra.
Qed.

Lemma mask_indices_count (f : R -> bool) (o : list R) (s j : nat) :
  (j < length o)%nat -> f (nth j o 0) = true ->
  nth (count_before f o j) (mask_indices s (map f o)) 0%nat = (s + j)%nat.
Proof.
  unfold count_before. revert s j.
  induction o as [|x o IH]; intros s j Hj Hf; simpl in Hj; [lia|].
  destruct j as [|j]; simpl in *.
  - rewrite Hf. simpl. lia.
  - destruct (f x); simpl; rewrite IH by (assumption || lia); lia.
Qed.

Lemma count_before_lt (f : R -> bool) (o : list R) (j : nat) :
  (j < length o)%nat -> f (nth j o 0) = true ->
  (count_before f o j < length (List.filter f o))%nat.
Proof.
  unfold count_before. revert j.
  induction o as [|x o IH]; intros j Hj Hf; simpl in Hj; [lia|].
  destruct j as [|j]; simpl in *.
  - rewrite Hf. simpl. lia.
  - specialize (IH j ltac:(lia) Hf). destruct (f x); simpl; lia.
Qed.

Lemma select_columns_item (m x : ndarray) (mask : list bool) (r i k : nat) :
  select_columns m mask = inr x ->
  shape m = [r; length mask] ->
  (i < r)%nat -> (k < length (mask_indices 0 mask))%nat ->
  item2 x i k = item2 m i (nth k (mask_indices 0 mask) 0%nat).
Proof.
  unfold select_columns. intros Hsel Hm Hi Hk. rewrite Hm in Hsel.
  rewrite decide_True in Hsel by reflexivity.
  inversion Hsel; subst x. clear Hsel.
  unfold item2. rewrite Hm. cbn [shape data].
  rewrite (nth_flat_map_rows _ _ (length (mask_indices 0 mask)) i k 0%nat).
  - rewrite seq_nth by exact Hi. simpl Nat.add.
    rewrite (nth_map_default
               (fun j => nth (i * length mask + j)%nat (data m) 0)
               (mask_indices 0 mask) k 0%nat Hk).
    reflexivity.
  - intros y. apply length_map.
  - rewrite length_seq. exact Hi.
  - exact Hk.
Qed.

(** Every column of the coefficient matrix is found in occ or in virt,
    according to its occupation and in the order of the orbitals. *)
Lemma orbitals_columns (mf : meanfield) (occ virt : ndarray) :
  select_columns (mo_coeff mf) (map ne0 (mo_occ mf)) = inr occ ->
  select_columns (mo_coeff mf) (map eq0 (mo_occ mf)) = inr virt ->
  exists r : nat,
    shape (mo_coeff mf) = [r; length (mo_occ mf)] /\
    shape occ = [r; n_occ mf] /\
    shape virt = [r; n_virt mf] /\
    (n_occ mf + n_virt mf = length (mo_occ mf))%nat /\
    forall i j : nat, (i < r)%nat -> (j < length (mo_occ mf))%nat ->
      if eq0 (nth j (mo_occ mf) 0)
      then item2 virt i (count_before eq0 (mo_occ mf) j) =
           item2 (mo_coeff mf) i j
      else item2 occ i (count_before ne0 (mo_occ mf) j) =
           item2 (mo_coeff mf) i j.
Proof.
  intros Ho Hv.
  destruct (orbitals_shapes mf occ virt Ho Hv) as (r & Hm & Hso & Hsv & Hn).
  exists r. repeat (split; [assumption|]).
  intros i j Hi Hj.
  destruct (eq0 (nth j (mo_occ mf) 0)) eqn:Hz.
  - rewrite (select_columns_item _ _ _ r i _ Hv);
      rewrite ?length_map, ?length_mask_indices;
      try assumption; [|apply count_before_lt; assumption].
    rewrite mask_indices_count by assumption. reflexivity.
  - assert (Hnz : ne0 (nth j (mo_occ mf) 0) = true)
      by (unfold ne0; rewrite Hz; reflexivity).
    rewrite (select_columns_item _ _ _ r i _ Ho);
      rewrite ?length_map, ?length_mask_indices;
      try assumption; [|apply count_before_lt; assumption].
    rewrite mask_indices_count by assumption. reflexivity.
Qed.

(** X18. The orbitals do_dft returns split the coefficient matrix by
    columns: occ and virt have the rows of the matrix, one column per
    occupied and per virtual orbital, and column j of the matrix is the
    next column of virt when orbital j has occupation 0 and the next
    column of occ when it has not, in the order of the orbitals. *)
Theorem do_dft_orbitals (coord basis xc_f : string) (mol_ch spin verb : Z)
    (m : mol) (mf : meanfield) (occ virt : ndarray) :
  do_dft gto_M ddCOSMO_RKS_run coord basis xc_f mol_ch spin verb =
  inr (m, mf, occ, virt) ->
  exists r : nat,
    shape (mo_coeff mf) = [r; length (mo_occ mf)] /\
    shape occ = [r; n_occ mf] /\
    shape virt = [r; n_virt mf] /\
    (n_occ mf + n_virt mf = length (mo_occ mf))%nat /\
    forall i j : nat, (i < r)%nat -> (j < length (mo_occ mf))%nat ->
      if eq0 (nth j (mo_occ mf) 0)
      then item2 virt i (count_before eq0 (mo_occ mf) j) =
           item2 (mo_coeff mf) i j
      else item2 occ i (count_before ne0 (mo_occ mf) j) =
           item2 (mo_coeff mf) i j.
Proof.
  unfold do_dft.
  destruct (gto_M _ _ _ _) as [e|m0]; [discriminate|]. unfold_result.
  destruct (ddCOSMO_RKS_run _ _) as [e|mf0]; [discriminate|].
  destruct (select_columns _ (map ne0 _)) as [e|occ0] eqn:Ho; [discriminate|].
  destruct (select_columns _ (map eq0 _)) as [e|virt0] eqn:Hv; [discriminate|].
  intros Heq. inversion Heq; subst. eapply orbitals_columns; eassumption.
Qed.

(** X19. The orbitals dimer_dft returns split the coefficient matrix of
    the dimer by columns: occ and virt have the rows of the matrix, one
    column per occupied and per virtual orbital, and column j of the matrix
    is the next column of virt when orbital j has occupation 0 and the next
    column of occ when it has not, in the order of the orbitals. *)
Theorem dimer_dft_orbitals (molA molB : mol) (xc_f : string) (verb : Z)
    (m : mol) (mf : meanfield) (occ virt : ndarray) :
  dimer_dft ddCOSMO_RKS_run mol_add molA molB xc_f verb =
  inr (m, mf, occ, virt) ->
  exists r : nat,
    shape (mo_coeff mf) = [r; length (mo_occ mf)] /\
    shape occ = [r; n_occ mf] /\
    shape virt = [r; n_virt mf] /\
    (n_occ mf + n_virt mf = length (mo_occ mf))%nat /\
    forall i j : nat, (i < r)%nat -> (j < length (mo_occ mf))%nat ->
      if eq0 (nth j (mo_occ mf) 0)
      then item2 virt i (count_before eq0 (mo_occ mf) j) =
           item2 (mo_coeff mf) i j
      else item2 occ i (count_before ne0 (mo_occ mf) j) =
           item2 (mo_coeff mf) i j.
Proof.
  unfold dimer_dft.
  destruct (ddCOSMO_RKS_run _ _) as [e|mf0] eqn:Hrun; [discriminate|].
  unfold_result.
  destruct (select_columns _ (map ne0 _)) as [e|occ0] eqn:Ho; [discriminate|].
  destruct (select_columns _ (map eq0 _)) as [e|virt0] eqn:Hv; [discriminate|].
  intros Heq. inversion Heq; subst. eapply orbitals_columns; eassumption.
Qed.

End MoreSolverProperties.

Lemma jk_ints_eff_coulomb_term_witness :
  exists cJ : R,
    demo_jk_ints_eff mol_one mol_one (NdArray [1; 1]%nat [2])
                     (NdArray [1; 1]%nat [3]) false = inr (cJ, 0) /\
    forall calcK : bool,
      demo_V_Coulomb mol_one mol_one (NdArray [1; 1]%nat [2])
                     (NdArray [1; 1]%nat [3]) calcK = inr (2 * cJ).
Proof.
  eexists.
  eapply (jk_ints_eff_coulomb_term demo_mol_add unit (fun _ _ => tt)
            demo_block_diag demo_get_jk mol_one mol_one).
  reflexivity.
Defined.

Lemma demo_orbitals :
  select_columns (mo_coeff mf_four_level) (map ne0 (mo_occ mf_four_level)) =
  inr (NdArray [2; 2]%nat [1; 0; 0; 1]) /\
  select_columns (mo_coeff mf_four_level) (map eq0 (mo_occ mf_four_level)) =
  inr (NdArray [2; 2]%nat [0; 1; 1; 0]).
Proof.
  unfold mf_four_level, ne0. simpl.
  rewrite !eq0_zero, !(eq0_nonzero 2) by lra. split; reflexivity.
Qed.

Lemma demo_do_dft_returns :
  do_dft demo_gto_M demo_run "[H 0 0 0; H 0 0 1]" "sto-3g" "b3lyp" 0 0 3 =
  inr (Mol [(0, 0, 0); (0, 0, 1)] 2 2 3, mf_four_level,
       NdArray [2; 2]%nat [1; 0; 0; 1], NdArray [2; 2]%nat [0; 1; 1; 0]).
Proof.
  unfold do_dft. destruct demo_orbitals as [Ho Hv].
  change (demo_gto_M _ _ _ _) with
    (inr (Mol [(0, 0, 0); (0, 0, 1)] 2 2 0) : result mol).
  unfold demo_run. unfold_result. rewrite Ho, Hv. reflexivity.
Qed.

Lemma do_dft_orbitals_witness :
  exists r : nat,
    shape (mo_coeff mf_four_level) = [r; length (mo_occ mf_four_level)] /\
    shape (NdArray [2; 2]%nat [1; 0; 0; 1]) = [r; n_occ mf_four_level] /\
    shape (NdArray [2; 2]%nat [0; 1; 1; 0]) = [r; n_virt mf_four_level] /\
    (n_occ mf_four_level + n_virt mf_four_level =
     length (mo_occ mf_four_level))%nat /\
    forall i j : nat, (i < r)%nat -> (j < length (mo_occ mf_four_level))%nat ->
      if eq0 (nth j (mo_occ mf_four_level) 0)
      then item2 (NdArray [2; 2]%nat [0; 1; 1; 0]) i
                 (count_before eq0 (mo_occ mf_four_level) j) =
           item2 (mo_coeff mf_four_level) i j
      else item2 (NdArray [2; 2]%nat [1; 0; 0; 1]) i
                 (count_before ne0 (mo_occ mf_four_level) j) =
           item2 (mo_coeff mf_four_level) i j.
Proof.
  exact (do_dft_orbitals demo_gto_M demo_run _ _ _ _ _ _ _ _ _ _
           demo_do_dft_returns).
Defined.

Lemma demo_dimer_dft_returns :
  dimer_dft demo_run demo_mol_add mol_one mol_one "b3lyp" 3 =
  inr (Mol [(0, 0, 0); (0, 0, 0)] 2 2 3, mf_four_level,
       NdArray [2; 2]%nat [1; 0; 0; 1], NdArray [2; 2]%nat [0; 1; 1; 0]).
Proof.
  unfold dimer_dft. destruct demo_orbitals as [Ho Hv].
  unfold demo_run. unfold_result. rewrite Ho, Hv. reflexivity.
Qed.

Lemma dimer_dft_orbitals_witness :
  exists r : nat,
    shape (mo_coeff mf_four_level) = [r; length (mo_occ mf_four_level)] /\
    shape (NdArray [2; 2]%nat [1; 0; 0; 1]) = [r; n_occ mf_four_level] /\
    shape (NdArray [2; 2]%nat [0; 1; 1; 0]) = [r; n_virt mf_four_level] /\
    (n_occ mf_four_level + n_virt mf_four_level =
     length (mo_occ mf_four_level))%nat /\
    forall i j : nat, (i < r)%nat -> (j < length (mo_occ mf_four_level))%nat ->
      if eq0 (nth j (mo_occ mf_four_level) 0)
      then item2 (NdArray [2; 2]%nat [0; 1; 1; 0]) i
                 (count_before eq0 (mo_occ mf_four_level) j) =
           item2 (mo_coeff mf_four_level) i j
      else item2 (NdArray [2; 2]%nat [1; 0; 0; 1]) i
                 (count_before ne0 (mo_occ mf_four_level) j) =
           item2 (mo_coeff mf_four_level) i j.
Proof.
  exact (dimer_dft_orbitals demo_run demo_mol_add _ _ _ _ _ _ _ _
           demo_dimer_dft_returns).
Defined.

(** ** Process_MD *)

Lemma index_of_returns_iff (x : string) (names : list string) :
  ((exists i : nat, index_of x names = inr i) <-> In x names) /\
  (forall e : exn, index_of x names = inl e -> e = IndexError).
Proof.
  induction names as [|n names [IH IHe]]; simpl.
  - split; [split|].
    + intros (i & Hi). discriminate Hi.
    + intros [].
    + intros e He. inversion He. reflexivity.
  - case_decide as Hn.
    + split; [split|]; [intros _; left; exact Hn|intros _; eauto|].
      intros e He. discriminate He.
    + unfold_result. destruct (index_of x names) as [e|i].
      * split; [split|].
        -- intros (i & Hi). discriminate Hi.
        -- intros [Heq|Hin]; [contradiction|]. apply IH in Hin.
           destruct Hin as (i & Hi). discriminate Hi.
        -- intros e' He. inversion He; subst. apply IHe. reflexivity.
      * split; [split|].
        -- intros _. right. apply IH. eauto.
        -- intros _. eauto.
        -- intros e He. discriminate He.
Qed.

Lemma index_of_lookup (x : string) (names : list string) (i : nat) :
  index_of x names = inr i -> names !! i = Some x.
Proof.
  revert i. induction names as [|n names IH]; intros i; simpl; [discriminate|].
  case_decide as Hn.
  - intros Hi. inversion Hi; subst. reflexivity.
  - unfold_result. destruct (index_of x names) as [e|j]; [discriminate|].
    intros Hi. inversion Hi; subst. simpl. apply IH. reflexivity.
Qed.

Lemma count_from_split (idx : list nat) (i : nat) :
  NoDup idx ->
  length (List.filter (fun j => i <=? j)%nat idx) =
  (length (List.filter (fun j => S i <=? j)%nat idx)
   + (if existsb (Nat.eqb i) idx then 1 else 0))%nat.
Proof.
  induction 1 as [|x l Hx Hl IH]; cbn [List.filter existsb]; [reflexivity|].
  assert (Hex : i = x -> existsb (Nat.eqb i) l = false).
  { intros ->. destruct (existsb (Nat.eqb x) l) eqn:Hex; [|reflexivity].
    apply existsb_exists in Hex. destruct Hex as (y & Hy & Heq).
    apply Nat.eqb_eq in Heq. subst y. apply list_elem_of_In in Hy.
    contradiction. }
  destruct (Nat.eqb_spec i x) as [Heq|Hne]; cbn [orb].
  - rewrite (Hex Heq) in IH.
    destruct (Nat.leb_spec i x), (Nat.leb_spec (S i) x); cbn [length]; lia.
  - destruct (existsb (Nat.eqb i) l);
      destruct (Nat.leb_spec i x), (Nat.leb_spec (S i) x); cbn [length]; lia.
Qed.

Lemma length_delete_from {A : Type} (idx : list nat) (a : list A) (i : nat) :
  NoDup idx ->
  Forall (fun j => j < i + length a)%nat idx ->
  (length (delete_from i idx a)
   + length (List.filter (fun j => i <=? j)%nat idx) = length a)%nat.
Proof.
  intros Hnd. revert i. induction a as [|x a IH]; intros i Hall; simpl.
  - induction Hall as [|j l Hj Hall IHl]; simpl; [reflexivity|].
    simpl in Hj. destruct (Nat.leb_spec i j); [lia|].
    apply IHl. eapply NoDup_cons_1_2. exact Hnd.
  - rewrite (count_from_split idx i Hnd).
    assert (Hall' : Forall (fun j => j < S i + length a)%nat idx).
    { eapply Forall_impl; [exact Hall|]. simpl. intros j Hj. lia. }
    specialize (IH (S i) Hall').
    destruct (existsb (Nat.eqb i) idx); cbn [length]; lia.
Qed.

Lemma length_np_delete {A : Type} (idx : list nat) (a : list A) :
  NoDup idx ->
  Forall (fun j => j < length a)%nat idx ->
  (length (np_delete a idx) + length idx = length a)%nat.
Proof.
  intros Hnd Hall. unfold np_delete.
  rewrite <- (length_delete_from idx a 0 Hnd Hall). f_equal.
  clear. induction idx as [|j idx IH]; simpl; [reflexivity|]. rewrite IH.
  reflexivity.
Qed.

Lemma text_rows_returns_iff (a2s : point -> string -> string)
    (names : list string) (xyz : list point) :
  ((exists t : list string, text_rows a2s names xyz = inr t) <->
   (length names <= length xyz)%nat) /\
  (forall e : exn, text_rows a2s names xyz = inl e -> e = IndexError).
Proof.
  revert xyz. induction names as [|n names IH]; intros xyz; simpl.
  - split; [split|]; [intros _; lia|intros _; eauto|].
    intros e He. discriminate He.
  - destruct xyz as [|x xyz]; simpl.
    + split; [split|].
      * intros (t & Ht). discriminate Ht.
      * lia.
      * intros e He. inversion He. reflexivity.
    + destruct (IH xyz) as [IHr IHe]. unfold_result.
      destruct (text_rows a2s names xyz) as [e|t].
      * split; [split|].
        -- intros (t & Ht). discriminate Ht.
        -- intros Hle. assert (Hle' : (length names <= length xyz)%nat) by lia.
           apply IHr in Hle'. destruct Hle' as (t & Ht). discriminate Ht.
        -- intros e' He. inversion He; subst. apply IHe. reflexivity.
      * split; [split|].
        -- intros _. assert (Hle : (length names <= length xyz)%nat)
             by (apply IHr; eauto). lia.
        -- intros _. eauto.
        -- intros e He. discriminate He.
Qed.

Section MoreMDProperties.

Variable select_atoms : universe -> string -> list atom.
Variable center_of_mass : list atom -> point.
Variable array2string : point -> string -> string.
Variable array2string_str : list string -> string -> string.
Variable csv_reader : string -> list (list string).

Let addH := add_H select_atoms.
Let save' := coord_save array2string array2string_str csv_reader.
Let run' := Process_MD select_atoms center_of_mass array2string
                       array2string_str csv_reader.

(** The atoms add_H appends hydrogens for. *)
Let caps (u : universe) (sel : string) : nat :=
  (length (select_atoms u ("resid " +:+ sel +:+ " and name O3*"))
   + length (select_atoms u ("resid " +:+ sel +:+ " and name O5*")))%nat.

Lemma add_H_returns (u : universe) (xyz : list point) (names : list string)
    (sel : string) :
  ((exists r : list string * list point, addH u xyz names sel = inr r) <->
   In "OP1" names /\ In "OP2" names /\ In "P" names) /\
  (forall e : exn, addH u xyz names sel = inl e -> e = IndexError).
Proof.
  unfold addH, add_H.
  destruct (index_of_returns_iff "OP1" names) as [H1 E1].
  destruct (index_of_returns_iff "OP2" names) as [H2 E2].
  destruct (index_of_returns_iff "P" names) as [H3 E3].
  destruct (index_of "OP1" names) as [e1|op1];
    [|destruct (index_of "OP2" names) as [e2|op2];
      [|destruct (index_of "P" names) as [e3|p]]]; unfold_result.
  - split; [split|].
    + intros (r & Hr). discriminate Hr.
    + intros (Hin & _). apply H1 in Hin. destruct Hin as (i & Hi). discriminate Hi.
    + intros e He. inversion He; subst. apply E1. reflexivity.
  - split; [split|].
    + intros (r & Hr). discriminate Hr.
    + intros (_ & Hin & _). apply H2 in Hin. destruct Hin as (i & Hi).
      discriminate Hi.
    + intros e He. inversion He; subst. apply E2. reflexivity.
  - split; [split|].
    + intros (r & Hr). discriminate Hr.
    + intros (_ & _ & Hin). apply H3 in Hin. destruct Hin as (i & Hi).
      discriminate Hi.
    + intros e He. inversion He; subst. apply E3. reflexivity.
  - split; [split|].
    + intros _. repeat split; [apply H1|apply H2|apply H3]; eauto.
    + intros _. eauto.
    + intros e He. discriminate He.
Qed.

Lemma add_H_lengths_of (u : universe) (xyz : list point) (names : list string)
    (sel : string) (names' : list string) (xyz' : list point) :
  length xyz = length names ->
  addH u xyz names sel = inr (names', xyz') ->
  (length names' + 1 = length names)%nat /\
  (length xyz' + 3 = length names + caps u sel)%nat.
Proof.
  intros Hlen. unfold addH, add_H, caps.
  destruct (index_of "OP1" names) as [e1|op1] eqn:H1; [discriminate|].
  destruct (index_of "OP2" names) as [e2|op2] eqn:H2; [discriminate|].
  destruct (index_of "P" names) as [e3|p] eqn:H3; [discriminate|].
  unfold_result. intros Heq. inversion Heq; subst. clear Heq.
  apply index_of_lookup in H1, H2, H3.
  assert (Hnd : NoDup [op1; op2; p]).
  { repeat (apply NoDup_cons_2); try apply NoDup_nil_2;
      rewrite ?elem_of_cons, ?elem_of_nil; intros Hin;
      repeat (destruct Hin as [Hin|Hin]); try contradiction; subst;
      congruence. }
  assert (Hall : Forall (fun j => j < length names)%nat [op1; op2; p]).
  { repeat constructor; eapply lookup_lt_Some; eassumption. }
  pose proof (length_np_delete [op1; op2; p] names Hnd Hall) as Ln.
  rewrite <- Hlen in Hall.
  pose proof (length_np_delete [op1; op2; p] xyz Hnd Hall) as Lx.
  simpl length in Ln, Lx.
  rewrite !length_app, !length_map. simpl length. lia.
Qed.

Lemma coord_save_eq (coord_path : string) (frameN resN : Z)
    (xyz : list point) (names : list string) (fs : files) :
  save' coord_path frameN resN xyz names fs =
  match text_rows array2string names xyz with
  | inl e => (inl e, fs)
  | inr text =>
      (last_row array2string_str (csv_reader (savetxt text)),
       <[coord_file coord_path resN frameN := savetxt text]> fs)
  end.
Proof.
  unfold save', coord_save.
  destruct (text_rows array2string names xyz) as [e|text]; [reflexivity|].
  rewrite lookup_insert_eq. reflexivity.
Qed.

(** X20. Process_MD raises IndexError and writes no file when a selection
    is empty or a monomer has no atom named OP1, OP2 or P. *)
Theorem Process_MD_raises_without_writing (u : universe)
    (sel_1 sel_2 coord_path : string) (fs : files) :
  let agA := select_atoms u ("resid " +:+ sel_1) in
  let agB := select_atoms u ("resid " +:+ sel_2) in
  agA = [] \/ agB = [] \/
  ~ (In "OP1" (map name agA) /\ In "OP2" (map name agA) /\ In "P" (map name agA)) \/
  ~ (In "OP1" (map name agB) /\ In "OP2" (map name agB) /\ In "P" (map name agB)) ->
  run' u sel_1 sel_2 coord_path fs = (inl IndexError, fs).
Proof.
  intros agA agB Hbad. unfold run', Process_MD. fold agA agB.
  destruct agA as [|a0 agA'] eqn:HA; [reflexivity|].
  destruct agB as [|b0 agB'] eqn:HB; [reflexivity|].
  fold addH.
  destruct (add_H_returns u (map position (a0 :: agA')) (map name (a0 :: agA'))
              sel_1) as [RA EA].
  destruct (add_H_returns u (map position (b0 :: agB')) (map name (b0 :: agB'))
              sel_2) as [RB EB].
  destruct (addH u (map position (a0 :: agA')) _ sel_1) as [eA|[nA xA]].
  { rewrite (EA eA eq_refl). reflexivity. }
  destruct (addH u (map position (b0 :: agB')) _ sel_2) as [eB|[nB xB]].
  { rewrite (EB eB eq_refl). reflexivity. }
  exfalso. destruct Hbad as [Hbad|[Hbad|[Hbad|Hbad]]]; try discriminate Hbad.
  - apply Hbad, RA. eauto.
  - apply Hbad, RB. eauto.
Qed.

(** X21. add_H takes three atoms away and caps with hydrogens: on one
    coordinate per name it returns one name less than it was given, ending
    in two H, while the coordinates are three less plus one per atom the
    O3* and O5* selections hold. *)
Theorem add_H_lengths (u : universe) (xyz : list point) (names : list string)
    (sel : string) (names' : list string) (xyz' : list point) :
  length xyz = length names ->
  addH u xyz names sel = inr (names', xyz') ->
  (length names' + 1 = length names)%nat /\
  (length xyz' + 3 = length names + caps u sel)%nat /\
  (length names' = length xyz' <-> caps u sel = 2%nat) /\
  exists kept : list string, names' = kept ++ ["H"; "H"].
Proof.
  intros Hlen Hrun.
  destruct (add_H_lengths_of u xyz names sel names' xyz' Hlen Hrun) as [Ln Lx].
  split; [exact Ln|]. split; [exact Lx|]. split; [lia|].
  revert Hrun. unfold addH, add_H.
  destruct (index_of "OP1" names) as [e1|op1]; [discriminate|].
  destruct (index_of "OP2" names) as [e2|op2]; [discriminate|].
  destruct (index_of "P" names) as [e3|p]; [discriminate|].
  unfold_result. intros Heq. inversion Heq; subst. eauto.
Qed.

(** X22. Process_MD returns only for monomers whose O3* and O5* selections
    hold at least two atoms together: with fewer there are more names than
    coordinates and coord_save raises IndexError. *)
Theorem Process_MD_needs_two_caps (u : universe)
    (sel_1 sel_2 coord_path : string) (fs fs' : files)
    (out : string * string * point) :
  run' u sel_1 sel_2 coord_path fs = (inr out, fs') ->
  (2 <= caps u sel_1)%nat /\ (2 <= caps u sel_2)%nat.
Proof.
  unfold run', Process_MD.
  destruct (select_atoms u ("resid " +:+ sel_1)) as [|a0 agA]; [discriminate|].
  destruct (select_atoms u ("resid " +:+ sel_2)) as [|b0 agB]; [discriminate|].
  fold addH.
  destruct (addH u (map position (a0 :: agA)) _ sel_1) as [e|[nA xA]] eqn:HA;
    [discriminate|].
  destruct (addH u (map position (b0 :: agB)) _ sel_2) as [e|[nB xB]] eqn:HB;
    [discriminate|].
  apply add_H_lengths_of in HA; [|rewrite !length_map; reflexivity].
  apply add_H_lengths_of in HB; [|rewrite !length_map; reflexivity].
  fold save'. rewrite coord_save_eq.
  destruct (text_rows_returns_iff array2string nA xA) as [RA _].
  destruct (text_rows array2string nA xA) as [e|tA]; [discriminate|].
  destruct (last_row _ (csv_reader (savetxt tA))) as [e|cA]; [discriminate|].
  rewrite coord_save_eq.
  destruct (text_rows_returns_iff array2string nB xB) as [RB _].
  destruct (text_rows array2string nB xB) as [e|tB]; [discriminate|].
  intros _.
  assert (LA : (length nA <= length xA)%nat) by (apply RA; eauto).
  assert (LB : (length nB <= length xB)%nat) by (apply RB; eauto).
  lia.
Qed.

(** X23. Process_MD is not atomic: when the first monomer is saved and the
    second has fewer coordinates than names, the call raises IndexError
    and the file of the first monomer stays written. *)
Theorem Process_MD_partial_write (u : universe)
    (sel_1 sel_2 coord_path : string) (fs : files)
    (a0 b0 : atom) (agA agB : list atom)
    (namesA namesB textA : list string) (xyzA xyzB : list point)
    (coordA : string) :
  select_atoms u ("resid " +:+ sel_1) = a0 :: agA ->
  select_atoms u ("resid " +:+ sel_2) = b0 :: agB ->
  addH u (map position (a0 :: agA)) (map name (a0 :: agA)) sel_1 =
    inr (namesA, xyzA) ->
  addH u (map position (b0 :: agB)) (map name (b0 :: agB)) sel_2 =
    inr (namesB, xyzB) ->
  text_rows array2string namesA xyzA = inr textA ->
  last_row array2string_str (csv_reader (savetxt textA)) = inr coordA ->
  (caps u sel_2 < 2)%nat ->
  run' u sel_1 sel_2 coord_path fs =
  (inl IndexError,
   <[coord_file coord_path (resid a0) (frame u) := savetxt textA]> fs).
Proof.
  intros HsA HsB HA HB HtA HcA Hcaps. unfold run', Process_MD.
  rewrite HsA, HsB. fold addH. rewrite HA, HB. fold save'.
  rewrite coord_save_eq, HtA, HcA, coord_save_eq.
  apply add_H_lengths_of in HB; [|rewrite !length_map; reflexivity].
  destruct (text_rows_returns_iff array2string namesB xyzB) as [RB EB].
  destruct (text_rows array2string namesB xyzB) as [e|tB].
  - rewrite (EB e eq_refl). reflexivity.
  - assert (LB : (length namesB <= length xyzB)%nat) by (apply RB; eauto).
    lia.
Qed.

(** X24. Exchanging the two selections exchanges the two coordinate
    strings and turns Rab into its opposite; the same files are written
    when the two file names differ. *)
Theorem Process_MD_exchange (u : universe)
    (sel_1 sel_2 coord_path : string) (fs fs1 : files)
    (coordA coordB : string) (Rab : point) :
  run' u sel_1 sel_2 coord_path fs = (inr (coordA, coordB, Rab), fs1) ->
  exists (a0 b0 : atom) (fs2 : files),
    head (select_atoms u ("resid " +:+ sel_1)) = Some a0 /\
    head (select_atoms u ("resid " +:+ sel_2)) = Some b0 /\
    run' u sel_2 sel_1 coord_path fs = (inr (coordB, coordA, popp Rab), fs2) /\
    (coord_file coord_path (resid a0) (frame u) <>
     coord_file coord_path (resid b0) (frame u) -> fs2 = fs1).
Proof.
  unfold run', Process_MD.
  destruct (select_atoms u ("resid " +:+ sel_1)) as [|a0 agA]; [discriminate|].
  destruct (select_atoms u ("resid " +:+ sel_2)) as [|b0 agB]; [discriminate|].
  fold addH.
  destruct (addH u (map position (a0 :: agA)) _ sel_1) as [e|[nA xA]];
    [discriminate|].
  destruct (addH u (map position (b0 :: agB)) _ sel_2) as [e|[nB xB]];
    [discriminate|].
  fold save'. rewrite !coord_save_eq.
  destruct (text_rows array2string nA xA) as [e|tA] eqn:HtA; [discriminate|].
  destruct (last_row _ (csv_reader (savetxt tA))) as [e|cA] eqn:HcA;
    [discriminate|].
  rewrite !coord_save_eq.
  destruct (text_rows array2string nB xB) as [e|tB] eqn:HtB; [discriminate|].
  destruct (last_row _ (csv_reader (savetxt tB))) as [e|cB] eqn:HcB;
    [discriminate|].
  intros Heq. inversion Heq; subst. clear Heq.
  rewrite ?coord_save_eq, ?HtA, ?HcA.
  exists a0, b0. eexists. split; [reflexivity|]. split; [reflexivity|]. split.
  - f_equal. f_equal.
    destruct (center_of_mass (a0 :: agA)) as [[ax ay] az].
    destruct (center_of_mass (b0 :: agB)) as [[bx by_] bz].
    unfold psub, popp. do 3 f_equal; lra.
  - intros Hne. apply insert_insert_ne. exact Hne.
Qed.

End MoreMDProperties.

Lemma Process_MD_raises_without_writing_witness :
  demo_Process_MD demo_universe "3" "2" demo_path ∅ = (inl IndexError, ∅).
Proof.
  apply (Process_MD_raises_without_writing demo_select demo_center_of_mass
           demo_array2string demo_array2string_str demo_csv_reader
           demo_universe "3" "2" demo_path ∅).
  left. reflexivity.
Defined.

Lemma demo_add_H_returns :
  add_H demo_select demo_universe (map position (demo_residue 1))
        (map name (demo_residue 1)) "1" =
  inr (demo_capped_names, demo_capped_xyz).
Proof. reflexivity. Qed.

Lemma add_H_lengths_witness :
  (length demo_capped_names + 1 = length (map name (demo_residue 1)))%nat /\
  (length demo_capped_xyz + 3 =
   length (map name (demo_residue 1))
   + (length (demo_select demo_universe ("resid " +:+ "1" +:+ " and name O3*"))
      + length (demo_select demo_universe ("resid " +:+ "1" +:+ " and name O5*"))))%nat /\
  (length demo_capped_names = length demo_capped_xyz <->
   (length (demo_select demo_universe ("resid " +:+ "1" +:+ " and name O3*"))
    + length (demo_select demo_universe ("resid " +:+ "1" +:+ " and name O5*")))%nat
   = 2%nat) /\
  exists kept : list string, demo_capped_names = kept ++ ["H"; "H"].
Proof.
  exact (add_H_lengths demo_select demo_universe
           (map position (demo_residue 1)) (map name (demo_residue 1)) "1"
           demo_capped_names demo_capped_xyz eq_refl demo_add_H_returns).
Defined.

Lemma Process_MD_needs_two_caps_witness :
  (2 <= length (demo_select demo_universe ("resid " +:+ "1" +:+ " and name O3*"))
        + length (demo_select demo_universe ("resid " +:+ "1" +:+ " and name O5*")))%nat /\
  (2 <= length (demo_select demo_universe ("resid " +:+ "2" +:+ " and name O3*"))
        + length (demo_select demo_universe ("resid " +:+ "2" +:+ " and name O5*")))%nat.
Proof.
  destruct demo_Process_MD_returns as [out Hrun].
  exact (Process_MD_needs_two_caps demo_select demo_center_of_mass
           demo_array2string demo_array2string_str demo_csv_reader
           demo_universe "1" "2" demo_path ∅ _ out Hrun).
Defined.

Lemma Process_MD_partial_write_witness :
  demo_Process_MD demo_universe_cut "1" "2" demo_path ∅ =
  (inl IndexError, <[demo_path +:+ "10.csv" := savetxt demo_cells]> ∅).
Proof.
  eapply (Process_MD_partial_write demo_select demo_center_of_mass
            demo_array2string demo_array2string_str demo_csv_reader
            demo_universe_cut "1" "2" demo_path ∅
            (Atom 1 "P" (0, 0, 0) 31) _ _ _ _ _ demo_cells).
  - reflexivity.
  - reflexivity.
  - reflexivity.
  - reflexivity.
  - reflexivity.
  - reflexivity.
  - vm_compute. lia.
Defined.

Lemma Process_MD_exchange_witness :
  exists (coordA coordB : string) (Rab : point) (a0 b0 : atom) (fs1 fs2 : files),
    demo_Process_MD demo_universe "1" "2" demo_path ∅ =
    (inr (coordA, coordB, Rab), fs1) /\
    head (demo_select demo_universe ("resid " +:+ "1")) = Some a0 /\
    head (demo_select demo_universe ("resid " +:+ "2")) = Some b0 /\
    demo_Process_MD demo_universe "2" "1" demo_path ∅ =
    (inr (coordB, coordA, popp Rab), fs2) /\
    (coord_file demo_path (resid a0) (frame demo_universe) <>
     coord_file demo_path (resid b0) (frame demo_universe) -> fs2 = fs1).
Proof.
  destruct demo_Process_MD_returns as [[[coordA coordB] Rab] Hrun].
  destruct (Process_MD_exchange demo_select demo_center_of_mass
              demo_array2string demo_array2string_str demo_csv_reader
              demo_universe "1" "2" demo_path ∅ _ coordA coordB Rab Hrun)
    as (a0 & b0 & fs2 & H1 & H2 & H3 & H4).
  exists coordA, coordB, Rab, a0, b0. eexists _, fs2.
  split; [exact Hrun|]. repeat split; assumption.
Defined.

(** ** do_tddft *)

Lemma py_index_returns_iff {A : Type} (l : list A) (i : Z) :
  ((exists x : A, py_index l i = inr x) <->
   (- Z.of_nat (length l) <= i < Z.of_nat (length l))%Z) /\
  (forall e : exn, py_index l i = inl e -> e = IndexError).
Proof.
  unfold py_index.
  destruct (Z.ltb_spec i 0) as [Hneg|Hpos].
  - destruct (Z.ltb_spec (i + Z.of_nat (length l)) 0) as [Hlow|Hin].
    + split; [split|].
      * intros (x & Hx). discriminate Hx.
      * lia.
      * intros e He. inversion He. reflexivity.
    + destruct (l !! Z.to_nat (i + Z.of_nat (length l))) as [x|] eqn:Hl.
      * split; [split|]; [intros _; lia|intros _; eauto|].
        intros e He. discriminate He.
      * apply lookup_ge_None in Hl. lia.
  - destruct (Z.ltb_spec i 0) as [Hlow|_]; [lia|].
    destruct (l !! Z.to_nat i) as [x|] eqn:Hl.
    + apply lookup_lt_Some in Hl.
      split; [split|]; [intros _; lia|intros _; eauto|].
      intros e He. discriminate He.
    + apply lookup_ge_None in Hl. split; [split|].
      * intros (x & Hx). discriminate Hx.
      * lia.
      * intros e He. inversion He. reflexivity.
Qed.

Lemma py_index_out_of_range {A : Type} (l : list A) (i : Z) :
  ~ (- Z.of_nat (length l) <= i < Z.of_nat (length l))%Z ->
  py_index l i = inl IndexError.
Proof.
  intros Hout. destruct (py_index_returns_iff l i) as [Hr He].
  destruct (py_index l i) as [e|x].
  - rewrite (He e eq_refl). reflexivity.
  - exfalso. apply Hout, Hr. eauto.
Qed.

Lemma py_index_single {A : Type} (l : list A) :
  length l = 1%nat -> py_index l (-1) = py_index l 0.
Proof.
  destruct l as [|x [|y l]]; try discriminate. reflexivity.
Qed.

Lemma py_index_all_out_of_range {A : Type} (l : list A) (ids : list Z) :
  Exists (fun i => ~ (- Z.of_nat (length l) <= i < Z.of_nat (length l))%Z) ids ->
  py_index_all l ids = inl IndexError.
Proof.
  induction 1 as [i ids Hout|i ids Hex IH]; simpl.
  - rewrite (py_index_out_of_range l i Hout). reflexivity.
  - destruct (py_index_returns_iff l i) as [_ He].
    destruct (py_index l i) as [e|x].
    + rewrite (He e eq_refl). reflexivity.
    + unfold_result. rewrite IH. reflexivity.
Qed.

Lemma py_index_In {A : Type} (l : list A) (i : Z) (x : A) :
  py_index l i = inr x -> In x l.
Proof.
  unfold py_index.
  destruct (_ <? 0)%Z; [discriminate|].
  destruct (l !! _) as [y|] eqn:Hl; [|discriminate].
  intros Heq. inversion Heq; subst. apply list_elem_of_In.
  eapply list_elem_of_lookup_2. exact Hl.
Qed.

Lemma np_dot_shape (other : ndarray -> ndarray -> result ndarray)
    (a b c : ndarray) (n k k' m : nat) :
  shape a = [n; k] -> shape b = [k'; m] ->
  np_dot other a b = inr c -> k = k' /\ shape c = [n; m].
Proof.
  intros Ha Hb. unfold np_dot. rewrite Ha, Hb.
  case_decide as Hk; [|discriminate].
  intros Heq. inversion Heq; subst. split; reflexivity.
Qed.

Section TDDFTProperties.

Variable TDA_run : meanfield -> nat -> result tda.
Variable np_dot_other : ndarray -> ndarray -> result ndarray.
Variable T_other : ndarray -> ndarray.

Let tddft := do_tddft TDA_run np_dot_other T_other.

(** X25. With an int state_id, do_tddft asks the solver for one state:
    when the solver returns the one state asked for, state_id = -1 gives
    what state_id = 0 gives, and every other state_id raises IndexError. *)
Theorem do_tddft_int_state (mf : meanfield) (o_A v_A : ndarray) (td : tda) :
  TDA_run mf 1 = inr td ->
  length (tda_e td) = 1%nat ->
  length (tda_dipole td) = 1%nat ->
  length (tda_xy td) = 1%nat ->
  tddft mf o_A v_A (StateInt (-1)) = tddft mf o_A v_A (StateInt 0) /\
  forall i : Z, i <> 0%Z -> i <> (-1)%Z ->
    tddft mf o_A v_A (StateInt i) = inl IndexError.
Proof.
  intros Hrun Le Ld Lx. unfold tddft, do_tddft. simpl nstates_of.
  rewrite Hrun. unfold_result. split.
  - rewrite (py_index_single _ Le), (py_index_single _ Ld),
      (py_index_single _ Lx). reflexivity.
  - intros i H0 H1. rewrite (py_index_out_of_range (tda_dipole td) i).
    + reflexivity.
    + rewrite Ld. lia.
Qed.

(** X26. With a list state_id, do_tddft asks the solver for as many states
    as the list is long, not for the states up to the largest index: when
    the solver returns that many energies, a list holding an index that is
    not below its own length raises IndexError. *)
Theorem do_tddft_list_state (mf : meanfield) (o_A v_A : ndarray) (td : tda)
    (ids : list Z) :
  TDA_run mf (length ids) = inr td ->
  length (tda_e td) = length ids ->
  Exists (fun i => (i < - Z.of_nat (length ids) \/ Z.of_nat (length ids) <= i)%Z)
         ids ->
  tddft mf o_A v_A (StateList ids) = inl IndexError.
Proof.
  intros Hrun Le Hex. unfold tddft, do_tddft. simpl nstates_of.
  rewrite Hrun. unfold_result.
  rewrite (py_index_all_out_of_range (tda_e td) ids); [reflexivity|].
  rewrite Le. eapply Exists_impl; [exact Hex|]. simpl. intros i Hi. lia.
Qed.

(** X27. The transition density matrix do_tddft returns for orbital
    matrices o_A of shape (n, k) and v_A of shape (n', k'), when the
    solver's coefficients are two-dimensional, has shape (n, n'). *)
Theorem do_tddft_tdm_shape (mf : meanfield) (o_A v_A tdm : ndarray)
    (state_id : state_sel) (td : tda) (n k n' k' : nat)
    (Tenergy : one_or_list R) (Tdipole : one_or_list (list R)) :
  TDA_run mf (nstates_of state_id) = inr td ->
  Forall (fun xy => exists a b : nat, shape (fst xy) = [a; b]) (tda_xy td) ->
  shape o_A = [n; k] ->
  shape v_A = [n'; k'] ->
  tddft mf o_A v_A state_id = inr (Tenergy, Tdipole, tdm) ->
  shape tdm = [n; n'] /\ length (data tdm) = (n * n')%nat.
Proof.
  intros Hrun Hxy Ho Hv. unfold tddft, do_tddft. rewrite Hrun. unfold_result.
  assert (Hcis : forall i xy, py_index (tda_xy td) i = inr xy ->
                   exists a b : nat, shape (fst xy) = [a; b]).
  { intros i xy Hi. apply py_index_In in Hi.
    rewrite Forall_forall in Hxy. apply Hxy. apply list_elem_of_In. exact Hi. }
  assert (Hdot : forall cis : ndarray,
            (exists a b : nat, shape cis = [a; b]) ->
            forall r, match np_dot np_dot_other o_A cis with
                      | inl e => inl e
                      | inr oc =>
                          match np_dot np_dot_other oc (transpose T_other v_A) with
                          | inl e => inl e
                          | inr t => inr (r, scalar_mul (sqrt 2) t)
                          end
                      end = inr (Tenergy, Tdipole, tdm) ->
            shape tdm = [n; n'] /\ length (data tdm) = (n * n')%nat).
  { intros cis (a & b & Hc) r.
    destruct (np_dot np_dot_other o_A cis) as [e|oc] eqn:H1; [discriminate|].
    destruct (np_dot_shape _ _ _ _ _ _ _ _ Ho Hc H1) as [_ Hoc].
    assert (HT : shape (transpose T_other v_A) = [k'; n']).
    { unfold transpose. rewrite Hv. reflexivity. }
    destruct (np_dot np_dot_other oc _) as [e|t] eqn:H2; [discriminate|].
    intros Heq. inversion Heq; subst. clear Heq.
    unfold np_dot in H2. rewrite Hoc, HT in H2.
    case_decide; [|discriminate]. inversion H2; subst.
    unfold scalar_mul. simpl. split; [reflexivity|].
    rewrite length_map. unfold tabulate2.
    rewrite (flat_map_constant_length (c := n')).
    - rewrite length_seq. reflexivity.
    - intros i _. rewrite length_map, length_seq. reflexivity. }
  destruct state_id as [i|ids].
  - destruct (py_index (tda_dipole td) i) as [e|d]; [discriminate|].
    destruct (py_index (tda_e td) i) as [e|en]; [discriminate|].
    destruct (py_index (tda_xy td) i) as [e|xy] eqn:Hi; [discriminate|].
    cbv beta iota. intros Heq.
    eapply (Hdot (fst xy)); [eapply Hcis; exact Hi|].
    revert Heq.
    destruct (np_dot np_dot_other o_A (fst xy)) as [e|oc]; [discriminate|].
    destruct (np_dot np_dot_other oc _) as [e|t]; [discriminate|].
    intros Heq. exact Heq.
  - destruct (py_index_all (tda_e td) ids) as [e|en]; [discriminate|].
    destruct (py_index_all (tda_dipole td) ids) as [e|d]; [discriminate|].
    destruct (py_index ids 0) as [e|i0]; [discriminate|].
    destruct (py_index (tda_xy td) i0) as [e|xy] eqn:Hi; [discriminate|].
    cbv beta iota. intros Heq.
    eapply (Hdot (fst xy)); [eapply Hcis; exact Hi|].
    revert Heq.
    destruct (np_dot np_dot_other o_A (fst xy)) as [e|oc]; [discriminate|].
    destruct (np_dot np_dot_other oc _) as [e|t]; [discriminate|].
    intros Heq. exact Heq.
Qed.

End TDDFTProperties.

Lemma do_tddft_int_state_witness :
  demo_do_tddft mf_four_level (NdArray [2; 2]%nat [1; 0; 0; 1])
                (NdArray [2; 2]%nat [0; 1; 1; 0]) (StateInt (-1)) =
  demo_do_tddft mf_four_level (NdArray [2; 2]%nat [1; 0; 0; 1])
                (NdArray [2; 2]%nat [0; 1; 1; 0]) (StateInt 0) /\
  forall i : Z, i <> 0%Z -> i <> (-1)%Z ->
    demo_do_tddft mf_four_level (NdArray [2; 2]%nat [1; 0; 0; 1])
                  (NdArray [2; 2]%nat [0; 1; 1; 0]) (StateInt i) =
    inl IndexError.
Proof.
  apply (do_tddft_int_state demo_TDA_run (fun _ _ => raise ValueError)
           (fun a => a) mf_four_level _ _
           (Tda [0.1] [[1; 0; 0]]
                [(NdArray [2; 2]%nat [1; 0; 0; 1],
                  NdArray [2; 2]%nat [0; 0; 0; 0])]));
    reflexivity.
Defined.

Lemma do_tddft_list_state_witness :
  demo_do_tddft mf_four_level (NdArray [2; 2]%nat [1; 0; 0; 1])
                (NdArray [2; 2]%nat [0; 1; 1; 0]) (StateList [1%Z]) =
  inl IndexError.
Proof.
  apply (do_tddft_list_state demo_TDA_run (fun _ _ => raise ValueError)
           (fun a => a) mf_four_level _ _
           (Tda [0.1] [[1; 0; 0]]
                [(NdArray [2; 2]%nat [1; 0; 0; 1],
                  NdArray [2; 2]%nat [0; 0; 0; 0])]) [1%Z]).
  - reflexivity.
  - reflexivity.
  - constructor. simpl. lia.
Defined.

Lemma demo_do_tddft_returns :
  exists tdm : ndarray,
    demo_do_tddft mf_four_level (NdArray [2; 2]%nat [1; 0; 0; 1])
                  (NdArray [2; 2]%nat [0; 1; 1; 0]) (StateInt 0) =
    inr (One 0.1, One [1; 0; 0], tdm).
Proof. eexists. reflexivity. Qed.

Lemma do_tddft_tdm_shape_witness :
  exists tdm : ndarray,
    demo_do_tddft mf_four_level (NdArray [2; 2]%nat [1; 0; 0; 1])
                  (NdArray [2; 2]%nat [0; 1; 1; 0]) (StateInt 0) =
    inr (One 0.1, One [1; 0; 0], tdm) /\
    shape tdm = [2; 2]%nat /\ length (data tdm) = (2 * 2)%nat.
Proof.
  destruct demo_do_tddft_returns as [tdm Hrun].
  exists tdm. split; [exact Hrun|].
  apply (do_tddft_tdm_shape demo_TDA_run (fun _ _ => raise ValueError)
           (fun a => a) mf_four_level (NdArray [2; 2]%nat [1; 0; 0; 1])
           (NdArray [2; 2]%nat [0; 1; 1; 0]) tdm (StateInt 0)
           (Tda [0.1] [[1; 0; 0]]
                [(NdArray [2; 2]%nat [1; 0; 0; 1],
                  NdArray [2; 2]%nat [0; 0; 0; 0])])
           2 2 2 2 (One 0.1) (One [1; 0; 0])).
  - reflexivity.
  - repeat constructor. simpl. eauto.
  - reflexivity.
  - reflexivity.
  - exact Hrun.
Defined.

(** ** do_dft: the coordinate string *)

Lemma length_append (s t : string) :
  String.length (s +:+ t) = (String.length s + String.length t)%nat.
Proof. induction s as [|c s IH]; simpl; [reflexivity|]. rewrite IH. reflexivity. Qed.

Lemma substring_append (s t : string) :
  substring 0 (String.length s) (s +:+ t) = s.
Proof.
  induction s as [|c s IH]; simpl.
  - destruct t; reflexivity.
  - rewrite IH. reflexivity.
Qed.

Lemma slice_1_m1_wrapped (c1 c2 : ascii) (s : string) :
  slice_1_m1 (String c1 (s +:+ String c2 EmptyString)) = s.
Proof.
  unfold slice_1_m1. cbn [String.length].
  rewrite length_append. cbn [String.length substring].
  replace (S (String.length s + 1) - 2)%nat with (String.length s) by lia.
  apply substring_append.
Qed.

Section CoordProperties.

Variable gto_M : string -> string -> Z -> Z -> result mol.
Variable ddCOSMO_RKS_run : mol -> string -> result meanfield.

Let dft := do_dft gto_M ddCOSMO_RKS_run.

(** X28. do_dft does not read the first and the last character of coord,
    whatever they are: the molecule is built from the text between them,
    and two coordinate strings that differ only in these two characters
    give the same result. *)
Theorem do_dft_coord_ends (c1 c2 : ascii) (s basis xc_f : string)
    (mol_ch spin verb : Z) :
  dft (String c1 (s +:+ String c2 EmptyString)) basis xc_f mol_ch spin verb =
  (m ← gto_M s basis mol_ch 0;
   mf ← ddCOSMO_RKS_run (set_verbose m verb) xc_f;
   occ ← select_columns (mo_coeff mf) (map ne0 (mo_occ mf));
   virt ← select_columns (mo_coeff mf) (map eq0 (mo_occ mf));
   mret (set_verbose m verb, mf, occ, virt)) /\
  forall c1' c2' : ascii,
    dft (String c1' (s +:+ String c2' EmptyString)) basis xc_f mol_ch spin verb =
    dft (String c1 (s +:+ String c2 EmptyString)) basis xc_f mol_ch spin verb.
Proof.
  unfold dft, do_dft. split.
  - rewrite slice_1_m1_wrapped. reflexivity.
  - intros c1' c2'. rewrite !slice_1_m1_wrapped. reflexivity.
Qed.

End CoordProperties.

(** ** transfer_CT *)

Lemma wrap_first (n : nat) :
  wrap n 0 = if decide (n = 0)%nat then inl IndexError else inr 0%nat.
Proof.
  unfold wrap. change (0 <? 0)%Z with false. cbv iota.
  case_decide as Hn; [subst; reflexivity|].
  destruct (Z.leb_spec (Z.of_nat n) 0) as [Hle|_]; [lia|]. reflexivity.
Qed.

Lemma wrap_last (n : nat) :
  wrap n (-1) = if decide (n = 0)%nat then inl IndexError else inr (n - 1)%nat.
Proof.
  unfold wrap. change (-1 <? 0)%Z with true. cbv iota.
  case_decide as Hn; [subst; reflexivity|].
  destruct (Z.ltb_spec (-1 + Z.of_nat n) 0) as [Hlt|_]; [lia|].
  destruct (Z.leb_spec (Z.of_nat n) (-1 + Z.of_nat n)) as [Hle|_]; [lia|].
  cbn [orb]. unfold mret, result_ret. f_equal. lia.
Qed.

Lemma matrix_entry_first (a b : nat) (f : nat -> nat -> R) :
  matrix_entry a b f 0 0 =
  if decide (a = 0 \/ b = 0)%nat then inl IndexError else inr (f 0 0)%nat.
Proof.
  unfold matrix_entry. rewrite !wrap_first. unfold_result.
  repeat case_decide; try reflexivity; exfalso; lia.
Qed.

Lemma matrix_entry_last (a b : nat) (f : nat -> nat -> R) :
  matrix_entry a b f (-1) (-1) =
  if decide (a = 0 \/ b = 0)%nat then inl IndexError
  else inr (f (a - 1) (b - 1))%nat.
Proof.
  unfold matrix_entry. rewrite !wrap_last. unfold_result.
  repeat case_decide; try reflexivity; exfalso; lia.
Qed.

Lemma einsum_pq_pa_qb_exchange (p q : nat) (s s' x y : ndarray) (a b : nat) :
  (forall k l : nat, (k < p)%nat -> (l < q)%nat -> item2 s' l k = item2 s k l) ->
  einsum_pq_pa_qb q p s' y x b a = einsum_pq_pa_qb p q s x y a b.
Proof.
  intros Hs. unfold einsum_pq_pa_qb. rewrite big_sum_exchange.
  apply big_sum_ext. intros k Hk. apply big_sum_ext. intros l Hl.
  rewrite Hs by assumption. ring.
Qed.

Section TransferCTProperties.

Variable intor_cross : string -> mol -> mol -> ndarray.
Variable transfer_CT_other :
  mol -> mol -> ndarray -> ndarray -> ndarray -> ndarray -> result (R * R).

Let tct := transfer_CT intor_cross transfer_CT_other.

Lemma transfer_CT_matched (molA molB : mol) (o_A o_B v_A v_B : ndarray)
    (p q a b i j : nat) :
  shape (intor_cross "int1e_ovlp" molA molB) = [p; q] ->
  shape v_A = [p; a] -> shape v_B = [q; b] ->
  shape o_A = [p; i] -> shape o_B = [q; j] ->
  tct molA molB o_A o_B v_A v_B =
  if decide ((a = 0 \/ b = 0) \/ (i = 0 \/ j = 0))%nat then inl IndexError
  else inr (einsum_pq_pa_qb p q (intor_cross "int1e_ovlp" molA molB)
              v_A v_B 0 0,
            - einsum_pq_pa_qb p q (intor_cross "int1e_ovlp" molA molB)
                o_A o_B (i - 1) (j - 1)).
Proof.
  intros HS HvA HvB HoA HoB. unfold tct, transfer_CT.
  rewrite HS, HvA, HvB, HoA, HoB.
  rewrite decide_True by (repeat split).
  rewrite matrix_entry_first, matrix_entry_last.
  repeat case_decide; try reflexivity; exfalso; tauto.
Qed.

(** X29. For an overlap matrix of shape (p, q) and orbital matrices with p
    and q rows, transfer_CT returns exactly when each orbital matrix has a
    column, and raises IndexError if not. te is the overlap between the
    first columns of v_A and v_B, and th minus the overlap between the last
    columns of o_A and o_B. *)
Theorem transfer_CT_values (molA molB : mol) (o_A o_B v_A v_B : ndarray)
    (p q a b i j : nat) :
  let s := intor_cross "int1e_ovlp" molA molB in
  shape s = [p; q] ->
  shape v_A = [p; a] -> shape v_B = [q; b] ->
  shape o_A = [p; i] -> shape o_B = [q; j] ->
  ((0 < a /\ 0 < b /\ 0 < i /\ 0 < j)%nat ->
   tct molA molB o_A o_B v_A v_B =
   inr (big_sum p (fun k => big_sum q (fun l =>
          item2 s k l * item2 v_A k 0 * item2 v_B l 0)),
        - big_sum p (fun k => big_sum q (fun l =>
            item2 s k l * item2 o_A k (i - 1) * item2 o_B l (j - 1))))) /\
  ((a = 0 \/ b = 0 \/ i = 0 \/ j = 0)%nat ->
   tct molA molB o_A o_B v_A v_B = inl IndexError).
Proof.
  intros s HS HvA HvB HoA HoB.
  rewrite (transfer_CT_matched molA molB o_A o_B v_A v_B p q a b i j)
    by assumption.
  split.
  - intros (Ha & Hb & Hi & Hj). rewrite decide_False by lia. reflexivity.
  - intros Hz. rewrite decide_True by tauto. reflexivity.
Qed.

(** X30. transfer_CT gives the same integrals for the monomers in the
    other order, when the overlap matrix of (molB, molA) is the transpose
    of that of (molA, molB). *)
Theorem transfer_CT_exchange (molA molB : mol) (o_A o_B v_A v_B : ndarray)
    (p q a b i j : nat) :
  let s := intor_cross "int1e_ovlp" molA molB in
  let s' := intor_cross "int1e_ovlp" molB molA in
  shape s = [p; q] -> shape s' = [q; p] ->
  (forall k l : nat, (k < p)%nat -> (l < q)%nat -> item2 s' l k = item2 s k l) ->
  shape v_A = [p; a] -> shape v_B = [q; b] ->
  shape o_A = [p; i] -> shape o_B = [q; j] ->
  tct molB molA o_B o_A v_B v_A = tct molA molB o_A o_B v_A v_B.
Proof.
  intros s s' HS HS' Ht HvA HvB HoA HoB.
  rewrite (transfer_CT_matched molA molB o_A o_B v_A v_B p q a b i j)
    by assumption.
  rewrite (transfer_CT_matched molB molA o_B o_A v_B v_A q p b a j i)
    by assumption.
  fold s s'.
  rewrite !(einsum_pq_pa_qb_exchange p q s s') by exact Ht.
  repeat case_decide; try reflexivity; exfalso; tauto.
Qed.

End TransferCTProperties.

Lemma transfer_CT_values_witness :
  demo_transfer_CT mol_one mol_pair
    (NdArray [2; 1]%nat [1; 0]) (NdArray [2; 1]%nat [0; 1])
    (NdArray [2; 1]%nat [0; 1]) (NdArray [2; 1]%nat [1; 0]) =
  inr (big_sum 2 (fun k => big_sum 2 (fun l =>
         item2 (demo_intor_cross "int1e_ovlp" mol_one mol_pair) k l
         * item2 (NdArray [2; 1]%nat [0; 1]) k 0
         * item2 (NdArray [2; 1]%nat [1; 0]) l 0)),
       - big_sum 2 (fun k => big_sum 2 (fun l =>
           item2 (demo_intor_cross "int1e_ovlp" mol_one mol_pair) k l
           * item2 (NdArray [2; 1]%nat [1; 0]) k (1 - 1)
           * item2 (NdArray [2; 1]%nat [0; 1]) l (1 - 1)))).
Proof.
  apply (proj1 (transfer_CT_values demo_intor_cross
                  (fun _ _ _ _ _ _ => raise ValueError) mol_one mol_pair
                  (NdArray [2; 1]%nat [1; 0]) (NdArray [2; 1]%nat [0; 1])
                  (NdArray [2; 1]%nat [0; 1]) (NdArray [2; 1]%nat [1; 0])
                  2 2 1 1 1 1 eq_refl eq_refl eq_refl eq_refl eq_refl)).
  lia.
Defined.

Lemma transfer_CT_exchange_witness :
  demo_transfer_CT mol_pair mol_one
    (NdArray [2; 1]%nat [0; 1]) (NdArray [2; 1]%nat [1; 0])
    (NdArray [2; 1]%nat [1; 0]) (NdArray [2; 1]%nat [0; 1]) =
  demo_transfer_CT mol_one mol_pair
    (NdArray [2; 1]%nat [1; 0]) (NdArray [2; 1]%nat [0; 1])
    (NdArray [2; 1]%nat [0; 1]) (NdArray [2; 1]%nat [1; 0]).
Proof.
  apply (transfer_CT_exchange demo_intor_cross
           (fun _ _ _ _ _ _ => raise ValueError) mol_one mol_pair
           (NdArray [2; 1]%nat [1; 0]) (NdArray [2; 1]%nat [0; 1])
           (NdArray [2; 1]%nat [0; 1]) (NdArray [2; 1]%nat [1; 0])
           2 2 1 1 1 1); try reflexivity.
  intros [|[|k]] [|[|l]] Hk Hl; try lia; reflexivity.
Defined.

(** * Arrays by reference *)

(** ** Reading and updating in place *)

Lemma gather_length (buf : list R) (ps : list nat) (v : list R) :
  gather buf ps = Some v -> length v = length ps.
Proof.
  revert v. induction ps as [|p ps IH]; intros v; simpl.
  - intros Hv. inversion Hv. reflexivity.
  - destruct (buf !! p) as [x|]; [|discriminate].
    destruct (gather buf ps) as [xs|]; [|discriminate].
    intros Hv. inversion Hv. simpl. rewrite (IH xs eq_refl). reflexivity.
Qed.

Lemma gather_scale_cells (k : R) (cs : list nat) (buf : list R)
    (ps : list nat) (v : list R) :
  gather buf ps = Some v ->
  gather (scale_cells k cs buf) ps =
  Some (scale_marked k (map (fun p => bool_decide (p ∈ cs)) ps) v).
Proof.
  revert v. induction ps as [|p ps IH]; intros v; simpl.
  - intros Hv. inversion Hv. reflexivity.
  - unfold scale_cells at 1. rewrite list_lookup_imap. fold (scale_cells k cs buf).
    destruct (buf !! p) as [x|]; [|discriminate].
    destruct (gather buf ps) as [xs|]; [|discriminate].
    intros Hv. inversion Hv; subst. rewrite (IH xs eq_refl). simpl.
    destruct (decide (p ∈ cs)) as [Hin|Hout].
    + rewrite bool_decide_eq_true_2 by exact Hin. reflexivity.
    + rewrite bool_decide_eq_false_2 by exact Hout. reflexivity.
Qed.

Lemma scale_marked_none (k : R) (bs : list bool) (v : list R) :
  Forall (fun b => b = false) bs -> scale_marked k bs v = v.
Proof.
  intros Hbs. revert v. induction Hbs as [|b bs Hb _ IH]; intros v.
  - destruct v; reflexivity.
  - destruct v as [|x v]; [reflexivity|]. simpl. rewrite Hb, IH. reflexivity.
Qed.

Lemma scale_marked_all (k : R) (bs : list bool) (v : list R) :
  Forall (fun b => b = true) bs -> length bs = length v ->
  scale_marked k bs v = scale k v.
Proof.
  intros Hbs. revert v. induction Hbs as [|b bs Hb _ IH]; intros v Hlen.
  - destruct v; [reflexivity|discriminate].
  - destruct v as [|x v]; [discriminate|]. simpl. rewrite Hb, IH by (simpl in Hlen; lia).
    reflexivity.
Qed.

Lemma length_scale_marked (k : R) (bs : list bool) (v : list R) :
  length (scale_marked k bs v) = length v.
Proof.
  revert v. induction bs as [|b bs IH]; intros v; [destruct v; reflexivity|].
  destruct v as [|x v]; [reflexivity|]. simpl. rewrite IH. reflexivity.
Qed.

Lemma marks_self (r : view) : Forall (fun b => b = true) (marks r r).
Proof.
  unfold marks. rewrite Forall_map. apply Forall_forall. intros p Hp.
  rewrite bool_decide_eq_true_2 by reflexivity.
  rewrite bool_decide_eq_true_2 by exact Hp. reflexivity.
Qed.

Lemma marks_disjoint (r a : view) :
  shares_memory a r = false -> Forall (fun b => b = false) (marks r a).
Proof.
  unfold shares_memory, marks. intros Hs. rewrite Forall_map.
  apply Forall_forall. intros p Hp.
  destruct (bool_decide (buffer a = buffer r)); [|reflexivity].
  simpl in *. destruct (bool_decide (p ∈ cells r)) eqn:Hin; [|reflexivity].
  exfalso. assert (Hex : existsb (fun p => bool_decide (p ∈ cells r)) (cells a) = true).
  { apply existsb_exists. exists p. split; [|exact Hin].
    apply list_elem_of_In. exact Hp. }
  congruence.
Qed.

Lemma length_marks (r a : view) : length (marks r a) = length (cells a).
Proof. unfold marks. apply length_map. Qed.

(** What an array holds once [r *= k] has been done: its elements in the
    memory of [r] are multiplied, the others are as before. *)
Lemma read_after_imul (k : R) (m : heap) (r a : view) (vr va : list R) :
  read m r = inr vr -> read m a = inr va ->
  exists buf : list R,
    m !! buffer r = Some buf /\
    imul k r m = inr (<[buffer r := scale_cells k (cells r) buf]> m) /\
    read (<[buffer r := scale_cells k (cells r) buf]> m) a =
    inr (scale_marked k (marks r a) va).
Proof.
  unfold read, imul. intros Hr Ha.
  destruct (m !! buffer r) as [buf|] eqn:Hb; [|discriminate].
  destruct (gather buf (cells r)) as [vr'|] eqn:Hg; [|discriminate].
  exists buf. split; [reflexivity|]. split; [reflexivity|].
  destruct (decide (buffer a = buffer r)) as [Heq|Hne].
  - rewrite Heq, lookup_insert_eq. rewrite Heq, Hb in Ha.
    destruct (gather buf (cells a)) as [va'|] eqn:Hga; [|discriminate].
    inversion Ha; subst va'.
    rewrite (gather_scale_cells k (cells r) buf (cells a) va Hga).
    unfold marks. rewrite bool_decide_eq_true_2 by exact Heq. reflexivity.
  - rewrite lookup_insert_ne by congruence.
    destruct (m !! buffer a) as [bufa|]; [|discriminate].
    destruct (gather bufa (cells a)) as [va'|]; [|discriminate].
    inversion Ha; subst va'.
    rewrite scale_marked_none; [reflexivity|].
    unfold marks. rewrite Forall_map. apply Forall_forall. intros p _.
    rewrite bool_decide_eq_false_2 by exact Hne. reflexivity.
Qed.

Lemma read_length (m : heap) (a : view) (v : list R) :
  read m a = inr v -> length v = length (cells a).
Proof.
  unfold read. destruct (m !! buffer a) as [buf|]; [|discriminate].
  destruct (gather buf (cells a)) as [v'|] eqn:Hg; [|discriminate].
  intros Hv. inversion Hv; subst. eapply gather_length. exact Hg.
Qed.

Lemma read_self_after_imul (k : R) (m : heap) (r : view) (vr : list R) :
  read m r = inr vr ->
  exists buf : list R,
    m !! buffer r = Some buf /\
    imul k r m = inr (<[buffer r := scale_cells k (cells r) buf]> m) /\
    read (<[buffer r := scale_cells k (cells r) buf]> m) r = inr (scale k vr).
Proof.
  intros Hr. destruct (read_after_imul k m r r vr vr Hr Hr) as (buf & Hb & Hi & Hrd).
  exists buf. split; [exact Hb|]. split; [exact Hi|].
  rewrite Hrd. rewrite scale_marked_all; [reflexivity|apply marks_self|].
  rewrite length_marks. symmetry. eapply read_length. exact Hr.
Qed.

(** ** V_pdipole *)

Lemma pdipole_value_formula (a b r : list R) :
  length a = length r -> length b = length r ->
  pdipole_value a b r = inr (dipole_expr a b r).
Proof.
  intros La Lb. unfold pdipole_value.
  rewrite (dot_vdot _ _ (eq_trans La (eq_sym Lb))).
  rewrite (dot_vdot _ _ La), (dot_vdot _ _ Lb).
  unfold_result. rewrite !Rabs_norm, !norm_vnorm. unfold dipole_expr.
  f_equal. f_equal. unfold Rdiv. rewrite Rinv_1, Rmult_1_r. reflexivity.
Qed.

(** What a call computes and leaves, whatever memory the arrays share:
    the dipoles are read after rAB has been scaled, and the memory is
    left scaled whether the call returns or raises. *)
Lemma V_pdipole_mem_run (m : heap) (tdA tdB rAB : view) (va vb vr : list R) :
  read m tdA = inr va -> read m tdB = inr vb -> read m rAB = inr vr ->
  exists buf : list R,
    m !! buffer rAB = Some buf /\
    V_pdipole_mem tdA tdB rAB m =
    (pdipole_value (scale_marked 1.8897259886 (marks rAB tdA) va)
                   (scale_marked 1.8897259886 (marks rAB tdB) vb)
                   (to_au vr),
     <[buffer rAB := scale_cells 1.8897259886 (cells rAB) buf]> m).
Proof.
  intros Ha Hb Hr.
  destruct (read_after_imul 1.8897259886 m rAB tdA vr va Hr Ha)
    as (buf & Hbuf & Himul & HA).
  destruct (read_after_imul 1.8897259886 m rAB tdB vr vb Hr Hb)
    as (buf' & Hbuf' & _ & HB).
  rewrite Hbuf in Hbuf'. inversion Hbuf'; subst buf'.
  destruct (read_self_after_imul 1.8897259886 m rAB vr Hr)
    as (buf' & Hbuf'' & _ & HR).
  rewrite Hbuf in Hbuf''. inversion Hbuf''; subst buf'.
  exists buf. split; [exact Hbuf|].
  unfold V_pdipole_mem. rewrite Himul. cbv beta iota zeta.
  rewrite HA, HB, HR. unfold_result. rewrite scale_to_au. reflexivity.
Qed.

(** The memory a call leaves when rAB is an array, returning or raising. *)
Lemma V_pdipole_mem_leaves (m : heap) (tdA tdB rAB : view) (vr : list R) :
  read m rAB = inr vr ->
  exists buf : list R,
    m !! buffer rAB = Some buf /\
    snd (V_pdipole_mem tdA tdB rAB m) =
    <[buffer rAB := scale_cells 1.8897259886 (cells rAB) buf]> m.
Proof.
  intros Hr.
  destruct (read_self_after_imul 1.8897259886 m rAB vr Hr)
    as (buf & Hbuf & Himul & _).
  exists buf. split; [exact Hbuf|].
  unfold V_pdipole_mem. rewrite Himul. reflexivity.
Qed.

(** The value for dipoles that share no memory with rAB. *)
Lemma V_pdipole_mem_disjoint (m : heap) (tdA tdB rAB : view)
    (va vb vr : list R) :
  read m tdA = inr va -> read m tdB = inr vb -> read m rAB = inr vr ->
  shares_memory tdA rAB = false -> shares_memory tdB rAB = false ->
  length va = length vr -> length vb = length vr ->
  fst (V_pdipole_mem tdA tdB rAB m) = inr (point_dipole va vb vr).
Proof.
  intros Ha Hb Hr Sa Sb La Lb.
  destruct (V_pdipole_mem_run m tdA tdB rAB va vb vr Ha Hb Hr)
    as (buf & _ & Hrun).
  rewrite Hrun. cbn [fst].
  rewrite !scale_marked_none by (apply marks_disjoint; assumption).
  rewrite pdipole_value_formula by (rewrite length_to_au; assumption).
  reflexivity.
Qed.

Lemma gather_whole (v : list R) (pre : list R) :
  gather (pre ++ v) (map (fun i => (length pre + i * 1)%nat) (seq 0 (length v))) =
  Some v.
Proof.
  revert pre. induction v as [|x v IH]; intros pre; [reflexivity|].
  cbn [length seq map gather].
  replace (length pre + 0 * 1)%nat with (length pre) by lia.
  rewrite list_lookup_middle by reflexivity.
  rewrite <- seq_shift, map_map.
  specialize (IH (pre ++ [x])). rewrite <- app_assoc in IH. cbn [app] in IH.
  rewrite length_app in IH. cbn [length] in IH.
  erewrite map_ext; [rewrite IH; reflexivity|].
  intros i. cbv beta. lia.
Qed.

Lemma read_whole (h : heap) (l : loc) (v : list R) :
  h !! l = Some v -> read h (whole l (length v)) = inr v.
Proof.
  intros Hl. unfold read, whole. cbn [buffer cells]. rewrite Hl.
  pose proof (gather_whole v []) as Hg. cbn [app length] in Hg.
  unfold strided. rewrite Hg. reflexivity.
Qed.

Lemma scale_cells_whole (k : R) (v : list R) :
  scale_cells k (strided 0 1 (length v)) v = scale k v.
Proof.
  unfold scale_cells, scale. apply list_eq. intros i.
  rewrite list_lookup_imap, list_lookup_fmap.
  destruct (v !! i) as [x|] eqn:Hi; [|reflexivity]. simpl.
  rewrite decide_True; [reflexivity|].
  apply lookup_lt_Some in Hi. unfold strided.
  apply list_elem_of_fmap. exists i. split; [lia|].
  apply elem_of_seq. lia.
Qed.

(** On arrays that are whole buffers the call is the one on the heap of
    arrays: there two arrays share memory only when they are one array. *)
Lemma V_pdipole_mem_whole (h : heap) (tdA tdB rAB : loc) (va vb vr : list R) :
  h !! tdA = Some va -> h !! tdB = Some vb -> h !! rAB = Some vr ->
  V_pdipole_mem (whole tdA (length va)) (whole tdB (length vb))
                (whole rAB (length vr)) h =
  V_pdipole_outcome tdA tdB rAB h.
Proof.
  intros Ha Hb Hr.
  assert (Hafter : forall (l : loc) (vl : list R),
            h !! l = Some vl ->
            read (<[rAB := scale 1.8897259886 vr]> h) (whole l (length vl)) =
            deref (<[rAB := scale 1.8897259886 vr]> h) l).
  { intros l vl Hl. unfold deref.
    destruct (decide (l = rAB)) as [->|Hne].
    - rewrite Hr in Hl. inversion Hl; subst vl. rewrite lookup_insert_eq.
      replace (length vr) with (length (scale 1.8897259886 vr))
        by (unfold scale; apply length_map).
      apply read_whole. apply lookup_insert_eq.
    - rewrite lookup_insert_ne by congruence. rewrite Hl.
      apply read_whole. rewrite lookup_insert_ne by congruence. exact Hl. }
  unfold V_pdipole_mem, V_pdipole_outcome, imul, deref.
  cbn [buffer cells whole]. rewrite Hr.
  pose proof (gather_whole vr []) as Hg. cbn [app length] in Hg.
  unfold strided at 1. rewrite Hg.
  unfold_result. fold (strided 0 1 (length vr)). rewrite scale_cells_whole.
  rewrite (Hafter tdA va Ha), (Hafter tdB vb Hb), (Hafter rAB vr Hr).
  reflexivity.
Qed.

(** C4 (amended). For transition dipoles tdA, tdB and a non-zero distance
    vector rAB in Angstrom, of one dimension, passed as arrays of which
    neither tdA nor tdB shares memory with rAB, V_pdipole returns
    |tdA|*|tdB|*(tdA.tdB - 3*(tdA.r)*(tdB.r))/|r|^3 with r = 1.8897259886*rAB,
    and the divisor |r|^3 is not zero. *)
Theorem V_pdipole_formula (m : heap) (tdA tdB rAB : view) (va vb vr : list R) :
  read m tdA = inr va -> read m tdB = inr vb -> read m rAB = inr vr ->
  shares_memory tdA rAB = false -> shares_memory tdB rAB = false ->
  length va = length vr -> length vb = length vr ->
  Exists (fun x => x <> 0) vr ->
  vnorm (to_au vr) ^ 3 <> 0 /\
  fst (V_pdipole_mem tdA tdB rAB m) = inr (point_dipole va vb vr).
Proof.
  intros Ha Hb Hr Sa Sb La Lb Hnz. split.
  - apply pow_nonzero, vnorm_nonzero, to_au_nonzero, Hnz.
  - apply V_pdipole_mem_disjoint; assumption.
Qed.

Lemma V_pdipole_formula_witness :
  vnorm (to_au [1; 0; 2]) ^ 3 <> 0 /\
  fst (V_pdipole_mem (row 0) (row 1) (row 2) mem_rows) =
  inr (point_dipole [1; 0; 0] [1; 1; 0] [1; 0; 2]).
Proof.
  apply (V_pdipole_formula mem_rows (row 0) (row 1) (row 2)
           [1; 0; 0] [1; 1; 0] [1; 0; 2]).
  - reflexivity.
  - reflexivity.
  - reflexivity.
  - reflexivity.
  - reflexivity.
  - reflexivity.
  - reflexivity.
  - apply Exists_cons_hd. lra.
Defined.

(** The call V_pdipole(x[:], y, x) on unit vectors along x: the dipole
    read through the view x[:] is the scaled array. *)
Lemma V_pdipole_mem_view_run :
  exists v : R,
    V_pdipole_mem (whole 1%positive 3) (whole 2%positive 3) (whole 1%positive 3) mem_parallel =
    (inr v, <[1%positive := to_au [1; 0; 0]]> mem_parallel) /\ v < -2.
Proof.
  destruct (V_pdipole_mem_run mem_parallel (whole 1%positive 3) (whole 2%positive 3) (whole 1%positive 3)
              [1; 0; 0] [1; 0; 0] [1; 0; 0] eq_refl eq_refl eq_refl)
    as (buf & Hbuf & Hrun).
  assert (Hb : buf = [1; 0; 0]).
  { unfold mem_parallel, whole in Hbuf. cbn [buffer] in Hbuf.
    rewrite lookup_insert_eq in Hbuf. inversion Hbuf. reflexivity. }
  subst buf.
  assert (HA : scale_marked 1.8897259886 (marks (whole 1%positive 3) (whole 1%positive 3))
                 [1; 0; 0] = to_au [1; 0; 0]).
  { rewrite scale_marked_all; [apply scale_to_au|apply marks_self|reflexivity]. }
  assert (HB : scale_marked 1.8897259886 (marks (whole 1%positive 3) (whole 2%positive 3))
                 [1; 0; 0] = [1; 0; 0]).
  { apply scale_marked_none, marks_disjoint. reflexivity. }
  rewrite HA, HB in Hrun.
  rewrite pdipole_value_formula in Hrun by reflexivity.
  eexists. split.
  - rewrite Hrun. f_equal. f_equal.
    unfold scale_cells, to_au. simpl.
    f_equal; [lra|]. f_equal; [lra|]. f_equal. lra.
  - simpl to_au. rewrite dipole_expr_axis by lra.
    apply div_lt_bound; lra.
Qed.

(** C4, as stated, fails: in the call V_pdipole(x[:], y, x) with x = y =
    (1, 0, 0), where tdA is a view of the array passed as rAB, the value
    returned is not the one the formula gives for tdA = tdB = rAB =
    (1, 0, 0). *)
Lemma V_pdipole_view_value :
  exists v : R,
    read mem_parallel (whole 1%positive 3) = inr [1; 0; 0] /\
    read mem_parallel (whole 2%positive 3) = inr [1; 0; 0] /\
    fst (V_pdipole_mem (whole 1%positive 3) (whole 2%positive 3) (whole 1%positive 3) mem_parallel) =
    inr v /\
    v <> point_dipole [1; 0; 0] [1; 0; 0] [1; 0; 0].
Proof.
  destruct V_pdipole_mem_view_run as (v & Hrun & Hv).
  exists v. split; [reflexivity|]. split; [reflexivity|].
  split; [rewrite Hrun; reflexivity|].
  pose proof point_dipole_parallel. lra.
Qed.

(** C9 (amended). V_pdipole mutates its rAB argument in place: after every
    call on an array rAB, whether the call returns or raises, rAB holds
    1.8897259886 times its value before the call. tdA and tdB are left
    unchanged when they share no memory with rAB, and so is every other
    array; an array that shares memory with rAB has the elements it shares
    scaled with it. *)
Theorem V_pdipole_frame (tdA tdB rAB : view) (m : heap) (vr : list R) :
  read m rAB = inr vr ->
  let m' := snd (V_pdipole_mem tdA tdB rAB m) in
  read m' rAB = inr (map (fun x => 1.8897259886 * x) vr) /\
  (forall va : list R,
     read m tdA = inr va -> shares_memory tdA rAB = false ->
     read m' tdA = inr va) /\
  (forall vb : list R,
     read m tdB = inr vb -> shares_memory tdB rAB = false ->
     read m' tdB = inr vb) /\
  (forall (w : view) (vw : list R),
     read m w = inr vw -> shares_memory w rAB = false ->
     read m' w = inr vw) /\
  (forall (w : view) (vw : list R),
     read m w = inr vw ->
     read m' w = inr (scale_marked 1.8897259886 (marks rAB w) vw)) /\
  (forall l : loc, l <> buffer rAB -> m' !! l = m !! l).
Proof.
  intros Hr m'.
  destruct (V_pdipole_mem_leaves m tdA tdB rAB vr Hr) as (buf & Hbuf & Hm').
  assert (Hany : forall (w : view) (vw : list R),
            read m w = inr vw ->
            read m' w = inr (scale_marked 1.8897259886 (marks rAB w) vw)).
  { intros w vw Hw.
    destruct (read_after_imul 1.8897259886 m rAB w vr vw Hr Hw)
      as (buf' & Hbuf' & _ & Hread).
    rewrite Hbuf in Hbuf'. inversion Hbuf'; subst buf'.
    unfold m'. rewrite Hm'. exact Hread. }
  assert (Hfree : forall (w : view) (vw : list R),
            read m w = inr vw -> shares_memory w rAB = false ->
            read m' w = inr vw).
  { intros w vw Hw Hs. rewrite (Hany w vw Hw).
    rewrite scale_marked_none by (apply marks_disjoint; exact Hs).
    reflexivity. }
  split; [|split; [|split; [|split; [|split]]]].
  - rewrite (Hany rAB vr Hr).
    rewrite scale_marked_all; [rewrite scale_to_au; reflexivity|apply marks_self|].
    rewrite length_marks. symmetry. eapply read_length. exact Hr.
  - intros va. apply Hfree.
  - intros vb. apply Hfree.
  - exact Hfree.
  - exact Hany.
  - intros l Hl. unfold m'. rewrite Hm'. apply lookup_insert_ne. congruence.
Qed.

(** A call that raises, on rows of one matrix: the first dipole has two
    components only. The row passed as rAB is scaled all the same, and
    with it the matrix it is a row of. *)
Lemma V_pdipole_frame_witness :
  let m' := snd (V_pdipole_mem (View 1%positive [0; 1]%nat) (row 1) (row 2)
                   mem_rows) in
  read m' (row 2) = inr (map (fun x => 1.8897259886 * x) [1; 0; 2]) /\
  read m' (View 1%positive [0; 1]%nat) = inr [1; 0] /\
  read m' (row 1) = inr [1; 1; 0] /\
  read m' (whole 1%positive 9) =
  inr (scale_marked 1.8897259886 (marks (row 2) (whole 1%positive 9))
         [1; 0; 0; 1; 1; 0; 1; 0; 2]).
Proof.
  intros m'.
  destruct (V_pdipole_frame (View 1%positive [0; 1]%nat) (row 1) (row 2)
              mem_rows [1; 0; 2] eq_refl)
    as (Hr & Ha & Hb & _ & Hany & _).
  split; [exact Hr|]. split; [|split].
  - apply Ha; reflexivity.
  - apply Hb; reflexivity.
  - apply Hany. reflexivity.
Defined.

(** C9, as stated, fails: in the call V_pdipole(x[:], y, x) the array
    passed as tdA is a view of the one passed as rAB, and it is scaled. *)
Lemma V_pdipole_changes_view_tdA :
  exists m' : heap,
    snd (V_pdipole_mem (whole 1%positive 3) (whole 2%positive 3)
                       (whole 1%positive 3) mem_parallel) = m' /\
    read mem_parallel (whole 1%positive 3) = inr [1; 0; 0] /\
    read m' (whole 1%positive 3) =
    inr [1.8897259886 * 1; 1.8897259886 * 0; 1.8897259886 * 0] /\
    read m' (whole 1%positive 3) <> read mem_parallel (whole 1%positive 3).
Proof.
  destruct V_pdipole_mem_view_run as (v & Hrun & _).
  exists (<[1%positive := to_au [1; 0; 0]]> mem_parallel).
  split; [rewrite Hrun; reflexivity|].
  split; [reflexivity|].
  assert (Hread : read (<[1%positive := to_au [1; 0; 0]]> mem_parallel)
                       (whole 1%positive 3) =
                  inr [1.8897259886 * 1; 1.8897259886 * 0; 1.8897259886 * 0]).
  { unfold read, whole. cbn [buffer cells]. rewrite lookup_insert_eq.
    reflexivity. }
  split; [exact Hread|].
  assert (Hold : read mem_parallel (whole 1%positive 3) = inr [1; 0; 0])
    by reflexivity.
  rewrite Hread, Hold. intros Heq. inversion Heq as [H1]. lra.
Qed.

(** ** Determinism of the formulas *)

(** The outcome of a call is a function of the values read and of which
    elements of the dipoles lie in the memory of rAB. *)
Lemma V_pdipole_mem_outcome (m : heap) (tdA tdB rAB : view) (va vb vr : list R) :
  read m tdA = inr va -> read m tdB = inr vb -> read m rAB = inr vr ->
  fst (V_pdipole_mem tdA tdB rAB m) =
  pdipole_value (scale_marked 1.8897259886 (marks rAB tdA) va)
                (scale_marked 1.8897259886 (marks rAB tdB) vb)
                (to_au vr).
Proof.
  intros Ha Hb Hr.
  destruct (V_pdipole_mem_run m tdA tdB rAB va vb vr Ha Hb Hr)
    as (buf & _ & Hrun).
  rewrite Hrun. reflexivity.
Qed.

Lemma V_multipole_mem_reads (molA molA' molB molB' : mol)
    (chrgA chrgB chrgA' chrgB' : view) (m m' : heap) :
  atom_coords molA = atom_coords molA' ->
  atom_coords molB = atom_coords molB' ->
  read m chrgA = read m' chrgA' ->
  read m chrgB = read m' chrgB' ->
  fst (V_multipole_mem molA molB chrgA chrgB m) =
  fst (V_multipole_mem molA' molB' chrgA' chrgB' m') /\
  snd (V_multipole_mem molA molB chrgA chrgB m) = m.
Proof.
  intros HA HB Ha Hb. split; [|reflexivity].
  unfold V_multipole_mem. cbn [fst]. rewrite Ha, Hb.
  destruct (read m' chrgA') as [e|qA]; [reflexivity|].
  destruct (read m' chrgB') as [e|qB]; [reflexivity|].
  unfold_result. apply V_multipole_reads_coords; assumption.
Qed.

Lemma load_mf_reads (m m' : heap) (mf mf' : meanfield_ref) :
  read m (mo_energy_ref mf) = read m' (mo_energy_ref mf') ->
  read m (mo_occ_ref mf) = read m' (mo_occ_ref mf') ->
  match load_mf m mf, load_mf m' mf' with
  | inl e, inl e' => e = e'
  | inr f, inr f' => mo_energy f = mo_energy f' /\ mo_occ f = mo_occ f'
  | _, _ => False
  end.
Proof.
  intros He Ho. unfold load_mf. rewrite He, Ho.
  destruct (read m' (mo_energy_ref mf')) as [e|en]; [reflexivity|].
  destruct (read m' (mo_occ_ref mf')) as [e|oc]; [reflexivity|].
  unfold_result. split; reflexivity.
Qed.

Lemma V_CT_mem_reads (te th : R) (rab rab' : view) (mf mf' : meanfield_ref)
    (Egap : option R) (m m' : heap) :
  read m rab = read m' rab' ->
  read m (mo_energy_ref mf) = read m' (mo_energy_ref mf') ->
  read m (mo_occ_ref mf) = read m' (mo_occ_ref mf') ->
  fst (V_CT_mem te th rab (Some mf) Egap m) =
  fst (V_CT_mem te th rab' (Some mf') Egap m') /\
  snd (V_CT_mem te th rab (Some mf) Egap m) = m.
Proof.
  intros Hr He Ho. split; [|reflexivity].
  unfold V_CT_mem. cbn [fst]. rewrite Hr.
  destruct (read m' rab') as [e|r]; [reflexivity|]. unfold_result.
  destruct Egap as [Eopt|]; [|reflexivity].
  pose proof (load_mf_reads m m' mf mf' He Ho) as Hload.
  destruct (load_mf m mf) as [e|f], (load_mf m' mf') as [e'|f'];
    try contradiction.
  - subst. reflexivity.
  - destruct Hload as [HE HO]. apply V_CT_reads_orbitals; assumption.
Qed.

Lemma V_CT_mem_reads_rab (te th : R) (rab rab' : view) (Egap : option R)
    (m m' : heap) :
  read m rab = read m' rab' ->
  fst (V_CT_mem te th rab None Egap m) =
  fst (V_CT_mem te th rab' None Egap m') /\
  snd (V_CT_mem te th rab None Egap m) = m.
Proof.
  intros Hr. split; [|reflexivity].
  unfold V_CT_mem. cbn [fst]. rewrite Hr.
  destruct Egap; reflexivity.
Qed.

Lemma transfer_sym_mem_reads (mf mf' : meanfield_ref) (m m' : heap) :
  read m (mo_energy_ref mf) = read m' (mo_energy_ref mf') ->
  read m (mo_occ_ref mf) = read m' (mo_occ_ref mf') ->
  fst (transfer_sym_mem mf m) = fst (transfer_sym_mem mf' m') /\
  snd (transfer_sym_mem mf m) = m.
Proof.
  intros He Ho. split; [|reflexivity].
  unfold transfer_sym_mem. cbn [fst].
  pose proof (load_mf_reads m m' mf mf' He Ho) as Hload.
  destruct (load_mf m mf) as [e|f], (load_mf m' mf') as [e'|f'];
    try contradiction.
  - subst. reflexivity.
  - destruct Hload as [HE HO]. unfold_result.
    apply transfer_sym_reads_orbitals; assumption.
Qed.

(** C8 (amended). The closed-form formulas are deterministic. Two calls of
    V_multipole, V_CT or transfer_sym whose arguments hold equal values
    return equal results, whatever memory the arrays occupy, and leave the
    memory as it was. Two calls of V_pdipole, which scales rAB in place
    before it reads its arguments, return equal results when their
    arguments hold equal values and every element of tdA and of tdB lies
    in the memory of rAB in both calls or in neither: in particular when
    in neither call tdA or tdB shares memory with rAB. *)
Theorem formulas_deterministic :
  (forall (molA molA' molB molB' : mol) (chrgA chrgB chrgA' chrgB' : view)
          (m m' : heap),
     atom_coords molA = atom_coords molA' ->
     atom_coords molB = atom_coords molB' ->
     read m chrgA = read m' chrgA' ->
     read m chrgB = read m' chrgB' ->
     fst (V_multipole_mem molA molB chrgA chrgB m) =
     fst (V_multipole_mem molA' molB' chrgA' chrgB' m') /\
     snd (V_multipole_mem molA molB chrgA chrgB m) = m) /\
  (forall (a1 b1 r1 a2 b2 r2 : view) (m1 m2 : heap) (va vb vr : list R),
     read m1 a1 = inr va -> read m2 a2 = inr va ->
     read m1 b1 = inr vb -> read m2 b2 = inr vb ->
     read m1 r1 = inr vr -> read m2 r2 = inr vr ->
     marks r1 a1 = marks r2 a2 -> marks r1 b1 = marks r2 b2 ->
     fst (V_pdipole_mem a1 b1 r1 m1) = fst (V_pdipole_mem a2 b2 r2 m2)) /\
  (forall (a1 b1 r1 a2 b2 r2 : view) (m1 m2 : heap) (va vb vr : list R),
     read m1 a1 = inr va -> read m2 a2 = inr va ->
     read m1 b1 = inr vb -> read m2 b2 = inr vb ->
     read m1 r1 = inr vr -> read m2 r2 = inr vr ->
     shares_memory a1 r1 = false -> shares_memory b1 r1 = false ->
     shares_memory a2 r2 = false -> shares_memory b2 r2 = false ->
     fst (V_pdipole_mem a1 b1 r1 m1) = fst (V_pdipole_mem a2 b2 r2 m2)) /\
  (forall (te th : R) (rab rab' : view) (mf mf' : meanfield_ref)
          (Egap : option R) (m m' : heap),
     read m rab = read m' rab' ->
     read m (mo_energy_ref mf) = read m' (mo_energy_ref mf') ->
     read m (mo_occ_ref mf) = read m' (mo_occ_ref mf') ->
     fst (V_CT_mem te th rab (Some mf) Egap m) =
     fst (V_CT_mem te th rab' (Some mf') Egap m') /\
     snd (V_CT_mem te th rab (Some mf) Egap m) = m) /\
  (forall (te th : R) (rab rab' : view) (Egap : option R) (m m' : heap),
     read m rab = read m' rab' ->
     fst (V_CT_mem te th rab None Egap m) =
     fst (V_CT_mem te th rab' None Egap m') /\
     snd (V_CT_mem te th rab None Egap m) = m) /\
  (forall (mf mf' : meanfield_ref) (m m' : heap),
     read m (mo_energy_ref mf) = read m' (mo_energy_ref mf') ->
     read m (mo_occ_ref mf) = read m' (mo_occ_ref mf') ->
     fst (transfer_sym_mem mf m) = fst (transfer_sym_mem mf' m') /\
     snd (transfer_sym_mem mf m) = m).
Proof.
  split; [exact V_multipole_mem_reads|].
  split.
  { intros a1 b1 r1 a2 b2 r2 m1 m2 va vb vr Ha1 Ha2 Hb1 Hb2 Hr1 Hr2 Ma Mb.
    rewrite (V_pdipole_mem_outcome m1 a1 b1 r1 va vb vr) by assumption.
    rewrite (V_pdipole_mem_outcome m2 a2 b2 r2 va vb vr) by assumption.
    rewrite Ma, Mb. reflexivity. }
  split.
  { intros a1 b1 r1 a2 b2 r2 m1 m2 va vb vr Ha1 Ha2 Hb1 Hb2 Hr1 Hr2 S1 S2 S3 S4.
    rewrite (V_pdipole_mem_outcome m1 a1 b1 r1 va vb vr) by assumption.
    rewrite (V_pdipole_mem_outcome m2 a2 b2 r2 va vb vr) by assumption.
    rewrite !scale_marked_none by (apply marks_disjoint; assumption).
    reflexivity. }
  split; [exact V_CT_mem_reads|].
  split; [exact V_CT_mem_reads_rab|].
  exact transfer_sym_mem_reads.
Qed.

(** Rows of one matrix against three arrays of their own, and orbital
    arrays in two layouts. *)
Lemma formulas_deterministic_witness :
  fst (V_pdipole_mem (row 0) (row 1) (row 2) mem_rows) =
  fst (V_pdipole_mem (whole 1%positive 3) (whole 2%positive 3)
                     (whole 3%positive 3) mem_three) /\
  fst (transfer_sym_mem mf_four_level_ref mem_orbitals) =
  fst (transfer_sym_mem mf_four_level_packed mem_orbitals_packed) /\
  snd (transfer_sym_mem mf_four_level_ref mem_orbitals) = mem_orbitals.
Proof.
  split.
  - apply (proj1 (proj2 (proj2 formulas_deterministic))
             (row 0) (row 1) (row 2) (whole 1%positive 3) (whole 2%positive 3)
             (whole 3%positive 3) mem_rows mem_three
             [1; 0; 0] [1; 1; 0] [1; 0; 2]); reflexivity.
  - apply (proj2 (proj2 (proj2 (proj2 (proj2 formulas_deterministic))))
             mf_four_level_ref mf_four_level_packed mem_orbitals
             mem_orbitals_packed); reflexivity.
Defined.

(** C8, as stated, fails for V_pdipole: the calls V_pdipole(x[:], y, x)
    and V_pdipole(x, y, z) with x, y, z three arrays holding (1, 0, 0)
    have equal argument values and return different results. *)
Lemma V_pdipole_equal_values_differ :
  read mem_parallel (whole 1%positive 3) = inr [1; 0; 0] /\
  read mem_parallel (whole 2%positive 3) = inr [1; 0; 0] /\
  read mem_parallel (whole 3%positive 3) = inr [1; 0; 0] /\
  exists v w : R,
    fst (V_pdipole_mem (whole 1%positive 3) (whole 2%positive 3)
                       (whole 1%positive 3) mem_parallel) = inr v /\
    fst (V_pdipole_mem (whole 1%positive 3) (whole 2%positive 3)
                       (whole 3%positive 3) mem_parallel) = inr w /\
    v <> w.
Proof.
  repeat (split; [reflexivity|]).
  destruct V_pdipole_mem_view_run as (v & Hrun & Hv).
  exists v, (point_dipole [1; 0; 0] [1; 0; 0] [1; 0; 0]).
  split; [rewrite Hrun; reflexivity|]. split.
  - apply V_pdipole_mem_disjoint; reflexivity.
  - pose proof point_dipole_parallel. lra.
Qed.

(** * What the coupling functions return *)

Lemma mask_select_lengths (f : R -> bool) (a o v : list R) :
  mask_select a (map f o) = inr v -> length o = length a.
Proof.
  intros Hsel. destruct (decide (length o = length a)) as [Heq|Hne];
    [exact Heq|].
  rewrite (mask_select_mismatch f a o Hne) in Hsel. discriminate.
Qed.

Lemma find_of_first (p : R * R -> bool) (l : list (R * R)) (x : R) :
  first (map fst (List.filter p l)) = inr x ->
  fst <$> List.find p l = Some x.
Proof.
  rewrite find_hd_filter. destruct (List.filter p l) as [|y l']; simpl;
    intros H; inversion H; reflexivity.
Qed.

Lemma find_of_last_elt (p : R * R -> bool) (l : list (R * R)) (x : R) :
  last_elt (map fst (List.filter p l)) = inr x ->
  fst <$> List.find p (rev l) = Some x.
Proof.
  unfold last_elt. rewrite <- map_rev, <- List.filter_rev, find_hd_filter.
  destruct (List.filter p (rev l)) as [|y l']; simpl;
    intros H; inversion H; reflexivity.
Qed.

(** The three components of a result of V_CT. *)
Lemma V_CT_returns (te th : R) (rab : list R) (mfAB : option meanfield)
    (Egap : option R) (c d r : R) :
  V_CT te th rab mfAB Egap = inr (c, d, r) ->
  c = -2 * te * th / d /\
  r = norm rab /\
  distance_au rab = 1.8897259886 * r /\
  match Egap with
  | None => d = 0.7 * 0.0367493 - V_binding rab
  | Some Eopt =>
      exists (mf : meanfield) (EL EH : R),
        mfAB = Some mf /\ E_LUMO mf = Some EL /\ E_HOMO mf = Some EH /\
        d = (EL - EH - Eopt) - V_binding rab
  end.
Proof.
  destruct Egap as [Eopt|].
  - destruct mfAB as [mf|]; [|discriminate].
    unfold V_CT.
    destruct (mask_select (mo_energy mf) (map eq0 (mo_occ mf))) as [e|virt]
      eqn:Hv; [discriminate|].
    pose proof (mask_select_lengths _ _ _ _ Hv) as Hlen.
    rewrite mask_select_filter in Hv by exact Hlen. inversion Hv; subst virt.
    rewrite mask_select_filter by exact Hlen. unfold_result.
    destruct (first _) as [e|EL] eqn:HL; [discriminate|].
    destruct (last_elt _) as [e|EH] eqn:HH; [discriminate|].
    rewrite V_binding_eq. intros Heq. inversion Heq; subst. clear Heq.
    split; [reflexivity|]. split; [reflexivity|].
    split; [unfold distance_au; lra|].
    exists mf, EL, EH. split; [reflexivity|].
    split; [apply find_of_first; exact HL|].
    split; [apply find_of_last_elt; exact HH|reflexivity].
  - rewrite (V_CT_without_gap te th rab mfAB). intros Heq.
    inversion Heq; subst.
    split; [reflexivity|]. split; [reflexivity|].
    split; [unfold distance_au; lra|reflexivity].
Qed.

Section CouplingResults.

Variable mol_add : mol -> mol -> mol.
Variable vhfopt : Type.
Variable VHFOpt_set_dm : mol -> ndarray -> vhfopt.
Variable block_diag : ndarray -> ndarray -> ndarray.
Variable get_jk :
  mol -> ndarray -> string -> list nat -> vhfopt -> string -> Z -> string -> ndarray.

Let jk'' := jk_ints_eff mol_add vhfopt VHFOpt_set_dm block_diag get_jk.
Let VC'' := V_Coulomb mol_add vhfopt VHFOpt_set_dm block_diag get_jk.

Lemma V_Coulomb_returns (molA molB : mol) (tdmA tdmB : ndarray)
    (calcK : bool) (v : R) :
  VC'' molA molB tdmA tdmB calcK = inr v ->
  exists cJ : R, jk'' molA molB tdmA tdmB false = inr (cJ, 0) /\ v = 2 * cJ.
Proof.
  unfold VC'', V_Coulomb. fold jk''.
  destruct (jk'' molA molB tdmA tdmB false) as [e|[cJ cK]] eqn:Hjk;
    [discriminate|].
  assert (HK : cK = 0).
  { revert Hjk. unfold jk'', jk_ints_eff. unfold_result.
    repeat case_decide; try discriminate.
    destruct (einsum_ia_ia _ tdmA); [discriminate|].
    intros Heq. inversion Heq. reflexivity. }
  subst cK. unfold_result. intros Heq. inversion Heq; subst.
  exists cJ. split; [reflexivity|lra].
Qed.

(** C6 (amended). Every coupling result is a scalar or a tuple of scalars.
    V_Coulomb, V_multipole and V_pdipole each return a single scalar
    energy in atomic units: twice the Coulomb integral of the solver; the
    monopole sum over the coordinates of the molecules; the point-dipole
    expression at the distance converted from Angstrom to atomic units.
    V_CT returns three scalars: the coupling -2*te*th/domega and the
    denominator domega = U - V, in atomic units, with V taken at the
    distance converted to atomic units, and the length |rab| as given, in
    the unit of the argument (Angstrom): the length in atomic units is
    1.8897259886 times the component returned. *)
Theorem coupling_results :
  (forall (molA molB : mol) (tdmA tdmB : ndarray) (calcK : bool) (v : R),
     VC'' molA molB tdmA tdmB calcK = inr v ->
     exists cJ : R,
       jk'' molA molB tdmA tdmB false = inr (cJ, 0) /\ v = 2 * cJ) /\
  (forall (molA molB : mol) (chrgA chrgB : list R),
     length chrgA = length (atom_coords molA) ->
     length chrgB = length (atom_coords molB) ->
     V_multipole molA molB chrgA chrgB =
     inr (monopole_sum (atom_coords molA) (atom_coords molB) chrgA chrgB)) /\
  (forall (m : heap) (tdA tdB rAB : view) (va vb vr : list R),
     read m tdA = inr va -> read m tdB = inr vb -> read m rAB = inr vr ->
     shares_memory tdA rAB = false -> shares_memory tdB rAB = false ->
     length va = length vr -> length vb = length vr ->
     fst (V_pdipole_mem tdA tdB rAB m) =
     inr (vnorm va * vnorm vb
          * (vdot va vb - 3 * vdot va (to_au vr) * vdot vb (to_au vr))
          / vnorm (to_au vr) ^ 3)) /\
  (forall (te th : R) (rab : list R) (mfAB : option meanfield)
          (Egap : option R) (c d r : R),
     V_CT te th rab mfAB Egap = inr (c, d, r) ->
     c = -2 * te * th / d /\
     r = norm rab /\
     distance_au rab = 1.8897259886 * r /\
     match Egap with
     | None => d = 0.7 * 0.0367493 - V_binding rab
     | Some Eopt =>
         exists (mf : meanfield) (EL EH : R),
           mfAB = Some mf /\ E_LUMO mf = Some EL /\ E_HOMO mf = Some EH /\
           d = (EL - EH - Eopt) - V_binding rab
     end).
Proof.
  split; [exact V_Coulomb_returns|].
  split; [exact V_multipole_matched|].
  split; [|exact V_CT_returns].
  intros m tdA tdB rAB va vb vr Ha Hb Hr Sa Sb La Lb.
  rewrite (V_pdipole_mem_disjoint m tdA tdB rAB va vb vr) by assumption.
  reflexivity.
Qed.

End CouplingResults.

(** A dimer with a gap of 0.2 at one Angstrom, and dipoles held in the
    rows of one matrix. *)
Lemma coupling_results_witness :
  (exists c d r : R,
     V_CT 1 1 [1; 0; 0] (Some mf_two_level) (Some 0.2) = inr (c, d, r) /\
     c = -2 * 1 * 1 / d /\
     r = norm [1; 0; 0] /\
     distance_au [1; 0; 0] = 1.8897259886 * r /\
     exists (mf : meanfield) (EL EH : R),
       Some mf_two_level = Some mf /\
       E_LUMO mf = Some EL /\ E_HOMO mf = Some EH /\
       d = (EL - EH - 0.2) - V_binding [1; 0; 0]) /\
  fst (V_pdipole_mem (row 0) (row 1) (row 2) mem_rows) =
  inr (vnorm [1; 0; 0] * vnorm [1; 1; 0]
       * (vdot [1; 0; 0] [1; 1; 0]
          - 3 * vdot [1; 0; 0] (to_au [1; 0; 2]) * vdot [1; 1; 0] (to_au [1; 0; 2]))
       / vnorm (to_au [1; 0; 2]) ^ 3).
Proof.
  pose proof (coupling_results demo_mol_add unit (fun _ _ => tt)
                demo_block_diag demo_get_jk) as (_ & _ & Hpd & Hct).
  split.
  - assert (Hrun : V_CT 1 1 [1; 0; 0] (Some mf_two_level) (Some 0.2) =
                   inr (-2 * 1 * 1 / ((0.1 - -0.5 - 0.2) - V_binding [1; 0; 0]),
                        (0.1 - -0.5 - 0.2) - V_binding [1; 0; 0],
                        norm [1; 0; 0])).
    { apply (V_CT_with_gap 1 1 [1; 0; 0] mf_two_level 0.2 0.1 (-0.5)).
      - reflexivity.
      - unfold E_LUMO. simpl. rewrite eq0_nonzero by lra. rewrite eq0_zero.
        reflexivity.
      - unfold E_HOMO, ne0. simpl. rewrite eq0_zero. simpl.
        rewrite eq0_nonzero by lra. reflexivity. }
    eexists _, _, _. split; [exact Hrun|].
    exact (Hct 1 1 [1; 0; 0] (Some mf_two_level) (Some 0.2) _ _ _ Hrun).
  - apply (Hpd mem_rows (row 0) (row 1) (row 2) [1; 0; 0] [1; 1; 0] [1; 0; 2]);
      reflexivity.
Defined.

(** * The files a call leaves *)

Section FileProperties.

Variable gto_M : string -> string -> Z -> Z -> result mol.
Variable ddCOSMO_RKS_run : mol -> string -> result meanfield.
Variable mol_add : mol -> mol -> mol.
Variable vhfopt : Type.
Variable VHFOpt_set_dm : mol -> ndarray -> vhfopt.
Variable block_diag : ndarray -> ndarray -> ndarray.
Variable get_jk :
  mol -> ndarray -> string -> list nat -> vhfopt -> string -> Z -> string -> ndarray.
Variable lowdin_pop : mol -> ndarray -> result (list R).
Variable ao_labels : mol -> list ao_label.
Variable intor_cross : string -> mol -> mol -> ndarray.
Variable transfer_CT_other :
  mol -> mol -> ndarray -> ndarray -> ndarray -> ndarray -> result (R * R).
Variable TDA_run : meanfield -> nat -> result tda.
Variable np_dot_other : ndarray -> ndarray -> result ndarray.
Variable T_other : ndarray -> ndarray.
Variable select_atoms : universe -> string -> list atom.
Variable center_of_mass : list atom -> point.
Variable array2string : point -> string -> string.
Variable array2string_str : list string -> string -> string.
Variable csv_reader : string -> list (list string).





End FileProperties.

